(** * The SimPy event kernel ([simpy/events.py]) as a shallow embedding

    Python objects live in a store and are named by references, so that the
    aliasing the kernel relies on (an event shared by the queue, by its
    waiters' [_target] and by the conditions built over it) is kept.  Every
    method of [events.py] becomes a computation in a state-and-exception
    monad over that store, written statement by statement after the source. *)

From Stdlib Require Import ZArith String.
From stdpp Require Import base option list strings.

Set Default Proof Using "Type".

(** ** Values, exceptions, callbacks *)

(** A reference: the index of an object in the store. *)
Abbreviation ref := nat.

(** Python values that flow through the kernel.  The [PENDING] sentinel is not
    a payload: an attribute that may hold it has type [option value], and
    [PENDING] is [None].  An [OrderedDict] keyed by events is an association
    list in insertion order; its entries hold what [_value] held.  Tuples
    are there because the [%] of the messages treats them differently. *)
#[local] Unset Elimination Schemes.
Inductive value : Type :=
| VNone
| VBool (b : bool)
| VInt (z : Z)
| VStr (s : string)
| VRef (r : ref)
| VDict (d : list (ref * option value))
| VTuple (l : list value).
#[local] Set Elimination Schemes.

Abbreviation PENDING := (@None value).

Definition URGENT : Z := 0.
Definition NORMAL : Z := 1.

(** An exception object: its class (by name), [args] and [__cause__]. *)
Record exc := Exc {
  exc_type : string;
  args : list value;
  __cause__ : option ref }.

(** The bound methods that the kernel appends to [callbacks]. *)
Inductive callback :=
| cb_resume (process : ref)          (* process._resume *)
| cb_interrupt (interruption : ref)  (* interruption._interrupt *)
| cb_check (condition : ref)         (* condition._check *)
| cb_collect_values (condition : ref)(* condition._collect_values *)
| cb_trigger (event : ref).          (* event.trigger *)

#[global] Instance callback_eq_dec : EqDecision callback.
Proof. solve_decision. Defined.

(** Modelled from the spec: [simpy/core.py] is not part of the sources.  The
    environment has the attributes of section 3.3: the clock, the active
    process, the queue of entries [(time, priority, insertion_id, event)] and
    the insertion counter. *)
Record Environment := Env {
  _now : Z;
  _active_proc : option ref;
  _queue : list (Z * Z * nat * ref);
  _eid : nat }.

(** What a call into the kernel gives back to Python code: a value, a raised
    exception object, or (for the two loops that need fuel) no answer. *)
Inductive result (A : Type) : Type :=
| Ok (a : A)
| Raised (x : ref)
| OutOfFuel.
Arguments Ok {A} a.
Arguments Raised {A} x.
Arguments OutOfFuel {A}.

(** What building a text ([str], [repr], [%]) comes to: the text itself is
    not modelled, an exception that building it raises is. *)
Inductive printed :=
| Printed
| Fails (ty : string) (a : list value).

(** The items of a sequence are printed in order, up to the first that
    fails. *)
Fixpoint print_all {A} (f : A -> printed) (l : list A) : printed :=
  match l with
  | [] => Printed
  | x :: l' => match f x with Printed => print_all f l' | e => e end
  end.

(** The right operand of ['...%s...' % v]: a tuple is the tuple of the
    arguments, and there must be as many as the format has places. *)
Definition percent_operand (v : value) : value + printed :=
  match v with
  | VTuple [w] => inl w
  | VTuple [] => inr (Fails "TypeError" [VStr "not enough arguments for format string"])
  | VTuple _ =>
      inr (Fails "TypeError" [VStr "not all arguments converted during string formatting"])
  | _ => inl v
  end.

(** What calling an exception class comes to: the new object gets the
    arguments [a] as its [args], which need not be those of the call, or the
    constructor raises. *)
Inductive constructed :=
| Built (a : list value)
| Refused (ty : string) (a : list value).

(** The interpreter gives up with [RecursionError] when calls nest deeper
    than [sys.getrecursionlimit()]. *)
Definition recursion_limit : nat := 1000.

(** The [evaluate] functions of [Condition]. *)
Definition all_events (events : list ref) (count : nat) : bool :=
  bool_decide (length events = count).

Definition any_events (events : list ref) (count : nat) : bool :=
  bool_decide (0 < count) || bool_decide (length events = 0).

(** [list.remove(x)]: drop the first occurrence. *)
Fixpoint list_remove (x : callback) (l : list callback) : list callback :=
  match l with
  | [] => []
  | y :: l' => if decide (x = y) then l' else y :: list_remove x l'
  end.

(** Modelled from the spec: the order of the queue of [simpy/core.py]
    (section 4.1): by time, then priority, then insertion. *)
Definition entry_le (a b : Z * Z * nat * ref) : bool :=
  let '(t1, p1, i1, _) := a in
  let '(t2, p2, i2, _) := b in
  (t1 <? t2)%Z || ((t1 =? t2)%Z && ((p1 <? p2)%Z || ((p1 =? p2)%Z && (i1 <=? i2)))).

(** Modelled from the spec: [heappop] on that queue, the least entry and the
    entries left. *)
Fixpoint heappop (q : list (Z * Z * nat * ref))
  : option ((Z * Z * nat * ref) * list (Z * Z * nat * ref)) :=
  match q with
  | [] => None
  | x :: q' =>
      match heappop q' with
      | None => Some (x, [])
      | Some (m, rest) => if entry_le x m then Some (x, q') else Some (m, x :: rest)
      end
  end.

(** [d[k] = v] on an [OrderedDict]: an existing key keeps its position. *)
Fixpoint od_set (k : ref) (v : option value) (d : list (ref * option value))
  : list (ref * option value) :=
  match d with
  | [] => [(k, v)]
  | (k', v') :: d' => if decide (k = k') then (k, v) :: d' else (k', v') :: od_set k v d'
  end.

(** [d.update(d2)] *)
Definition od_update (d d2 : list (ref * option value)) : list (ref * option value) :=
  foldl (fun acc kv => od_set kv.1 kv.2 acc) d d2.

(** The keys of an insertion-ordered mapping that is filled from [l]: each
    key once, at the place of its first occurrence. *)
Definition add_key (k : ref) (keys : list ref) : list ref :=
  if decide (k ∈ keys) then keys else keys ++ [k].

Definition add_keys (keys l : list ref) : list ref :=
  foldl (fun keys k => add_key k keys) keys l.

Definition distinct (l : list ref) : list ref := add_keys [] l.

Section Kernel.

(** A process generator is a resumable computation.  [G] is the type of its
    suspended states.  Between two suspensions the body runs a segment: a
    finite tree of calls into the kernel that ends in a [yield], in a return
    ([StopIteration(args)]) or in [raise]. *)
Context {G : Type}.

Inductive generator_arg :=
| a_generator (g : G)
| not_a_generator (v : value).

Inductive op :=
| op_Event (env : ref)
| op_Timeout (env : ref) (delay : Z) (v : value)
| op_Process (env : ref) (generator : generator_arg)
| op_Condition (env : ref) (evaluate : list ref -> nat -> bool) (events : list ref)
| op_succeed (e : ref) (v : value)
| op_fail (e : ref) (exception : value)
| op_trigger (e other : ref)
| op_append_trigger (e other : ref)      (* other.callbacks.append(e.trigger) *)
| op_interrupt (p : ref) (cause : value)
| op_value (e : ref)
| op_triggered (e : ref)
| op_processed (e : ref)
| op_is_alive (p : ref)
| op_target (p : ref)
| op_exception (ty : string) (a : list value)
| op_now (env : ref).

Inductive segment :=
| SYield (v : value) (g : G)
| SReturn (a : list value)
| SRaise (x : value)
| SCall (o : op) (k : result value -> segment).

(** The program: what a generator does when resumed by [send] or [throw]. *)
Context (send : G -> option value -> segment) (throw : G -> ref -> segment).

(** The exception classes of the program: [construct ty a] is what the call
    [ty( *a)] of the class named [ty] does. *)
Context (construct : string -> list value -> constructed).

(** [_describe_frame(frame)] for the frame of a generator that is suspended
    in [g].  It opens the source file of the generator's code and reads up
    to the line the frame is at: what that comes to lies with the files, not
    with the store. *)
Context (_describe_frame : G -> printed).

(** ** Objects and the store *)

Inductive variant :=
| IsEvent
| IsTimeout (_delay : Z)
| IsInitialize
| IsInterruption (process : option ref)
| IsProcess (_generator : option G) (_target : option ref)
| IsCondition (_evaluate : list ref -> nat -> bool) (_events : list ref) (_count : nat).

(** The attributes shared by all event classes.  [callbacks = None] is the
    Python [None] set when the event is processed; [ok = None] and
    [defused = false] stand for an attribute that has not been set. *)
Record event := Event {
  env : ref;
  callbacks : option (list callback);
  _value : option value;
  ok : option bool;
  defused : bool;
  variant_of : variant }.

Inductive obj :=
| OEvent (e : event)
| OExc (x : exc)
| OEnv (E : Environment).

(** The store: a reference is an index into it. *)
Abbreviation state := (list obj).

Definition M (A : Type) : Type := state -> result A * state.

Definition ret {A} (a : A) : M A := fun s => (Ok a, s).

Definition bind {A B} (m : M A) (k : A -> M B) : M B :=
  fun s => match m s with
           | (Ok a, s') => k a s'
           | (Raised x, s') => (Raised x, s')
           | (OutOfFuel, s') => (OutOfFuel, s')
           end.

(** [try: m except BaseException as x: h x] *)
Definition try_except {A} (m : M A) (h : ref -> M A) : M A :=
  fun s => match m s with
           | (Raised x, s') => h x s'
           | r => r
           end.

Definition out_of_fuel {A} : M A := fun s => (OutOfFuel, s).

Notation "'let!' x ':=' m 'in' k" := (bind m (fun x => k))
  (at level 10, x pattern, m at level 100, k at level 200).
Notation "m1 ';;;' m2" := (bind m1 (fun _ => m2))
  (at level 100, m2 at level 200, right associativity).

(** [raise ty(a)]: the exception object is allocated, then raised. *)
Definition raise {A} (ty : string) (a : list value) : M A :=
  fun s => (Raised (length s), s ++ [OExc (Exc ty a None)]).

(** Allocation of a fresh object; the initialiser may mention the new
    reference ([self]). *)
Definition new (f : ref -> obj) : M ref :=
  fun s => (Ok (length s), s ++ [f (length s)]).

(** Reading attributes of [r] as an event: an object without them raises
    [AttributeError]. *)
Definition the_event (r : ref) : M event :=
  fun s => match s !! r with
           | Some (OEvent e) => (Ok e, s)
           | _ => raise "AttributeError" [] s
           end.

Definition the_env (r : ref) : M Environment :=
  fun s => match s !! r with
           | Some (OEnv E) => (Ok E, s)
           | _ => raise "AttributeError" [] s
           end.

(** An attribute assignment [r.attr = ...] on an event. *)
Definition update (r : ref) (f : event -> event) : M unit :=
  fun s => match s !! r with
           | Some (OEvent e) => (Ok tt, <[r := OEvent (f e)]> s)
           | _ => raise "AttributeError" [] s
           end.

Definition update_env (r : ref) (f : Environment -> Environment) : M unit :=
  fun s => match s !! r with
           | Some (OEnv E) => (Ok tt, <[r := OEnv (f E)]> s)
           | _ => raise "AttributeError" [] s
           end.

Definition set_callbacks (c : option (list callback)) (e : event) : event :=
  Event (env e) c (_value e) (ok e) (defused e) (variant_of e).
Definition set_value (v : option value) (e : event) : event :=
  Event (env e) (callbacks e) v (ok e) (defused e) (variant_of e).
(** [e.ok = o; e._value = v] *)
Definition set_outcome (o : bool) (v : option value) (e : event) : event :=
  Event (env e) (callbacks e) v (Some o) (defused e) (variant_of e).
(** [e.callbacks.append(...)], [e.callbacks.remove(...)]: an in-place change
    of the list, which must be there. *)
Definition on_callbacks (f : list callback -> list callback) (e : event) : event :=
  match callbacks e with
  | Some cbs => set_callbacks (Some (f cbs)) e
  | None => e
  end.
(** [e.ok = o] *)
Definition set_ok (o : bool) (e : event) : event :=
  Event (env e) (callbacks e) (_value e) (Some o) (defused e) (variant_of e).
Definition set_defused (d : bool) (e : event) : event :=
  Event (env e) (callbacks e) (_value e) (ok e) d (variant_of e).
Definition set_variant (v : variant) (e : event) : event :=
  Event (env e) (callbacks e) (_value e) (ok e) (defused e) v.

(** Assignments to the attributes of the subclasses. *)
Definition set_process (p : ref) (e : event) : event :=
  match variant_of e with
  | IsInterruption _ => set_variant (IsInterruption (Some p)) e
  | _ => e
  end.
Definition set_generator (g : option G) (e : event) : event :=
  match variant_of e with
  | IsProcess _ t => set_variant (IsProcess g t) e
  | _ => e
  end.
Definition set_target (t : option ref) (e : event) : event :=
  match variant_of e with
  | IsProcess g _ => set_variant (IsProcess g t) e
  | _ => e
  end.
Definition set_count (n : nat) (e : event) : event :=
  match variant_of e with
  | IsCondition evaluate events _ => set_variant (IsCondition evaluate events n) e
  | _ => e
  end.

Definition set_active_proc (p : option ref) (E : Environment) : Environment :=
  Env (_now E) p (_queue E) (_eid E).

(** [event.ok]: the attribute exists only once the event is triggered. *)
Definition attr_ok (e : event) : M bool :=
  match ok e with
  | Some b => ret b
  | None => raise "AttributeError" [VStr "ok"]
  end.

Definition triggered (e : event) : bool := bool_decide (_value e <> PENDING).
Definition processed (e : event) : bool := bool_decide (callbacks e = None).

(** [for x in l: body x] *)
Fixpoint for_each {A} (l : list A) (body : A -> M unit) : M unit :=
  match l with
  | [] => ret tt
  | x :: l' => body x ;;; for_each l' body
  end.

(** ** The environment *)

(** Modelled from the spec: [Environment.schedule] of [simpy/core.py]
    (section 4.1): the event is appended to the queue under the key
    [(now + delay, priority, insertion_id)]; the insertion counter grows. *)
Definition schedule (environment : ref) (event : ref) (priority : Z) (delay : Z) : M unit :=
  update_env environment (fun E =>
    Env (_now E) (_active_proc E)
        (_queue E ++ [((_now E + delay)%Z, priority, _eid E, event)])
        (S (_eid E))).

(** ** Messages

    The messages of the kernel are built with ['...%s...' % x], which calls
    [str(x)].  [py_repr] follows what these calls run through: for an event
    [Event.__repr__], which formats [self._desc()], the [_desc] of its class
    ([Timeout._desc] formats the value with [%], [Condition._desc] prints
    the list of sub-events); for an [Interrupt] its [__str__], which reads
    [self.cause]; for other exception objects what [BaseException] does with
    [args] (and [KeyError] with its one argument); for a list, tuple or
    dictionary the [repr] of the items, where Python prints a sequence that
    it is already printing as dots.  [str] of the argument is [true] for
    [str(v)] and [false] for [repr(v)]; [seen] holds the conditions and
    exceptions whose sequence is being printed. *)
Fixpoint py_repr (fuel : nat) (seen : list ref) (str : bool) (v : value) (s : state)
  : printed :=
  match fuel with
  | O => Fails "RecursionError" [VStr "maximum recursion depth exceeded"]
  | S fuel' =>
      match v with
      | VNone | VBool _ | VInt _ | VStr _ => Printed
      | VTuple l => print_all (fun w => py_repr fuel' seen false w s) l
      | VDict d =>
          print_all (fun kv =>
            match py_repr fuel' seen false (VRef kv.1) s with
            | Printed =>
                match kv.2 with
                | Some w => py_repr fuel' seen false w s
                | None => Printed
                end
            | e => e
            end) d
      | VRef r =>
          match s !! r with
          | Some (OEvent e) =>
              (* Event.__repr__: '<%s object at 0x%x>' % (self._desc(), id(self)) *)
              match variant_of e with
              | IsTimeout _ =>
                  (* '' if self._value is None else (', value=%s' % self._value) *)
                  match _value e with
                  | Some VNone => Printed
                  | Some w =>
                      match percent_operand w with
                      | inl w' => py_repr fuel' seen true w' s
                      | inr e => e
                      end
                  | None => Printed
                  end
              | IsCondition _ events _ =>
                  (* '%s(%s, %s)' % (..., self._evaluate.__name__, self._events) *)
                  if decide (r ∈ seen) then Printed
                  else print_all (fun r' => py_repr fuel' (r :: seen) false (VRef r') s) events
              | _ => Printed
              end
          | Some (OExc x) =>
              let args_tuple :=
                if decide (r ∈ seen) then Printed
                else print_all (fun w => py_repr fuel' (r :: seen) false w s) (args x) in
              if str then
                if decide (exc_type x = "Interrupt"%string) then
                  (* '%s(%r)' % (self.__class__.__name__, self.cause) *)
                  match args x with
                  | [] => Fails "IndexError" [VStr "tuple index out of range"]
                  | cause :: _ => py_repr fuel' seen false cause s
                  end
                else
                  match args x with
                  | [] => Printed
                  | [w] =>
                      py_repr fuel' seen
                              (negb (bool_decide (exc_type x = "KeyError"%string))) w s
                  | _ => args_tuple
                  end
              else args_tuple
          | _ => Printed
          end
      end
  end.

Arguments py_repr : simpl never.

(** ['...%s...' % v] *)
Definition percent (v : value) (s : state) : printed :=
  match percent_operand v with
  | inl w => py_repr recursion_limit [] true w s
  | inr e => e
  end.

(** The same as a statement: the message is built, or what building it
    raises is raised there. *)
Definition percent_s (v : value) : M unit :=
  fun s => match percent v s with
           | Printed => (Ok tt, s)
           | Fails ty a => raise ty a s
           end.

(** ** class Event *)

Definition Event__init__ (env : ref) : M ref :=
  new (fun _ => OEvent (Event env (Some []) PENDING None false IsEvent)).

Definition Event_value (self : ref) : M value :=
  let! e := the_event self in
  match _value e with
  | None =>
      percent_s (VRef self) ;;;
      raise "AttributeError" [VStr "Value is not yet available"]
  | Some v => ret v
  end.

Definition Event_trigger (self event : ref) : M unit :=
  let! e := the_event event in
  let! o := attr_ok e in
  update self (set_outcome o (_value e)) ;;;
  let! me := the_event self in
  schedule (env me) self NORMAL 0.

Definition Event_succeed (self : ref) (value : value) : M ref :=
  let! me := the_event self in
  if triggered me then
    percent_s (VRef self) ;;;
    raise "RuntimeError" [VStr "has already been triggered"]
  else
    update self (set_outcome true (Some value)) ;;;
    schedule (env me) self NORMAL 0 ;;;
    ret self.

(** [isinstance(v, BaseException)] *)
Definition is_exception (v : value) : M bool :=
  fun s => match v with
           | VRef r => match s !! r with
                       | Some (OExc _) => (Ok true, s)
                       | _ => (Ok false, s)
                       end
           | _ => (Ok false, s)
           end.

Definition Event_fail (self : ref) (exception : value) : M ref :=
  let! me := the_event self in
  if triggered me then
    percent_s (VRef self) ;;;
    raise "RuntimeError" [VStr "has already been triggered"]
  else
    let! b := is_exception exception in
    if negb b then
      percent_s exception ;;;
      raise "ValueError" [VStr "is not an exception."]
    else
      update self (set_outcome false (Some exception)) ;;;
      schedule (env me) self NORMAL 0 ;;;
      ret self.

(** ** class Timeout *)

Definition Timeout__init__ (env : ref) (delay : Z) (value : value) : M ref :=
  if (delay <? 0)%Z then raise "ValueError" [VStr "Negative delay"; VInt delay]
  else
    let! self := new (fun _ =>
      OEvent (Event env (Some []) (Some value) (Some true) false (IsTimeout delay))) in
    schedule env self NORMAL delay ;;;
    ret self.

(** ** class Initialize *)

Definition Initialize__init__ (env : ref) (process : ref) : M ref :=
  let! self := new (fun _ =>
    OEvent (Event env (Some [cb_resume process]) (Some VNone) (Some true) false IsInitialize)) in
  schedule env self URGENT 0 ;;;
  ret self.

(** ** class Interruption *)

Definition Interruption__init__ (process : ref) (cause : value) : M ref :=
  let! p := the_event process in
  let! x := new (fun _ => OExc (Exc "Interrupt" [cause] None)) in
  let! self := new (fun self =>
    OEvent (Event (env p) (Some [cb_interrupt self]) (Some (VRef x)) (Some false) true
                  (IsInterruption None))) in
  let! p := the_event process in
  if triggered p then
    raise "RuntimeError" [VStr "has terminated and cannot be interrupted."]
  else
    let! E := the_env (env p) in
    if decide (_active_proc E = Some process) then
      raise "RuntimeError" [VStr "A process is not allowed to interrupt itself."]
    else
      update self (set_process process) ;;;
      schedule (env p) self URGENT 0 ;;;
      ret self.

(** ** class Process: construction and [interrupt] *)

Definition Process__init__ (env : ref) (generator : generator_arg) : M ref :=
  match generator with
  | not_a_generator v =>
      percent_s v ;;;
      raise "ValueError" [VStr "is not a generator."]
  | a_generator g =>
      let! self := new (fun _ =>
        OEvent (Event env (Some []) PENDING None false (IsProcess (Some g) None))) in
      let! i := Initialize__init__ env self in
      update self (set_target (Some i)) ;;;
      ret self
  end.

Definition Process_interrupt (self : ref) (cause : value) : M unit :=
  Interruption__init__ self cause ;;; ret tt.

Definition Process_is_alive (self : ref) : M bool :=
  let! me := the_event self in ret (negb (triggered me)).

Definition Process_target (self : ref) : M (option ref) :=
  let! me := the_event self in
  match variant_of me with
  | IsProcess _ t => ret t
  | _ => raise "AttributeError" [VStr "_target"]
  end.

(** ** class Condition *)

Definition is_Condition (e : event) : bool :=
  match variant_of e with IsCondition _ _ _ => true | _ => false end.

Definition Condition__check (self event : ref) : M unit :=
  let! me := the_event self in
  if triggered me then ret tt
  else
    match variant_of me with
    | IsCondition evaluate events count =>
        update self (set_count (count + 1)) ;;;
        let! e := the_event event in
        let! o := attr_ok e in
        if negb o then
          (* Abort if the event has failed. *)
          update event (set_defused true) ;;;
          let! e := the_event event in
          match _value e with
          | Some v => Event_fail self v ;;; ret tt
          | None => raise "ValueError" [VStr "is not an exception."]
          end
        else if evaluate events (count + 1) then
          Event_succeed self VNone ;;; ret tt
        else ret tt
    | _ => raise "AttributeError" [VStr "_count"]
    end.

Definition Condition__init__ (env : ref) (evaluate : list ref -> nat -> bool)
    (events : list ref) : M ref :=
  let! self := new (fun _ =>
    OEvent (Event env (Some []) PENDING None false (IsCondition evaluate events 0))) in
  (* Check if events belong to the same environment. *)
  for_each events (fun event =>
    let! e := the_event event in
    if decide (env <> Kernel.env e) then
      raise "ValueError" [VStr "It is not allowed to mix events from different environments"]
    else ret tt) ;;;
  (* Check if the condition is met for each processed event. Attach
     _check() as a callback otherwise. *)
  for_each events (fun event =>
    let! e := the_event event in
    match callbacks e with
    | None => Condition__check self event
    | Some _ => update event (on_callbacks (fun cbs => cbs ++ [cb_check self]))
    end) ;;;
  let! me := the_event self in
  match callbacks me with
  | Some _ =>
      update self (on_callbacks (fun cbs => cbs ++ [cb_collect_values self])) ;;;
      ret self
  | None => raise "AttributeError" [VStr "append"]
  end.

(** [Event.__and__] and [Event.__or__] *)
Definition Event__and__ (self other : ref) : M ref :=
  let! me := the_event self in
  Condition__init__ (env me) all_events [self; other].

Definition Event__or__ (self other : ref) : M ref :=
  let! me := the_event self in
  Condition__init__ (env me) any_events [self; other].

Definition AllOf__init__ (env : ref) (events : list ref) : M ref :=
  Condition__init__ env all_events events.

Definition AnyOf__init__ (env : ref) (events : list ref) : M ref :=
  Condition__init__ env any_events events.

(** [_get_values] recurses through nested conditions; the recursion depth is
    bounded by [fuel]. *)
Fixpoint Condition__get_values (fuel : nat) (self : ref)
  : M (list (ref * option value)) :=
  match fuel with
  | O => out_of_fuel
  | S fuel' =>
      let! me := the_event self in
      match variant_of me with
      | IsCondition _ events _ =>
          (fix loop (events : list ref) (values : list (ref * option value)) :=
             match events with
             | [] => ret values
             | event :: events' =>
                 let! e := the_event event in
                 if is_Condition e then
                   let! d := Condition__get_values fuel' event in
                   loop events' (od_update values d)
                 else if processed e then
                   loop events' (od_set event (_value e) values)
                 else loop events' values
             end) events []
      | _ => raise "AttributeError" [VStr "_events"]
      end
  end.

Definition Condition__collect_values (fuel : nat) (self event : ref) : M unit :=
  let! e := the_event event in
  let! o := attr_ok e in
  if o then
    update self (set_value (Some (VDict []))) ;;;
    let! d := Condition__get_values fuel self in
    update self (fun me =>
      match _value me with
      | Some (VDict d0) => set_value (Some (VDict (od_update d0 d))) me
      | _ => me
      end)
  else ret tt.

(** ** class Interrupt *)

(** The property [cause]: [self.args[0]]. *)
Definition Interrupt_cause (self : ref) : M value :=
  fun s => match s !! self with
           | Some (OExc x) =>
               match args x with
               | v :: _ => (Ok v, s)
               | [] => raise "IndexError" [VStr "tuple index out of range"] s
               end
           | _ => raise "AttributeError" [VStr "args"] s
           end.

(** ** Running a generator *)

(** A call that the body of a generator makes into the kernel. *)
Definition call (o : op) : M value :=
  match o with
  | op_Event env => let! e := Event__init__ env in ret (VRef e)
  | op_Timeout env delay v => let! e := Timeout__init__ env delay v in ret (VRef e)
  | op_Process env generator => let! p := Process__init__ env generator in ret (VRef p)
  | op_Condition env evaluate events =>
      let! c := Condition__init__ env evaluate events in ret (VRef c)
  | op_succeed e v => let! e := Event_succeed e v in ret (VRef e)
  | op_fail e x => let! e := Event_fail e x in ret (VRef e)
  | op_trigger e other => Event_trigger e other ;;; ret VNone
  | op_append_trigger e other =>
      let! o := the_event other in
      match callbacks o with
      | Some _ => update other (on_callbacks (fun cbs => cbs ++ [cb_trigger e])) ;;; ret VNone
      | None => raise "AttributeError" [VStr "append"]
      end
  | op_interrupt p cause =>
      let! e := the_event p in
      match variant_of e with
      | IsProcess _ _ => Process_interrupt p cause ;;; ret VNone
      | _ => raise "AttributeError" [VStr "interrupt"]
      end
  | op_value e => Event_value e
  | op_triggered e => let! e := the_event e in ret (VBool (triggered e))
  | op_processed e => let! e := the_event e in ret (VBool (processed e))
  | op_is_alive p =>
      let! e := the_event p in
      match variant_of e with
      | IsProcess _ _ => let! b := Process_is_alive p in ret (VBool b)
      | _ => raise "AttributeError" [VStr "is_alive"]
      end
  | op_target p =>
      let! t := Process_target p in
      ret (match t with Some r => VRef r | None => VNone end)
  | op_exception ty a => let! x := new (fun _ => OExc (Exc ty a None)) in ret (VRef x)
  | op_now env => let! E := the_env env in ret (VInt (_now E))
  end.

(** [raise x] *)
Definition raise_value {A} (x : value) : M A :=
  let! b := is_exception x in
  match x with
  | VRef r => if b then (fun s => (Raised r, s))
              else raise "TypeError" [VStr "exceptions must derive from BaseException"]
  | _ => raise "TypeError" [VStr "exceptions must derive from BaseException"]
  end.

(** The body runs up to its next suspension.  [Ok (v, g)] is [yield v] with
    the generator suspended in [g]; a return is the [StopIteration] it
    raises. *)
Fixpoint run_segment (c : segment) : M (value * G) :=
  match c with
  | SYield v g => ret (v, g)
  | SReturn a => raise "StopIteration" a
  | SRaise x => raise_value x
  | SCall o k => fun s => let (r, s') := call o s in run_segment (k r) s'
  end.

(** Runs the generator of [self] through one segment and stores the state it
    is suspended in; a generator that returned or raised is exhausted. *)
Definition advance (self : ref) (c : segment) : M value :=
  fun s => match run_segment c s with
           | (Ok (v, g), s') => (update self (set_generator (Some g)) ;;; ret v) s'
           | (Raised x, s') =>
               (update self (set_generator None) ;;; (fun s => (Raised x, s))) s'
           | (OutOfFuel, s') => (OutOfFuel, s')
           end.

(** [self._generator.send(v)] *)
Definition generator_send (self : ref) (v : option value) : M value :=
  let! me := the_event self in
  match variant_of me with
  | IsProcess (Some g) _ => advance self (send g v)
  | IsProcess None _ => raise "StopIteration" []
  | _ => raise "AttributeError" [VStr "_generator"]
  end.

(** [self._generator.throw(v)] *)
Definition generator_throw (self : ref) (v : option value) : M value :=
  let! me := the_event self in
  match variant_of me with
  | IsProcess gen _ =>
      let! b := match v with Some x => is_exception x | None => ret false end in
      match v, b with
      | Some (VRef x), true =>
          match gen with
          | Some g => advance self (throw g x)
          | None => fun s => (Raised x, s)
          end
      | _, _ => raise "TypeError" [VStr "exceptions must derive from BaseException"]
      end
  | _ => raise "AttributeError" [VStr "_generator"]
  end.

(** ** class Process: [_resume] *)

(** The first [try] block of the loop: the outcome of [event] is delivered
    to the generator, which runs to its next [yield]. *)
Definition deliver (self : ref) (event : value) : M value :=
  match event with
  | VRef r =>
      let! e := the_event r in
      let! o := attr_ok e in
      if o then generator_send self (_value e)
      else
        (* The process has no choice but to handle the failed event
           (or fail itself). *)
        update r (set_defused true) ;;;
        let! e := the_event r in
        generator_throw self (_value e)
  | _ => raise "AttributeError" [VStr "ok"]
  end.

(** Its two [except] clauses, for the exception object [x]. *)
Definition terminate (self : ref) (x : ref) : M unit :=
  fun s =>
    match s !! x with
    | Some (OExc e) =>
        if decide (exc_type e = "StopIteration"%string) then
          (* Process has terminated. *)
          (update self (set_outcome true (Some (hd VNone (args e)))) ;;;
           let! me := the_event self in
           schedule (env me) self NORMAL 0) s
        else
          (* Process has failed. *)
          (update self (set_ok false) ;;;
           (* self._value = type(e)( *e.args); self._value.__cause__ = e *)
           match construct (exc_type e) (args e) with
           | Built a =>
               let! v := new (fun _ => OExc (Exc (exc_type e) a (Some x))) in
               update self (set_value (Some (VRef v))) ;;;
               let! me := the_event self in
               schedule (env me) self NORMAL 0
           | Refused ty a => raise ty a
           end) s
    | _ => (Raised x, s)
    end.

(** The [except AttributeError] clause at the end of the loop, for a yielded
    [event] without [callbacks]: the message is formatted, the frame of the
    generator described, and [RuntimeError] raised. *)
Definition invalid_yield {A} (self : ref) (event : value) : M A :=
  percent_s event ;;;
  let! me := the_event self in
  match variant_of me with
  | IsProcess (Some g) _ =>
      match _describe_frame g with
      | Printed => raise "RuntimeError" [VStr "Invalid yield value"]
      | Fails ty a => raise ty a
      end
  | _ => raise "AttributeError" [VStr "gi_frame"]
  end.

(** The [while True] loop of [_resume].  It gives the value the Python
    variable [event] has after the loop: [None] when the generator
    terminated, the event yielded otherwise. *)
Fixpoint resume_loop (fuel : nat) (self : ref) (event : value) : M (option ref) :=
  match fuel with
  | O => out_of_fuel
  | S fuel' =>
      (* Get next event from process *)
      let! next :=
        try_except (let! v := deliver self event in ret (Some v))
                   (fun x => terminate self x ;;; ret None) in
      match next with
      | None => ret None
      | Some v =>
          (* Process returned another event to wait upon. *)
          match v with
          | VRef r =>
              fun s =>
                match s !! r with
                | Some (OEvent e) =>
                    match callbacks e with
                    | Some _ =>
                        (update r (on_callbacks (fun cbs => cbs ++ [cb_resume self])) ;;;
                         ret (Some r)) s
                    | None => resume_loop fuel' self v s
                    end
                | _ => invalid_yield self v s
                end
          | _ => invalid_yield self v
          end
      end
  end.

Definition Process__resume (fuel : nat) (self event : ref) : M unit :=
  let! me := the_event self in
  (* Mark the current process as active. *)
  update_env (env me) (set_active_proc (Some self)) ;;;
  let! event := resume_loop fuel self (VRef event) in
  update self (set_target event) ;;;
  let! me := the_event self in
  update_env (env me) (set_active_proc None).

(** ** class Interruption: [_interrupt] *)

Definition Interruption__interrupt (fuel : nat) (self event : ref) : M unit :=
  let! me := the_event self in
  match variant_of me with
  | IsInterruption (Some process) =>
      let! p := the_event process in
      if triggered p then ret tt
      else
        let! target := Process_target process in
        match target with
        | Some target =>
            let! t := the_event target in
            match callbacks t with
            | Some cbs =>
                if decide (cb_resume process ∈ cbs) then
                  update target (on_callbacks (list_remove (cb_resume process))) ;;;
                  Process__resume fuel process self
                else raise "ValueError" [VStr "list.remove(x): x not in list"]
            | None => raise "AttributeError" [VStr "remove"]
            end
        | None => raise "AttributeError" [VStr "callbacks"]
        end
  | _ => raise "AttributeError" [VStr "process"]
  end.

(** ** Dispatch *)

(** Calling a callback with the event being processed. *)
Definition invoke (fuel : nat) (cb : callback) (event : ref) : M unit :=
  match cb with
  | cb_resume p => Process__resume fuel p event
  | cb_interrupt i => Interruption__interrupt fuel i event
  | cb_check c => Condition__check c event
  | cb_collect_values c => Condition__collect_values fuel c event
  | cb_trigger e => Event_trigger e event
  end.

(** Modelled from the spec: [Environment.step] of [simpy/core.py] (sections
    4.1 and 4.2): pop the earliest event and move the clock to its time, take
    the callbacks and mark the event processed, call them in order, and
    raise the error of a failed event that nobody defused. *)
Definition step (fuel : nat) (environment : ref) : M unit :=
  let! E := the_env environment in
  match heappop (_queue E) with
  | None => raise "EmptySchedule" []
  | Some ((t, _, _, event), rest) =>
      update_env environment (fun E => Env t (_active_proc E) rest (_eid E)) ;;;
      let! e := the_event event in
      update event (set_callbacks None) ;;;
      match callbacks e with
      | None => raise "TypeError" [VStr "'NoneType' object is not iterable"]
      | Some cbs =>
          for_each cbs (fun cb => invoke fuel cb event) ;;;
          let! e := the_event event in
          let! o := attr_ok e in
          if negb o && negb (defused e) then
            match _value e with
            | Some v => raise_value v
            | None => raise "TypeError" [VStr "exceptions must derive from BaseException"]
            end
          else ret tt
      end
  end.

(** Modelled from the spec: [n] steps of the scheduler. *)
Fixpoint steps (fuel : nat) (n : nat) (environment : ref) : M unit :=
  match n with
  | O => ret tt
  | S n' => step fuel environment ;;; steps fuel n' environment
  end.

(** ** The value of a condition, in the words of the specification *)

Definition value_of (s : state) (r : ref) : option value :=
  match s !! r with
  | Some (OEvent e) => _value e
  | _ => PENDING
  end.

Definition is_processed (s : state) (r : ref) : bool :=
  match s !! r with
  | Some (OEvent e) => processed e
  | _ => false
  end.

(** The sub-events of [r] when [r] is a condition. *)
Definition sub_events (s : state) (r : ref) : option (list ref) :=
  match s !! r with
  | Some (OEvent e) =>
      match variant_of e with
      | IsCondition _ events _ => Some events
      | _ => None
      end
  | _ => None
  end.

(** The sub-events in the order of the list, each condition among them
    replaced by its own flattened sub-events ("nesting is transparent"),
    down to [depth] levels of nesting. *)
Fixpoint flattened (depth : nat) (s : state) (events : list ref) : list ref :=
  flat_map (fun r =>
    match sub_events s r with
    | Some events' =>
        match depth with
        | O => []
        | S d => flattened d s events'
        end
    | None => [r]
    end) events.

(** The same without a bound, as a relation: [r] is a sub-event that is not
    a condition, of the list or of a condition nested in it. *)
Inductive sub_event_of (s : state) : list ref -> ref -> Prop :=
| sub_event_here events r :
    r ∈ events -> sub_events s r = None -> sub_event_of s events r
| sub_event_nested events c events' r :
    c ∈ events -> sub_events s c = Some events' -> sub_event_of s events' r ->
    sub_event_of s events r.

(** The mapping, in insertion order, from each of these sub-events that is
    processed to its value. *)
Definition collected (depth : nat) (s : state) (events : list ref)
  : list (ref * option value) :=
  map (fun r => (r, value_of s r))
      (distinct (filter (fun r => is_processed s r = true) (flattened depth s events))).

(** Python builds the list of sub-events before it constructs the condition
    over it: the sub-events of a condition are events that were allocated
    before it. *)
Definition ordered (s : state) : Prop :=
  forall r events, sub_events s r = Some events ->
    Forall (fun r' => r' < r /\ exists e', s !! r' = Some (OEvent e')) events.

(** ** Words for the further properties *)

(** [v] is an event object (it has [callbacks]). *)
Definition is_event (s : state) (v : value) : bool :=
  match v with
  | VRef r => match s !! r with Some (OEvent _) => true | _ => false end
  | _ => false
  end.

(** What the methods of [events.py] may do to an environment: the clock
    stands, entries are only added at the end of the queue, the insertion
    counter does not go back. *)
Definition grows (E E' : Environment) : Prop :=
  _now E' = _now E /\ _queue E `prefix_of` _queue E' /\ _eid E <= _eid E'.

(** The same, and the active process stays. *)
Definition calm (E E' : Environment) : Prop :=
  grows E E' /\ _active_proc E' = _active_proc E.

(** The count at which a pending condition that stands at [count] is met in
    the course of [k] further successful checks, if it is. *)
Fixpoint first_met (evaluate : list ref -> nat -> bool) (events : list ref)
    (count k : nat) : option nat :=
  match k with
  | 0 => None
  | S k' => if evaluate events (count + 1) then Some (count + 1)
            else first_met evaluate events (count + 1) k'
  end.

(** The exception that [raise ty(msg % v)] raises in the store [s]: an
    instance of [ty], unless building the message raises. *)
Definition raised_with (ty : string) (a : list value) (v : value) (s : state) : exc :=
  match percent v s with
  | Printed => Exc ty a None
  | Fails ty' a' => Exc ty' a' None
  end.

(** ** Sequences of kernel operations *)

(** What can happen to the store from outside a method: a call of the
    interface, a callback invoked on an event, a step of the scheduler. *)
Inductive operation :=
| by_call (o : op)
| by_callback (fuel : nat) (cb : callback) (event : ref)
| by_step (fuel : nat) (environment : ref).

Definition perform (a : operation) (s : state) : state :=
  match a with
  | by_call o => (call o s).2
  | by_callback fuel cb event => (invoke fuel cb event s).2
  | by_step fuel environment => (step fuel environment s).2
  end.

Definition perform_all (l : list operation) (s : state) : state :=
  foldl (fun s a => perform a s) s l.

(** * Properties *)

(** ** How the store evolves *)

(** An object never changes its class, nor a condition its [evaluate] and
    its list of sub-events. *)
Definition same_class (v v' : variant) : Prop :=
  match v, v' with
  | IsEvent, IsEvent => True
  | IsTimeout d, IsTimeout d' => d = d'
  | IsInitialize, IsInitialize => True
  | IsInterruption _, IsInterruption _ => True
  | IsProcess _ _, IsProcess _ _ => True
  | IsCondition evaluate events _, IsCondition evaluate' events' _ =>
      evaluate = evaluate' /\ events = events'
  | _, _ => False
  end.

(** What never goes back on an event: its environment and class stay, a
    defused event stays defused, a processed event stays processed, an [ok]
    that is set stays set. *)
Definition event_le (e e' : event) : Prop :=
  env e' = env e /\
  (defused e = true -> defused e' = true) /\
  (callbacks e = None -> callbacks e' = None) /\
  (is_Some (ok e) -> is_Some (ok e')) /\
  same_class (variant_of e) (variant_of e').

Definition obj_le (o o' : obj) : Prop :=
  match o, o' with
  | OEvent e, OEvent e' => event_le e e'
  | OExc x, OExc x' => x = x'
  | OEnv _, OEnv _ => True
  | _, _ => False
  end.

(** Every object stays where it is and remains of its sort. *)
Definition extends (s s' : state) : Prop :=
  forall r o, s !! r = Some o -> exists o', s' !! r = Some o' /\ obj_le o o'.

(** The invariant that relates [ok] and [_value]: an event that has [ok] has
    a value. *)
Definition wf_event (e : event) : Prop := is_Some (ok e) -> _value e <> PENDING.

Definition wf (s : state) : Prop :=
  forall r e, s !! r = Some (OEvent e) -> wf_event e.

(** A triggered event stays triggered. *)
Definition stays_triggered (s s' : state) : Prop :=
  forall r e, s !! r = Some (OEvent e) -> _value e <> PENDING ->
    exists e', s' !! r = Some (OEvent e') /\ _value e' <> PENDING.

(** Every exception class of the program takes the [args] of its instances:
    [type(e)( *e.args)] returns. *)
Definition accepting : Prop := forall ty a, exists a', construct ty a = Built a'.

(** The invariant is kept as long as rebuilding an exception does not
    raise. *)
Definition evolves (s s' : state) : Prop :=
  extends s s' /\ (accepting -> wf s -> wf s' /\ stays_triggered s s').

(** A computation is sound when the store evolves along it, whatever it
    returns or raises. *)
Definition sound {A} (m : M A) : Prop := forall s, evolves s (m s).2.

Lemma same_class_refl v : same_class v v.
Proof. by destruct v. Qed.

Lemma same_class_trans v1 v2 v3 : same_class v1 v2 -> same_class v2 v3 -> same_class v1 v3.
Proof.
  destruct v1, v2, v3; simpl; try tauto; try congruence.
  intros [-> ->] [-> ->]. done.
Qed.

Lemma event_le_refl e : event_le e e.
Proof. repeat split; auto using same_class_refl. Qed.

Lemma event_le_trans e1 e2 e3 : event_le e1 e2 -> event_le e2 e3 -> event_le e1 e3.
Proof.
  intros (H1 & H2 & H3 & H4 & H5) (K1 & K2 & K3 & K4 & K5).
  repeat split; [congruence | auto .. | eauto using same_class_trans].
Qed.

Lemma obj_le_refl o : obj_le o o.
Proof. destruct o; simpl; auto using event_le_refl. Qed.

Lemma obj_le_trans o1 o2 o3 : obj_le o1 o2 -> obj_le o2 o3 -> obj_le o1 o3.
Proof.
  destruct o1, o2, o3; simpl; try tauto; try congruence.
  apply event_le_trans.
Qed.

Lemma extends_refl s : extends s s.
Proof. intros r o H. exists o. auto using obj_le_refl. Qed.

Lemma extends_trans s1 s2 s3 : extends s1 s2 -> extends s2 s3 -> extends s1 s3.
Proof.
  intros H1 H2 r o H. destruct (H1 _ _ H) as (o' & H' & L).
  destruct (H2 _ _ H') as (o'' & H'' & L'). eauto using obj_le_trans.
Qed.

Lemma evolves_refl s : evolves s s.
Proof.
  split; [apply extends_refl |]. intros A W. split; [done |].
  intros r e H T. eauto.
Qed.

Lemma evolves_trans s1 s2 s3 : evolves s1 s2 -> evolves s2 s3 -> evolves s1 s3.
Proof.
  intros [E1 W1] [E2 W2]. split; [eauto using extends_trans |].
  intros A W. destruct (W1 A W) as [W' T1]. destruct (W2 A W') as [W'' T2].
  split; [done |]. intros r e H T.
  destruct (T1 _ _ H T) as (e' & H' & T'). eauto.
Qed.

Lemma evolves_alloc s o :
  match o with OEvent e => wf_event e | _ => True end -> evolves s (s ++ [o]).
Proof.
  intros Ho. split.
  - intros r o' H. exists o'. split; [by apply lookup_app_l_Some | apply obj_le_refl].
  - intros _ W. split.
    + intros r e H. apply lookup_app_Some in H as [H | [_ H]]; [eauto |].
      destruct (r - length s) as [| n]; simpl in H; [| by destruct n].
      by simplify_eq.
    + intros r e H T. exists e. split; [by apply lookup_app_l_Some | done].
Qed.

Lemma evolves_insert_event s r e e' :
  s !! r = Some (OEvent e) -> event_le e e' ->
  (wf s -> wf_event e' /\ (_value e <> PENDING -> _value e' <> PENDING)) ->
  evolves s (<[r := OEvent e']> s).
Proof.
  intros H L K. pose proof (lookup_lt_Some _ _ _ H) as Hr. split.
  - intros r0 o H0. destruct (decide (r = r0)) as [-> | Hne].
    + rewrite list_lookup_insert_eq by done. exists (OEvent e'). by simplify_eq.
    + rewrite list_lookup_insert_ne by done. eauto using obj_le_refl.
  - intros _ W. destruct (K W) as [K1 K2]. split.
    + intros r0 e0 H0. destruct (decide (r = r0)) as [-> | Hne].
      * rewrite list_lookup_insert_eq in H0 by done. by simplify_eq.
      * rewrite list_lookup_insert_ne in H0 by done. eauto.
    + intros r0 e0 H0 T. destruct (decide (r = r0)) as [-> | Hne].
      * rewrite list_lookup_insert_eq by done. simplify_eq. eauto.
      * rewrite list_lookup_insert_ne by done. eauto.
Qed.

Lemma evolves_insert_env s r E E' :
  s !! r = Some (OEnv E) -> evolves s (<[r := OEnv E']> s).
Proof.
  intros H. pose proof (lookup_lt_Some _ _ _ H) as Hr. split.
  - intros r0 o H0. destruct (decide (r = r0)) as [-> | Hne].
    + rewrite list_lookup_insert_eq by done. exists (OEnv E'). by simplify_eq.
    + rewrite list_lookup_insert_ne by done. eauto using obj_le_refl.
  - intros _ W. split.
    + intros r0 e0 H0. destruct (decide (r = r0)) as [-> | Hne].
      * rewrite list_lookup_insert_eq in H0 by done. by simplify_eq.
      * rewrite list_lookup_insert_ne in H0 by done. eauto.
    + intros r0 e0 H0 T. destruct (decide (r = r0)) as [-> | Hne]; [congruence |].
      rewrite list_lookup_insert_ne by done. eauto.
Qed.

(** *** The monad and the primitives *)

Lemma sound_ret {A} (a : A) : sound (ret a).
Proof. intros s. apply evolves_refl. Qed.

Lemma sound_bind {A B} (m : M A) (k : A -> M B) :
  sound m -> (forall a, sound (k a)) -> sound (bind m k).
Proof.
  intros Hm Hk s. unfold bind. specialize (Hm s).
  destruct (m s) as [[a | x |] s']; simpl in *; [| done ..].
  eapply evolves_trans; [done | apply Hk].
Qed.

Lemma sound_try_except {A} (m : M A) (h : ref -> M A) :
  sound m -> (forall x, sound (h x)) -> sound (try_except m h).
Proof.
  intros Hm Hh s. unfold try_except. specialize (Hm s).
  destruct (m s) as [[a | x |] s']; simpl in *; [done | | done].
  eapply evolves_trans; [done | apply Hh].
Qed.

Lemma sound_out_of_fuel {A} : sound (@out_of_fuel A).
Proof. intros s. apply evolves_refl. Qed.

Lemma sound_raise {A} ty a : sound (@raise A ty a).
Proof. intros s. by apply evolves_alloc. Qed.

Lemma sound_new f :
  (forall r, match f r with OEvent e => wf_event e | _ => True end) -> sound (new f).
Proof. intros Hf s. apply evolves_alloc, Hf. Qed.

Lemma sound_the_event r : sound (the_event r).
Proof.
  intros s. unfold the_event.
  destruct (s !! r) as [[] |]; try apply sound_raise. apply evolves_refl.
Qed.

Lemma sound_the_env r : sound (the_env r).
Proof.
  intros s. unfold the_env.
  destruct (s !! r) as [[] |]; try apply sound_raise. apply evolves_refl.
Qed.

Lemma sound_attr_ok e : sound (attr_ok e).
Proof. unfold attr_ok. destruct (ok e); [apply sound_ret | apply sound_raise]. Qed.

Lemma sound_percent_s v : sound (percent_s v).
Proof.
  intros s. unfold percent_s. destruct (percent v s); [apply evolves_refl | apply sound_raise].
Qed.

Lemma sound_is_exception v : sound (is_exception v).
Proof.
  intros s. unfold is_exception.
  destruct v; try apply evolves_refl. destruct (s !! r) as [[] |]; apply evolves_refl.
Qed.

(** An assignment is steady when it keeps what [event_le] orders, the
    invariant and the value of a triggered event. *)
Definition steady (f : event -> event) : Prop :=
  forall e, event_le e (f e) /\ (wf_event e -> wf_event (f e)) /\
            (_value e <> PENDING -> _value (f e) <> PENDING).

Lemma sound_update r f : steady f -> sound (update r f).
Proof.
  intros Hf s. unfold update.
  destruct (s !! r) as [[e | |] |] eqn:H; try apply sound_raise.
  destruct (Hf e) as (L & W & T). eapply evolves_insert_event; eauto.
Qed.

Lemma sound_update_env r f : sound (update_env r f).
Proof.
  intros s. unfold update_env.
  destruct (s !! r) as [[| | E] |] eqn:H; try apply sound_raise.
  eapply evolves_insert_env; eauto.
Qed.

Lemma sound_for_each {A} (l : list A) (body : A -> M unit) :
  (forall x, sound (body x)) -> sound (for_each l body).
Proof.
  intros Hb. induction l as [| x l IH]; simpl; [apply sound_ret |].
  apply sound_bind; auto.
Qed.

Lemma steady_set_outcome o v : steady (set_outcome o (Some v)).
Proof. intros e. unfold event_le, wf_event. simpl. repeat split; eauto using same_class_refl. Qed.

Lemma steady_set_value v : steady (set_value (Some v)).
Proof. intros e. unfold event_le, wf_event. simpl. repeat split; eauto using same_class_refl. Qed.

Lemma steady_set_defused : steady (set_defused true).
Proof. intros e. unfold event_le, wf_event. simpl. repeat split; eauto using same_class_refl. Qed.

Lemma steady_set_callbacks_None : steady (set_callbacks None).
Proof. intros e. unfold event_le, wf_event. simpl. repeat split; eauto using same_class_refl. Qed.

Lemma steady_on_callbacks f : steady (on_callbacks f).
Proof.
  intros e. unfold on_callbacks, event_le, wf_event.
  destruct (callbacks e) eqn:H; simpl; repeat split; auto using same_class_refl; congruence.
Qed.

Lemma steady_set_process p : steady (set_process p).
Proof.
  intros e. unfold set_process, event_le, wf_event.
  destruct (variant_of e) eqn:Hv; simpl; rewrite ?Hv; repeat split; auto.
Qed.

Lemma steady_set_generator g : steady (set_generator g).
Proof.
  intros e. unfold set_generator, event_le, wf_event.
  destruct (variant_of e) eqn:Hv; simpl; rewrite ?Hv; repeat split; auto.
Qed.

Lemma steady_set_target t : steady (set_target t).
Proof.
  intros e. unfold set_target, event_le, wf_event.
  destruct (variant_of e) eqn:Hv; simpl; rewrite ?Hv; repeat split; auto.
Qed.

Lemma steady_set_count n : steady (set_count n).
Proof.
  intros e. unfold set_count, event_le, wf_event.
  destruct (variant_of e) eqn:Hv; simpl; rewrite ?Hv; repeat split; auto.
Qed.

Create HintDb sound discriminated.

#[local] Hint Resolve sound_ret sound_out_of_fuel sound_raise sound_the_event
  sound_the_env sound_attr_ok sound_percent_s sound_is_exception sound_update sound_update_env
  steady_set_outcome steady_set_value steady_set_defused steady_set_callbacks_None
  steady_on_callbacks steady_set_process steady_set_generator steady_set_target
  steady_set_count : sound.

(** Splits a computation along its structure, down to the primitives. *)
Ltac sound_step :=
  match goal with
  | |- sound (bind _ _) => apply sound_bind; [| intros ?]
  | |- sound (try_except _ _) => apply sound_try_except; [| intros ?]
  | |- sound (for_each _ _) => apply sound_for_each; intros ?
  | |- sound (new _) => apply sound_new; intros ?; simpl; try done
  | |- sound (match ?x with _ => _ end) => destruct x
  | |- sound (if ?b then _ else _) => destruct b
  | |- sound _ => solve [auto with sound]
  end.
Ltac sound_tac := repeat sound_step.

(** *** The kernel *)

Lemma sound_schedule environment event priority delay :
  sound (schedule environment event priority delay).
Proof. unfold schedule. sound_tac. Qed.

Lemma sound_Event__init__ env0 : sound (Event__init__ env0).
Proof. unfold Event__init__. sound_tac. by intros []. Qed.

(** The same along one run: once the store has evolved from [s0] to the end
    of [m], it has evolved to the end of what follows [m]. *)
Lemma evolves_bind {A B} (m : M A) (k : A -> M B) s0 s :
  evolves s0 (m s).2 -> (forall a, sound (k a)) -> evolves s0 (bind m k s).2.
Proof.
  intros Hm Hk. unfold bind.
  destruct (m s) as [[a | x |] s']; simpl in *; [| done ..].
  eapply evolves_trans; [done | apply Hk].
Qed.

Lemma evolves_try_except {A} (m : M A) (h : ref -> M A) s0 s :
  evolves s0 (m s).2 -> (forall x, sound (h x)) -> evolves s0 (try_except m h s).2.
Proof.
  intros Hm Hh. unfold try_except.
  destruct (m s) as [[a | x |] s']; simpl in *; [done | | done].
  eapply evolves_trans; [done | apply Hh].
Qed.

#[local] Hint Resolve sound_schedule sound_Event__init__ : sound.

Lemma sound_Event_value self : sound (Event_value self).
Proof. unfold Event_value. sound_tac. Qed.

(** [trigger] copies the outcome of an event that has [ok], which by the
    invariant has a value. *)
Lemma sound_Event_trigger self event : sound (Event_trigger self event).
Proof.
  intros s. unfold Event_trigger, bind at 1, the_event at 1.
  destruct (s !! event) as [[e | |] |] eqn:He; try apply sound_raise.
  unfold bind at 1, attr_ok.
  destruct (ok e) as [o |] eqn:Ho; [| apply sound_raise].
  unfold ret at 1. apply evolves_bind; [| intros; sound_tac].
  unfold update. destruct (s !! self) as [[me | |] |] eqn:Hme; try apply sound_raise.
  eapply evolves_insert_event; [done | |].
  - unfold event_le. simpl. repeat split; eauto using same_class_refl.
  - intros W. assert (_value e <> PENDING) by (eapply W; eauto).
    split; intros _; exact H.
Qed.

Lemma sound_Event_succeed self v : sound (Event_succeed self v).
Proof. unfold Event_succeed. sound_tac. Qed.

Lemma sound_Event_fail self x : sound (Event_fail self x).
Proof. unfold Event_fail. sound_tac. Qed.

Lemma sound_Timeout__init__ env0 delay v : sound (Timeout__init__ env0 delay v).
Proof. unfold Timeout__init__. sound_tac. Qed.

Lemma sound_Initialize__init__ env0 process : sound (Initialize__init__ env0 process).
Proof. unfold Initialize__init__. sound_tac. Qed.

#[local] Hint Resolve sound_Event_value sound_Event_trigger sound_Event_succeed
  sound_Event_fail sound_Timeout__init__ sound_Initialize__init__ : sound.

Lemma sound_Interruption__init__ process cause : sound (Interruption__init__ process cause).
Proof. unfold Interruption__init__. sound_tac. Qed.

Lemma sound_Process__init__ env0 generator : sound (Process__init__ env0 generator).
Proof. unfold Process__init__. sound_tac. by intros []. Qed.

#[local] Hint Resolve sound_Interruption__init__ sound_Process__init__ : sound.

Lemma sound_Process_interrupt self cause : sound (Process_interrupt self cause).
Proof. unfold Process_interrupt. sound_tac. Qed.

Lemma sound_Process_is_alive self : sound (Process_is_alive self).
Proof. unfold Process_is_alive. sound_tac. Qed.

Lemma sound_Process_target self : sound (Process_target self).
Proof. unfold Process_target. sound_tac. Qed.

#[local] Hint Resolve sound_Process_interrupt sound_Process_is_alive
  sound_Process_target : sound.

Lemma sound_Condition__check self event : sound (Condition__check self event).
Proof. unfold Condition__check. sound_tac. Qed.

#[local] Hint Resolve sound_Condition__check : sound.

Lemma sound_Condition__init__ env0 evaluate events :
  sound (Condition__init__ env0 evaluate events).
Proof. unfold Condition__init__. sound_tac. by intros []. Qed.

Lemma sound_Condition__get_values fuel self : sound (Condition__get_values fuel self).
Proof.
  revert self. induction fuel as [| fuel IH]; intros self; simpl; [sound_tac |].
  apply sound_bind; [sound_tac |]. intros me.
  destruct (variant_of me) as [| | | | | evaluate events count]; try solve [sound_tac].
  generalize (@nil (ref * option value)).
  induction events as [| event events IHe]; intros values; [sound_tac |].
  apply sound_bind; [sound_tac |]. intros e.
  destruct (is_Condition e); [apply sound_bind; auto |].
  destruct (processed e); auto.
Qed.

#[local] Hint Resolve sound_Condition__init__ sound_Condition__get_values : sound.

Lemma sound_Condition__collect_values fuel self event :
  sound (Condition__collect_values fuel self event).
Proof.
  unfold Condition__collect_values. sound_tac.
  apply sound_update. intros e. unfold event_le, wf_event.
  destruct (_value e) as [[] |] eqn:Hv; simpl; rewrite ?Hv;
    repeat split; eauto using same_class_refl.
Qed.

Lemma sound_call o : sound (call o).
Proof. destruct o; simpl; sound_tac. Qed.

Lemma sound_raise_value {A} x : sound (@raise_value A x).
Proof.
  unfold raise_value. sound_tac. intros s. apply evolves_refl.
Qed.

#[local] Hint Resolve sound_Condition__collect_values sound_call sound_raise_value : sound.

Lemma sound_run_segment c : sound (run_segment c).
Proof.
  induction c as [v g | a | x | o k IH]; simpl; [sound_tac .. |].
  intros s. pose proof (sound_call o s) as Hc.
  destruct (call o s) as [r s']. eapply evolves_trans; [done | apply IH].
Qed.

Lemma sound_advance self c : sound (advance self c).
Proof.
  intros s. unfold advance. pose proof (sound_run_segment c s) as Hc.
  destruct (run_segment c s) as [[[v g] | x |] s']; simpl in *; [| | done].
  - eapply evolves_trans; [done |].
    apply evolves_bind; [apply sound_update; auto with sound | intros; sound_tac].
  - eapply evolves_trans; [done |].
    apply evolves_bind; [apply sound_update; auto with sound |].
    intros _ s0. apply evolves_refl.
Qed.

#[local] Hint Resolve sound_run_segment sound_advance : sound.

Lemma sound_generator_send self v : sound (generator_send self v).
Proof. unfold generator_send. sound_tac. Qed.

Lemma sound_generator_throw self v : sound (generator_throw self v).
Proof.
  unfold generator_throw. sound_tac; intros s; apply evolves_refl.
Qed.

#[local] Hint Resolve sound_generator_send sound_generator_throw : sound.

Lemma sound_deliver self event : sound (deliver self event).
Proof. unfold deliver. sound_tac. Qed.

(** ** Evaluation of the primitives *)

Lemma the_event_Some r e s : s !! r = Some (OEvent e) -> the_event r s = (Ok e, s).
Proof. intros H. unfold the_event. by rewrite H. Qed.

Lemma the_env_Some r E s : s !! r = Some (OEnv E) -> the_env r s = (Ok E, s).
Proof. intros H. unfold the_env. by rewrite H. Qed.

Lemma update_Some r f e s :
  s !! r = Some (OEvent e) -> update r f s = (Ok tt, <[r := OEvent (f e)]> s).
Proof. intros H. unfold update. by rewrite H. Qed.

Lemma update_env_Some r f E s :
  s !! r = Some (OEnv E) -> update_env r f s = (Ok tt, <[r := OEnv (f E)]> s).
Proof. intros H. unfold update_env. by rewrite H. Qed.

Lemma schedule_Some environment event priority delay E s :
  s !! environment = Some (OEnv E) ->
  schedule environment event priority delay s =
    (Ok tt, <[environment := OEnv (Env (_now E) (_active_proc E)
               (_queue E ++ [((_now E + delay)%Z, priority, _eid E, event)])
               (S (_eid E)))]> s).
Proof. intros H. unfold schedule. by rewrite (update_env_Some _ _ E). Qed.

Lemma lookup_new (s : state) o : (s ++ [o]) !! length s = Some o.
Proof. by apply list_lookup_middle. Qed.

Lemma lookup_old (s : state) o r x : s !! r = Some x -> (s ++ [o]) !! r = Some x.
Proof. apply lookup_app_l_Some. Qed.

Lemma lookup_insert_other (s : state) r r' o x :
  r <> r' -> s !! r' = Some x -> <[r := o]> s !! r' = Some x.
Proof. intros Hne H. by rewrite list_lookup_insert_ne. Qed.

Lemma lookup_insert_same (s : state) r o x :
  s !! r = Some x -> <[r := o]> s !! r = Some o.
Proof. intros H. apply list_lookup_insert_eq. by eapply lookup_lt_Some. Qed.

(** A bound reference differs from the next free one. *)
Lemma bound_fresh (s : state) r x : s !! r = Some x -> r <> length s.
Proof. intros H%lookup_lt_Some. lia. Qed.

Lemma extends_alloc s o : extends s (s ++ [o]).
Proof.
  intros r o' H. exists o'. split; [by apply lookup_app_l_Some | apply obj_le_refl].
Qed.

Lemma extends_insert_event s r e e' :
  s !! r = Some (OEvent e) -> event_le e e' -> extends s (<[r := OEvent e']> s).
Proof.
  intros H L r0 o H0. pose proof (lookup_lt_Some _ _ _ H) as Hr.
  destruct (decide (r = r0)) as [-> | Hne].
  - rewrite list_lookup_insert_eq by done. exists (OEvent e'). by simplify_eq.
  - rewrite list_lookup_insert_ne by done. eauto using obj_le_refl.
Qed.

Lemma insert_twice_app (s : state) r a b x :
  r < length s -> <[r := b]> (<[r := a]> s ++ [x]) = <[r := b]> (s ++ [x]).
Proof.
  intros Hr. rewrite !insert_app_l by (by rewrite ?length_insert).
  by rewrite list_insert_insert_eq.
Qed.

(** The [except BaseException] clause when the exception can be rebuilt:
    the process gets its outcome, as if by one assignment. *)
Lemma terminate_rebuilt self x X a (s : state) me :
  s !! x = Some (OExc X) ->
  exc_type X <> "StopIteration"%string ->
  construct (exc_type X) (args X) = Built a ->
  s !! self = Some (OEvent me) ->
  terminate self x s =
    (let! v := new (fun _ => OExc (Exc (exc_type X) a (Some x))) in
     update self (set_outcome false (Some (VRef v))) ;;;
     let! me := the_event self in
     schedule (env me) self NORMAL 0) s.
Proof.
  intros Hx Hty Hc Hme. pose proof (lookup_lt_Some _ _ _ Hme) as Hlt.
  unfold terminate. rewrite Hx, decide_False by done.
  unfold bind at 1. rewrite (update_Some _ _ _ _ Hme), Hc.
  unfold bind at 1, new. unfold bind at 1.
  rewrite (update_Some _ _ (set_ok false me)) by by eapply lookup_old, lookup_insert_same.
  symmetry. unfold bind at 1. unfold bind at 1.
  rewrite (update_Some _ _ me) by by apply lookup_old.
  rewrite length_insert, insert_twice_app by done. done.
Qed.

(** The same clause when the class refuses the [args] of its instance: [ok]
    is set by then, and nothing else. *)
Lemma terminate_refused self x X ty a (s : state) me :
  s !! x = Some (OExc X) ->
  exc_type X <> "StopIteration"%string ->
  construct (exc_type X) (args X) = Refused ty a ->
  s !! self = Some (OEvent me) ->
  terminate self x s =
    (Raised (length s), <[self := OEvent (set_ok false me)]> s ++ [OExc (Exc ty a None)]).
Proof.
  intros Hx Hty Hc Hme.
  unfold terminate. rewrite Hx, decide_False by done.
  unfold bind. rewrite (update_Some _ _ _ _ Hme), Hc.
  unfold raise. by rewrite length_insert.
Qed.

Lemma sound_terminate self x : sound (terminate self x).
Proof.
  intros s.
  destruct (s !! x) as [[| X |] |] eqn:Hx;
    try (unfold terminate; rewrite Hx; apply evolves_refl).
  destruct (decide (exc_type X = "StopIteration"%string)) as [Hty | Hty].
  - unfold terminate. rewrite Hx, decide_True by done. revert s Hx.
    change (forall s, s !! x = Some (OExc X) ->
      evolves s ((update self (set_outcome true (Some (hd VNone (args X)))) ;;;
                  let! me := the_event self in schedule (env me) self NORMAL 0) s).2).
    intros s _. revert s.
    change (sound (update self (set_outcome true (Some (hd VNone (args X)))) ;;;
                   let! me := the_event self in schedule (env me) self NORMAL 0)).
    sound_tac.
  - destruct (s !! self) as [[me | |] |] eqn:Hme.
    2-4: unfold terminate; rewrite Hx, decide_False by done;
         unfold bind, update; rewrite Hme; apply sound_raise.
    destruct (construct (exc_type X) (args X)) as [a | ty a] eqn:Hc.
    + rewrite (terminate_rebuilt _ _ _ _ _ _ Hx Hty Hc Hme). revert s Hx Hme.
      change (forall s, s !! x = Some (OExc X) -> s !! self = Some (OEvent me) ->
        evolves s ((let! v := new (fun _ => OExc (Exc (exc_type X) a (Some x))) in
                    update self (set_outcome false (Some (VRef v))) ;;;
                    let! me := the_event self in schedule (env me) self NORMAL 0) s).2).
      intros s _ _. revert s.
      change (sound (let! v := new (fun _ => OExc (Exc (exc_type X) a (Some x))) in
                     update self (set_outcome false (Some (VRef v))) ;;;
                     let! me := the_event self in schedule (env me) self NORMAL 0)).
      sound_tac.
    + rewrite (terminate_refused _ _ _ _ _ _ _ Hx Hty Hc Hme). simpl. split.
      * eapply extends_trans; [| apply extends_alloc].
        eapply extends_insert_event; [done |].
        unfold event_le. simpl. repeat split; eauto using same_class_refl.
      * intros A. destruct (A (exc_type X) (args X)) as [a' Ha]. congruence.
Qed.

#[local] Hint Resolve sound_deliver sound_terminate : sound.

Lemma sound_invalid_yield {A} self v : sound (@invalid_yield A self v).
Proof. unfold invalid_yield. sound_tac. Qed.

#[local] Hint Resolve sound_invalid_yield : sound.

Lemma sound_resume_loop fuel self event : sound (resume_loop fuel self event).
Proof.
  revert event. induction fuel as [| fuel IH]; intros event; simpl; [sound_tac |].
  apply sound_bind; [sound_tac |]. intros [v |]; [| sound_tac].
  destruct v; try solve [sound_tac].
  intros s. destruct (s !! r) as [[e | |] |]; try apply sound_invalid_yield.
  destruct (callbacks e); [| apply IH].
  revert s. change (sound (update r (on_callbacks (fun cbs => cbs ++ [cb_resume self])) ;;;
                           ret (Some r))).
  sound_tac.
Qed.

#[local] Hint Resolve sound_resume_loop : sound.

Lemma sound_Process__resume fuel self event : sound (Process__resume fuel self event).
Proof. unfold Process__resume. sound_tac. Qed.

#[local] Hint Resolve sound_Process__resume : sound.

Lemma sound_Interruption__interrupt fuel self event :
  sound (Interruption__interrupt fuel self event).
Proof. unfold Interruption__interrupt. sound_tac. Qed.

#[local] Hint Resolve sound_Interruption__interrupt : sound.

Lemma sound_invoke fuel cb event : sound (invoke fuel cb event).
Proof. destruct cb; simpl; auto with sound. Qed.

#[local] Hint Resolve sound_invoke : sound.

Lemma sound_step fuel environment : sound (step fuel environment).
Proof. unfold step. sound_tac. Qed.

(** ** Inversion of a run that returned *)

Lemma bind_Ok {A B} (m : M A) (k : A -> M B) s b s' :
  bind m k s = (Ok b, s') -> exists a s1, m s = (Ok a, s1) /\ k a s1 = (Ok b, s').
Proof.
  unfold bind. destruct (m s) as [[a | x |] s1]; intros H; try discriminate. eauto.
Qed.

Lemma raise_Ok {A} ty a s (b : A) s' : raise ty a s = (Ok b, s') -> False.
Proof. discriminate. Qed.

Lemma the_event_Ok r s e s' :
  the_event r s = (Ok e, s') -> s' = s /\ s !! r = Some (OEvent e).
Proof.
  unfold the_event. destruct (s !! r) as [[] |]; intros H; try discriminate.
  by simplify_eq.
Qed.

Lemma update_Ok r f s u s' :
  update r f s = (Ok u, s') ->
  exists e, s !! r = Some (OEvent e) /\ s' = <[r := OEvent (f e)]> s.
Proof.
  unfold update. destruct (s !! r) as [[e | |] |]; intros H; try discriminate.
  simplify_eq. eauto.
Qed.





(** ** The claims *)

(** C8: [Timeout(env, delay, value)] with [delay < 0] raises [ValueError] and
    leaves every object, the queue included, as it was; with [delay >= 0] the
    timeout is created triggered, with [ok = True] and the given value, and
    is scheduled at [now + delay] with priority [NORMAL]. *)
Theorem Timeout_delay_contract env0 delay v s E :
  s !! env0 = Some (OEnv E) ->
  if decide (delay < 0)%Z then
    Timeout__init__ env0 delay v s =
      (Raised (length s),
       s ++ [OExc (Exc "ValueError" [VStr "Negative delay"; VInt delay] None)])
  else
    exists e,
      Timeout__init__ env0 delay v s =
        (Ok (length s),
         <[env0 := OEnv (Env (_now E) (_active_proc E)
                      (_queue E ++ [((_now E + delay)%Z, NORMAL, _eid E, length s)])
                      (S (_eid E)))]> (s ++ [OEvent e])) /\
      triggered e = true /\ ok e = Some true /\ _value e = Some v /\
      callbacks e = Some [] /\ env e = env0.
Proof.
  intros HE. unfold Timeout__init__. case_decide as Hd.
  - by rewrite (proj2 (Z.ltb_lt _ _) Hd).
  - rewrite (proj2 (Z.ltb_ge _ _)) by lia.
    eexists. split.
    + unfold bind, new.
      by rewrite (schedule_Some _ _ _ _ E) by by apply lookup_old.
    + by repeat split.
Qed.

(** A [raise] whose message is built from [v] raises, and the store only
    gains the exception. *)
Lemma raise_with_message {A} ty a v (s : state) :
  (percent_s v ;;; @raise A ty a) s =
    (Raised (length s), s ++ [OExc (raised_with ty a v s)]).
Proof.
  unfold bind, percent_s, raised_with. by destruct (percent v s).
Qed.

(** C9 (the code does not always do this): [Process(env, generator)] for an
    argument that is not a generator always raises before an event is
    created: the store only gains the exception, so the queue is as it was.
    The exception is the [ValueError] of the claim when its message can be
    built, as for a number or a string.  But the message is built with
    ['%s is not a generator.' % generator], and [%] takes a tuple as the
    tuple of its arguments: for a tuple of several items, or of none,
    [TypeError] is raised instead. *)
Theorem Process_rejects_non_generator env0 s :
  (forall v,
     Process__init__ env0 (not_a_generator v) s =
       (Raised (length s),
        s ++ [OExc (raised_with "ValueError" [VStr "is not a generator."] v s)])) /\
  (forall z,
     Process__init__ env0 (not_a_generator (VInt z)) s =
       (Raised (length s), s ++ [OExc (Exc "ValueError" [VStr "is not a generator."] None)])) /\
  (forall t,
     Process__init__ env0 (not_a_generator (VStr t)) s =
       (Raised (length s), s ++ [OExc (Exc "ValueError" [VStr "is not a generator."] None)])) /\
  (forall w1 w2 l,
     Process__init__ env0 (not_a_generator (VTuple (w1 :: w2 :: l))) s =
       (Raised (length s),
        s ++ [OExc (Exc "TypeError"
                        [VStr "not all arguments converted during string formatting"]
                        None)])) /\
  Process__init__ env0 (not_a_generator (VTuple [])) s =
    (Raised (length s),
     s ++ [OExc (Exc "TypeError" [VStr "not enough arguments for format string"] None)]).
Proof.
  repeat split; intros; apply raise_with_message.
Qed.

(** Both built-in predicates hold for an empty list and a count of zero: a
    check of an empty condition would let it succeed. *)
Lemma evaluate_holds_on_empty : all_events [] 0 = true /\ any_events [] 0 = true.
Proof. by split. Qed.

(** C1 (the code does not do this): over an empty list of sub-events neither
    loop of [Condition.__init__] runs, so [_check] and with it [evaluate] are
    never called: the condition comes back pending, with [_collect_values]
    as only callback, and nothing is scheduled. *)
Theorem Condition_empty_stays_pending env0 evaluate s :
  Condition__init__ env0 evaluate [] s =
    (Ok (length s),
     s ++ [OEvent (Event env0 (Some [cb_collect_values (length s)]) PENDING None false
                         (IsCondition evaluate [] 0))]).
Proof.
  unfold Condition__init__, bind, new. simpl. unfold bind, ret.
  rewrite (the_event_Some _ _ _ (lookup_new _ _)). simpl.
  rewrite (update_Some _ _ _ _ (lookup_new _ _)).
  replace (length s) with (length s + 0) at 2 by lia.
  by rewrite insert_app_r.
Qed.

(** C7: [process.interrupt(cause)] raises [RuntimeError] exactly when the
    process has terminated or is the active process; then every object,
    the queue included, is as before.  Otherwise a failed, defused
    [Interruption] carrying [Interrupt(cause)] is scheduled at [now] with
    priority [URGENT]. *)
Theorem interrupt_not_allowed self cause s p E :
  s !! self = Some (OEvent p) ->
  s !! env p = Some (OEnv E) ->
  exists s', 
    (forall r o, s !! r = Some o -> r <> env p -> s' !! r = Some o) /\
    if decide (_value p <> PENDING \/ _active_proc E = Some self) then
      exists x X,
        Process_interrupt self cause s = (Raised x, s') /\
        s' !! x = Some (OExc X) /\ exc_type X = "RuntimeError"%string /\
        s' !! env p = Some (OEnv E)
    else
      Process_interrupt self cause s = (Ok tt, s') /\
      s' !! length s = Some (OExc (Exc "Interrupt" [cause] None)) /\
      s' !! S (length s) =
        Some (OEvent (Event (env p) (Some [cb_interrupt (S (length s))])
                            (Some (VRef (length s))) (Some false) true
                            (IsInterruption (Some self)))) /\
      s' !! env p =
        Some (OEnv (Env (_now E) (_active_proc E)
                        (_queue E ++ [((_now E + 0)%Z, URGENT, _eid E, S (length s))])
                        (S (_eid E)))).
Proof.
  intros Hp HE.
  unfold Process_interrupt, Interruption__init__, bind, new.
  rewrite (the_event_Some _ _ _ Hp).
  set (x := OExc (Exc "Interrupt" [cause] None)).
  set (i := OEvent _).
  assert (length (s ++ [x]) = S (length s)) as Hlen by (rewrite length_app; simpl; lia).
  assert (((s ++ [x]) ++ [i]) !! self = Some (OEvent p)) as Hp'
    by by do 2 apply lookup_old.
  assert (((s ++ [x]) ++ [i]) !! env p = Some (OEnv E)) as HE'
    by by do 2 apply lookup_old.
  rewrite (the_event_Some _ _ _ Hp'). unfold triggered.
  case_decide as Hd.
  - destruct Hd as [Hd | Hd].
    + rewrite bool_decide_eq_true_2 by done. unfold raise.
      eexists. split; [| do 2 eexists; split; [done |]].
      * intros r o Hr _. by do 3 apply lookup_old.
      * split; [apply lookup_new |]. split; [done |]. by apply lookup_old.
    + destruct (bool_decide (_value p <> PENDING));
        [| rewrite (the_env_Some _ _ _ HE'); rewrite decide_True by done ];
        unfold raise.
      all: eexists; (split; [| do 2 eexists; split; [done |]]);
        [ intros r o Hr _; by do 3 apply lookup_old
        | split; [apply lookup_new |]; split; [done |]; by apply lookup_old ].
  - rewrite bool_decide_eq_false_2 by tauto.
    rewrite (the_env_Some _ _ _ HE'). rewrite decide_False by tauto.
    assert (((s ++ [x]) ++ [i]) !! length (s ++ [x]) = Some i) as Hi by apply lookup_new.
    rewrite (update_Some _ _ _ _ Hi).
    erewrite schedule_Some
      by (apply lookup_insert_other; [rewrite Hlen; by apply bound_fresh in HE' as ?; eapply Nat.neq_sym, Nat.lt_neq, Nat.lt_lt_succ_r, lookup_lt_Some | done]).
    eexists. split; [| split; [done |]].
    + intros r o Hr Hne. do 2 (apply lookup_insert_other; [try done |]).
      * apply lookup_lt_Some in Hr. lia.
      * by do 2 apply lookup_old.
    + pose proof (lookup_lt_Some _ _ _ HE) as Hlt.
      split; [| split].
      * do 2 (apply lookup_insert_other; [lia |]). apply lookup_old, lookup_new.
      * apply lookup_insert_other; [lia |]. rewrite <- Hlen.
        by erewrite lookup_insert_same.
      * rewrite Hlen. by erewrite lookup_insert_same by (apply lookup_insert_other; [lia | done]).
Qed.

(** C4: [_check] on a condition that is already triggered changes nothing;
    on a pending condition, with a failed sub-event, it counts the
    sub-event, marks it defused and fails the condition with the sub-event's
    exception, which schedules the condition. *)
Theorem Condition_check_forwards_failure self event s me evaluate events count E :
  s !! self = Some (OEvent me) ->
  variant_of me = IsCondition evaluate events count ->
  s !! env me = Some (OEnv E) ->
  if decide (_value me <> PENDING) then
    Condition__check self event s = (Ok tt, s)
  else
    forall e x X,
      s !! event = Some (OEvent e) -> ok e = Some false ->
      _value e = Some (VRef x) -> s !! x = Some (OExc X) ->
      exists s',
        Condition__check self event s = (Ok tt, s') /\
        s' !! event = Some (OEvent (set_defused true e)) /\
        s' !! self =
          Some (OEvent (set_outcome false (Some (VRef x)) (set_count (count + 1) me))) /\
        s' !! env me =
          Some (OEnv (Env (_now E) (_active_proc E)
                          (_queue E ++ [((_now E + 0)%Z, NORMAL, _eid E, self)])
                          (S (_eid E)))) /\
        (forall r, r <> event -> r <> self -> r <> env me -> s' !! r = s !! r).
Proof.
  intros Hme Hv HE. destruct (decide (_value me <> PENDING)) as [Hd | Hd].
  { unfold Condition__check, bind. rewrite (the_event_Some _ _ _ Hme).
    unfold triggered. by rewrite bool_decide_eq_true_2. }
  intros e x X He Hok Hval Hx.
  unfold Condition__check, bind. rewrite (the_event_Some _ _ _ Hme).
  unfold triggered. rewrite bool_decide_eq_false_2 by done. rewrite Hv.
  assert (self <> event) as Hne.
  { intros ->. rewrite Hme in He. injection He as ->. apply Hd. congruence. }
  assert (env me <> self) as Hne1 by (intros Heq; rewrite Heq in HE; congruence).
  assert (env me <> event) as Hne2 by (intros Heq; rewrite Heq in HE; congruence).
  assert (x <> self) as Hne3 by (intros ->; congruence).
  assert (x <> event) as Hne4 by (intros ->; congruence).
  rewrite (update_Some _ _ _ _ Hme).
  set (s1 := <[self := _]> s).
  assert (s1 !! event = Some (OEvent e)) as He1 by by apply lookup_insert_other.
  rewrite (the_event_Some _ _ _ He1). unfold attr_ok. rewrite Hok. simpl.
  rewrite (update_Some _ _ _ _ He1).
  set (s2 := <[event := _]> s1).
  assert (s2 !! event = Some (OEvent (set_defused true e))) as He2
    by by eapply lookup_insert_same.
  rewrite (the_event_Some _ _ _ He2). simpl. rewrite Hval.
  unfold Event_fail, bind.
  assert (s2 !! self = Some (OEvent (set_count (count + 1) me))) as Hme2.
  { apply lookup_insert_other; [done |]. by eapply lookup_insert_same. }
  rewrite (the_event_Some _ _ _ Hme2). unfold triggered.
  assert (_value (set_count (count + 1) me) = PENDING) as Hpend.
  { unfold set_count. rewrite Hv. simpl.
    destruct (_value me); [exfalso; by apply Hd | done]. }
  rewrite bool_decide_eq_false_2 by (rewrite Hpend; tauto).
  assert (s2 !! x = Some (OExc X)) as Hx2 by by do 2 (apply lookup_insert_other; [done |]).
  unfold is_exception. rewrite Hx2. simpl.
  rewrite (update_Some _ _ _ _ Hme2).
  assert (env (set_count (count + 1) me) = env me) as Henv
    by (unfold set_count; by rewrite Hv).
  rewrite Henv.
  erewrite schedule_Some by by do 3 (apply lookup_insert_other; [done |]).
  unfold ret. eexists. split; [done |]. split; [| split; [| split]].
  - by do 2 (apply lookup_insert_other; [done |]).
  - apply lookup_insert_other; [done |]. by eapply lookup_insert_same.
  - eapply lookup_insert_same. by do 3 (apply lookup_insert_other; [done |]).
  - intros r H1 H2 H3. unfold s2, s1.
    by rewrite !list_lookup_insert_ne.
Qed.

(** C5: when [_resume] is entered with a failed event, the event is marked
    defused first and its value is thrown into the generator in the store
    so changed; whatever the generator then does, and however the step
    ends, the event is defused afterwards. *)
Theorem resume_defuses_failed_event fuel self event s me E e :
  s !! self = Some (OEvent me) ->
  s !! env me = Some (OEnv E) ->
  s !! event = Some (OEvent e) ->
  ok e = Some false ->
  let s0 := <[env me := OEnv (set_active_proc (Some self) E)]> s in
  deliver self (VRef event) s0 =
    generator_throw self (_value e) (<[event := OEvent (set_defused true e)]> s0) /\
  exists e', (Process__resume (S fuel) self event s).2 !! event = Some (OEvent e') /\
             defused e' = true.
Proof.
  intros Hme HE He Hok s0.
  assert (env me <> event) as Hne by (intros Heq; rewrite Heq in HE; congruence).
  assert (s0 !! event = Some (OEvent e)) as He0 by by apply lookup_insert_other.
  set (s1 := <[event := OEvent (set_defused true e)]> s0).
  assert (s1 !! event = Some (OEvent (set_defused true e))) as He1
    by by eapply lookup_insert_same.
  assert (deliver self (VRef event) s0 = generator_throw self (_value e) s1) as Hd.
  { unfold deliver, bind. rewrite (the_event_Some _ _ _ He0).
    unfold attr_ok. rewrite Hok. simpl.
    rewrite (update_Some _ _ _ _ He0). fold s1.
    by rewrite (the_event_Some _ _ _ He1). }
  split; [done |].
  assert (evolves s1 (Process__resume (S fuel) self event s).2) as [Hext _].
  { unfold Process__resume. unfold bind at 1. rewrite (the_event_Some _ _ _ Hme).
    unfold bind at 1. rewrite (update_env_Some _ _ _ _ HE). fold s0.
    apply evolves_bind; [| intros; sound_tac]. simpl.
    apply evolves_bind; [| intros [[] |]; sound_tac;
      intros s'; destruct (s' !! r) as [[e0 | |] |]; try apply sound_invalid_yield;
      destruct (callbacks e0); [| apply sound_resume_loop];
      apply evolves_bind; [apply sound_update; auto with sound | intros; sound_tac]].
    apply evolves_try_except; [| intros; sound_tac].
    apply evolves_bind; [| intros; sound_tac].
    change (evolves s1 (deliver self (VRef event) s0).2).
    rewrite Hd. apply sound_generator_throw. }
  destruct (Hext _ _ He1) as (o' & Ho' & Hle).
  destruct o' as [e' | |]; simpl in Hle; try done.
  exists e'. split; [done |]. destruct Hle as (_ & Hdef & _). by apply Hdef.
Qed.

(** What [extends] gives for one object. *)
Lemma extends_event s s' r e :
  extends s s' -> s !! r = Some (OEvent e) ->
  exists e', s' !! r = Some (OEvent e') /\ event_le e e'.
Proof.
  intros Hext H. destruct (Hext _ _ H) as ([e' | |] & H' & Hle); simpl in Hle; try done.
  eauto.
Qed.

Lemma extends_env s s' r E :
  extends s s' -> s !! r = Some (OEnv E) -> exists E', s' !! r = Some (OEnv E').
Proof.
  intros Hext H. destruct (Hext _ _ H) as ([| | E'] & H' & Hle); simpl in Hle; try done.
  eauto.
Qed.

Lemma extends_exc s s' r x :
  extends s s' -> s !! r = Some (OExc x) -> s' !! r = Some (OExc x).
Proof.
  intros Hext H. destruct (Hext _ _ H) as ([| x' |] & H' & Hle); simpl in Hle; try done.
  by subst.
Qed.


Lemma set_target_fields t e :
  _value (set_target t e) = _value e /\ callbacks (set_target t e) = callbacks e /\
  env (set_target t e) = env e.
Proof. unfold set_target. by destruct (variant_of e). Qed.


(** What [_resume] does around its loop. *)
Lemma resume_exit fuel self event s me E r s2 me2 E2 :
  s !! self = Some (OEvent me) ->
  s !! env me = Some (OEnv E) ->
  resume_loop fuel self (VRef event) (<[env me := OEnv (set_active_proc (Some self) E)]> s)
    = (Ok r, s2) ->
  s2 !! self = Some (OEvent me2) ->
  env me2 = env me ->
  s2 !! env me = Some (OEnv E2) ->
  Process__resume fuel self event s =
    (Ok tt, <[env me := OEnv (set_active_proc None E2)]>
              (<[self := OEvent (set_target r me2)]> s2)).
Proof.
  intros Hme HE Hloop Hme2 Henv HE2.
  assert (env me <> self) as Hne by (intros Heq; rewrite Heq in HE; congruence).
  unfold Process__resume, bind. rewrite (the_event_Some _ _ _ Hme).
  rewrite (update_env_Some _ _ _ _ HE), Hloop.
  rewrite (update_Some _ _ _ _ Hme2).
  rewrite (the_event_Some _ (set_target r me2)) by by eapply lookup_insert_same.
  destruct (set_target_fields r me2) as (_ & _ & ->). rewrite Henv.
  by rewrite (update_env_Some _ _ E2) by by apply lookup_insert_other.
Qed.


(** The invariant holds in a store that has an environment only, and stays. *)
Lemma wf_environment E : wf [OEnv E].
Proof. intros [| r] e H; [discriminate |]. by destruct r. Qed.

Lemma evolves_perform a s : evolves s (perform a s).
Proof.
  destruct a; simpl;
    [apply sound_call | apply sound_invoke | apply sound_step].
Qed.

Lemma evolves_perform_all l s : evolves s (perform_all l s).
Proof.
  revert s. induction l as [| a l IH]; intros s; [apply evolves_refl |].
  simpl. eapply evolves_trans; [apply evolves_perform | apply IH].
Qed.

Lemma wf_perform_all l s : accepting -> wf s -> wf (perform_all l s).
Proof. intros A W. by apply (evolves_perform_all l s). Qed.


(** ** The ordered dictionary *)

Lemma add_key_cons_ne k a keys : k <> a -> add_key k (a :: keys) = a :: add_key k keys.
Proof.
  intros Hne. unfold add_key.
  destruct (decide (k ∈ keys)) as [Hin | Hin].
  - by rewrite decide_True by (right; done).
  - rewrite decide_False; [done |]. by intros [? | ?]%elem_of_cons.
Qed.

(** Storing under [k] the value that [k] already has, or will have. *)
Lemma od_set_map (g : ref -> option value) k keys :
  od_set k (g k) (map (fun r => (r, g r)) keys) = map (fun r => (r, g r)) (add_key k keys).
Proof.
  induction keys as [| a keys IH]; [done |].
  simpl. destruct (decide (k = a)) as [-> | Hne].
  - unfold add_key. by rewrite decide_True by (left; done).
  - by rewrite IH, add_key_cons_ne.
Qed.

Lemma od_update_map (g : ref -> option value) keys l :
  od_update (map (fun r => (r, g r)) keys) (map (fun r => (r, g r)) l) =
  map (fun r => (r, g r)) (add_keys keys l).
Proof.
  revert keys. induction l as [| k l IH]; intros keys; [done |].
  unfold od_update, add_keys in *. simpl. by rewrite od_set_map, IH.
Qed.

Lemma elem_of_add_key k x keys : x ∈ add_key k keys <-> x ∈ keys \/ x = k.
Proof.
  unfold add_key. destruct (decide (k ∈ keys)) as [Hin | Hin].
  - split; [by left | by intros [? | ->]].
  - rewrite elem_of_app, list_elem_of_singleton. tauto.
Qed.

Lemma elem_of_add_keys x keys l : x ∈ add_keys keys l <-> x ∈ keys \/ x ∈ l.
Proof.
  revert keys. induction l as [| k l IH]; intros keys; simpl.
  - split; [by left | intros [? | ?%elem_of_nil]; done].
  - unfold add_keys in *. simpl. rewrite IH, elem_of_add_key, elem_of_cons. tauto.
Qed.

Lemma add_keys_app keys l1 l2 : add_keys keys (l1 ++ l2) = add_keys (add_keys keys l1) l2.
Proof. apply foldl_app. Qed.

(** Merging a mapping that was collected from [l] is merging [l]. *)
Lemma add_keys_distinct keys l : add_keys keys (distinct l) = add_keys keys l.
Proof.
  unfold distinct. induction l as [| k l IH] using rev_ind; [done |].
  rewrite (add_keys_app [] l [k]).
  change (add_keys (add_keys [] l) [k]) with (add_key k (add_keys [] l)).
  rewrite (add_keys_app keys l [k]).
  change (add_keys (add_keys keys l) [k]) with (add_key k (add_keys keys l)).
  destruct (decide (k ∈ add_keys [] l)) as [Hin | Hin].
  - unfold add_key at 1. rewrite decide_True by done. rewrite IH.
    unfold add_key. rewrite decide_True; [done |].
    apply elem_of_add_keys. right.
    apply elem_of_add_keys in Hin as [?%elem_of_nil | ?]; done.
  - unfold add_key at 1. rewrite decide_False by done.
    by rewrite add_keys_app, IH.
Qed.

Lemma NoDup_add_keys keys l : NoDup keys -> NoDup (add_keys keys l).
Proof.
  revert keys. induction l as [| k l IH]; intros keys Hnd; [done |].
  apply IH. unfold add_key. destruct (decide (k ∈ keys)); [done |].
  apply NoDup_app. split; [done |]. split; [| apply NoDup_singleton].
  intros x Hx ->%list_elem_of_singleton. done.
Qed.

(** ** [_get_values] computes the mapping of the specification *)

Lemma flattened_cons depth s r events :
  flattened depth s (r :: events) =
  match sub_events s r with
  | Some events' => match depth with O => [] | S d => flattened d s events' end
  | None => [r]
  end ++ flattened depth s events.
Proof. by destruct depth. Qed.

Lemma sub_events_Some s r e :
  s !! r = Some (OEvent e) ->
  sub_events s r =
    match variant_of e with IsCondition _ events _ => Some events | _ => None end.
Proof. intros H. unfold sub_events. by rewrite H. Qed.

(** With fuel beyond the reference of the condition, [_get_values] returns,
    changes nothing, and gives the collected mapping. *)
Lemma get_values_spec n s :
  ordered s ->
  forall self events,
    sub_events s self = Some events -> self <= n ->
    Condition__get_values (S n) self s = (Ok (collected n s events), s).
Proof.
  intros Hord. induction n as [n IH] using lt_wf_ind. intros self events Hsub Hle.
  pose proof (Hord _ _ Hsub) as Hall.
  unfold sub_events in Hsub.
  destruct (s !! self) as [[me | |] |] eqn:Hme; try done.
  destruct (variant_of me) as [| | | | | evaluate events0 count] eqn:Hv; try done.
  simplify_eq.
  cbn [Condition__get_values]. unfold bind at 1.
  rewrite (the_event_Some _ _ _ Hme), Hv.
  unfold collected, distinct.
  change (@nil (ref * option value)) with (map (fun r => (r, value_of s r)) []).
  generalize (@nil ref) as keys. clear Hme Hv.
  induction Hall as [| r events (Hlt & e & He) Hall IHes]; intros keys;
    [by destruct n |].
  unfold bind at 1. rewrite (the_event_Some _ _ _ He).
  rewrite flattened_cons, (sub_events_Some _ _ _ He).
  unfold is_Condition.
  destruct (variant_of e) as [| | | | | evaluate' events' count'] eqn:Hve.
  6: {
    destruct n as [| n']; [lia |].
    assert (sub_events s r = Some events') as Hsub'
      by by rewrite (sub_events_Some _ _ _ He), Hve.
    unfold bind at 1. rewrite (IH n' (Nat.lt_succ_diag_r n') r events' Hsub') by lia.
    unfold collected. rewrite od_update_map, add_keys_distinct.
    rewrite IHes. by rewrite filter_app, add_keys_app. }
  all: unfold processed; destruct (decide (callbacks e = None)) as [Hp | Hp];
    [ rewrite bool_decide_eq_true_2 by done;
      assert (_value e = value_of s r) as -> by (unfold value_of; by rewrite He);
      rewrite od_set_map, IHes;
      rewrite filter_app, add_keys_app;
      rewrite filter_cons_True
        by (unfold is_processed, processed; rewrite He; by apply bool_decide_eq_true_2);
      done
    | rewrite bool_decide_eq_false_2 by done;
      rewrite IHes;
      rewrite filter_app, add_keys_app;
      rewrite filter_cons_False
        by (unfold is_processed, processed; rewrite He;
            by rewrite bool_decide_eq_false_2);
      done ].
Qed.

(** The collected mapping only looks below the condition. *)
Definition agree (b : nat) (s t : state) : Prop := forall r, r < b -> t !! r = s !! r.

Lemma ordered_below s r events :
  ordered s -> sub_events s r = Some events -> Forall (fun r' => r' < r) events.
Proof. intros Hord Hsub. eapply Forall_impl; [by apply Hord |]. by intros ? []. Qed.

Lemma flattened_below s :
  ordered s ->
  forall depth events b,
    Forall (fun r => r < b) events -> Forall (fun r => r < b) (flattened depth s events).
Proof.
  intros Hord depth. induction depth as [depth IH] using lt_wf_ind.
  intros events b Hall. induction Hall as [| r events Hr Hall IHes]; [by destruct depth |].
  rewrite flattened_cons. apply Forall_app. split; [| done].
  destruct (sub_events s r) as [events' |] eqn:Hsub; [| by apply Forall_singleton].
  destruct depth as [| d]; [done |]. apply IH; [lia |].
  eapply Forall_impl; [by eapply ordered_below |]. simpl. lia.
Qed.

Lemma flattened_agree s t b :
  ordered s -> agree b s t ->
  forall depth events,
    Forall (fun r => r < b) events -> flattened depth t events = flattened depth s events.
Proof.
  intros Hord Hag depth. induction depth as [depth IH] using lt_wf_ind.
  intros events Hall. induction Hall as [| r events Hr Hall IHes]; [by destruct depth |].
  rewrite !flattened_cons, IHes. f_equal.
  assert (sub_events t r = sub_events s r) as -> by (unfold sub_events; by rewrite Hag).
  destruct (sub_events s r) as [events' |] eqn:Hsub; [| done].
  destruct depth as [| d]; [done |]. apply IH; [lia |].
  eapply Forall_impl; [by eapply ordered_below |]. simpl. lia.
Qed.

Lemma filter_agree (P Q : ref -> Prop) `{!forall r, Decision (P r)}
    `{!forall r, Decision (Q r)} (l : list ref) :
  Forall (fun r => P r <-> Q r) l -> filter P l = filter Q l.
Proof.
  induction 1 as [| r l Hr Hall IH]; [done |].
  destruct (decide (P r)) as [HP | HP].
  - rewrite !filter_cons_True by tauto. by rewrite IH.
  - rewrite !filter_cons_False by tauto. done.
Qed.

Lemma collected_agree s t b depth events :
  ordered s -> agree b s t -> Forall (fun r => r < b) events ->
  collected depth t events = collected depth s events.
Proof.
  intros Hord Hag Hall. unfold collected.
  rewrite (flattened_agree s t b) by done.
  pose proof (flattened_below s Hord depth events b Hall) as Hbelow.
  rewrite (filter_agree (fun r => is_processed t r = true) (fun r => is_processed s r = true)).
  2: { eapply Forall_impl; [done |]. intros r Hr. simpl.
       unfold is_processed. by rewrite Hag. }
  apply map_ext_in. intros r Hin%list_elem_of_In.
  apply elem_of_add_keys in Hin as [Hin%elem_of_nil | Hin]; [done |].
  apply list_elem_of_filter in Hin as [_ Hin].
  rewrite Forall_forall in Hbelow. unfold value_of. by rewrite Hag by auto.
Qed.

Lemma ordered_insert s self me me' :
  ordered s -> s !! self = Some (OEvent me) -> variant_of me' = variant_of me ->
  ordered (<[self := OEvent me']> s).
Proof.
  intros Hord Hme Hv r events Hsub.
  assert (sub_events s r = Some events) as Hsub'.
  { unfold sub_events in *. destruct (decide (self = r)) as [-> | Hne].
    - rewrite (lookup_insert_same _ _ _ _ Hme) in Hsub. by rewrite Hme, <- Hv.
    - by rewrite list_lookup_insert_ne in Hsub. }
  eapply Forall_impl; [by apply Hord |]. simpl. intros r' [Hlt [e' He']].
  split; [done |]. destruct (decide (self = r')) as [-> | Hne].
  - exists me'. by eapply lookup_insert_same.
  - exists e'. by apply lookup_insert_other.
Qed.

(** With enough depth, [flattened] lists the sub-events of the relation. *)
Lemma elem_of_flattened s :
  ordered s ->
  forall n events r,
    Forall (fun c => c <= n) events ->
    r ∈ flattened n s events <-> sub_event_of s events r.
Proof.
  intros Hord n. induction n as [n IH] using lt_wf_ind. intros events r Hall.
  assert (flattened n s events =
          flat_map (fun c => match sub_events s c with
                             | Some events' =>
                                 match n with O => [] | S d => flattened d s events' end
                             | None => [c]
                             end) events) as -> by by destruct n.
  rewrite list_elem_of_In, in_flat_map. rewrite Forall_forall in Hall. split.
  - intros (c & Hc%list_elem_of_In & Hr%list_elem_of_In).
    destruct (sub_events s c) as [events' |] eqn:Hsub.
    + destruct n as [| d]; [by apply elem_of_nil in Hr |].
      eapply sub_event_nested; [done | done |].
      apply (IH d); [lia | | done].
      eapply Forall_impl; [by eapply ordered_below |]. simpl.
      specialize (Hall _ Hc). lia.
    + apply list_elem_of_singleton in Hr as ->. by apply sub_event_here.
  - intros Hof.
    inversion Hof as [events0 r0 Hin Hsub | events0 c events' r0 Hc Hsub Hr]; subst.
    + exists r. split; [by apply list_elem_of_In |].
      rewrite Hsub. by left.
    + exists c. split; [by apply list_elem_of_In |].
      rewrite Hsub. apply list_elem_of_In.
      pose proof (ordered_below _ _ _ Hord Hsub) as Hlt.
      specialize (Hall _ Hc).
      destruct n as [| d].
      * assert (events' = []) as ->.
        { destruct events' as [| c' ?]; [done |].
          apply Forall_cons_1 in Hlt as [Hlt _]. lia. }
        inversion Hr as [? ? Hin | ? ? ? ? Hin]; by apply elem_of_nil in Hin.
      * apply (IH d); [lia | | done].
        eapply Forall_impl; [done |]. simpl. lia.
Qed.

(** C6: when a condition that succeeded is processed, [_collect_values] sets
    its value to the mapping that section 4.4 describes: the keys are the
    sub-events, nested conditions replaced by their flattened sub-events,
    that are processed, each once, in the order of the lists; each is
    mapped to its value; a sub-event that is not processed is absent. *)
Theorem collect_values_contract n self s me evaluate events count :
  ordered s ->
  s !! self = Some (OEvent me) ->
  variant_of me = IsCondition evaluate events count ->
  ok me = Some true ->
  self <= n ->
  Condition__collect_values (S n) self self s =
    (Ok tt, <[self := OEvent (set_value (Some (VDict (collected n s events))) me)]> s) /\
  NoDup (map fst (collected n s events)) /\
  (forall r v, (r, v) ∈ collected n s events <->
     sub_event_of s events r /\ is_processed s r = true /\ v = value_of s r).
Proof.
  intros Hord Hme Hv Hok Hle.
  assert (sub_events s self = Some events) as Hsub
    by by rewrite (sub_events_Some _ _ _ Hme), Hv.
  split; [| split].
  - unfold Condition__collect_values, bind.
    rewrite (the_event_Some _ _ _ Hme). unfold attr_ok. rewrite Hok.
    unfold ret at 1. cbv beta iota.
    rewrite (update_Some _ _ _ _ Hme).
    set (me1 := set_value (Some (VDict [])) me).
    set (s1 := <[self := OEvent me1]> s).
    assert (ordered s1) as Hord1 by by eapply ordered_insert.
    assert (s1 !! self = Some (OEvent me1)) as Hme1 by by eapply lookup_insert_same.
    assert (sub_events s1 self = Some events) as Hsub1
      by (rewrite (sub_events_Some _ _ _ Hme1); simpl; by rewrite Hv).
    rewrite (get_values_spec n s1 Hord1 self events Hsub1 Hle).
    rewrite (update_Some _ _ _ _ Hme1). simpl.
    assert (collected n s1 events = collected n s events) as ->.
    { apply (collected_agree s s1 self); [done | | by eapply ordered_below].
      intros r Hr. unfold s1. apply list_lookup_insert_ne. lia. }
    unfold s1. rewrite list_insert_insert_eq.
    do 3 f_equal. unfold set_value, me1. simpl. do 3 f_equal.
    unfold collected.
    change (@nil (ref * option value)) with (map (fun r => (r, value_of s r)) []).
    rewrite od_update_map. by rewrite add_keys_distinct.
  - unfold collected. rewrite map_map. simpl. rewrite map_id.
    apply NoDup_add_keys, NoDup_nil_2.
  - intros r v.
    assert (Forall (fun c => c <= n) events) as Hall.
    { eapply Forall_impl; [by eapply ordered_below |]. simpl. lia. }
    rewrite <- (elem_of_flattened s Hord n events r Hall).
    unfold collected. rewrite list_elem_of_In, in_map_iff. split.
    + intros (r' & Heq & Hin%list_elem_of_In). simplify_eq.
      apply elem_of_add_keys in Hin as [Hin%elem_of_nil | Hin]; [done |].
      apply list_elem_of_filter in Hin as [Hp Hin]. done.
    + intros (Hin & Hp & ->). exists r. split; [done |].
      apply list_elem_of_In, elem_of_add_keys. right.
      by apply list_elem_of_filter.
Qed.

(** ** Further properties of the kernel *)

(** [fail] on a pending event with an argument that is not an exception
    always raises; the event stays pending and nothing is scheduled.  The
    exception is [ValueError] when its message can be built from the
    argument, as for a number; for a tuple of several items the [%] that
    builds the message raises [TypeError] instead. *)
Theorem fail_rejects_non_exception self s me :
  s !! self = Some (OEvent me) ->
  _value me = PENDING ->
  (forall exception,
     is_exception exception s = (Ok false, s) ->
     Event_fail self exception s =
       (Raised (length s),
        s ++ [OExc (raised_with "ValueError" [VStr "is not an exception."] exception s)])) /\
  (forall z,
     Event_fail self (VInt z) s =
       (Raised (length s),
        s ++ [OExc (Exc "ValueError" [VStr "is not an exception."] None)])) /\
  (forall w1 w2 l,
     Event_fail self (VTuple (w1 :: w2 :: l)) s =
       (Raised (length s),
        s ++ [OExc (Exc "TypeError"
                        [VStr "not all arguments converted during string formatting"]
                        None)])).
Proof.
  intros Hme Hv.
  assert (forall exception,
            is_exception exception s = (Ok false, s) ->
            Event_fail self exception s =
              (Raised (length s),
               s ++ [OExc (raised_with "ValueError" [VStr "is not an exception."]
                                       exception s)])) as H.
  { intros exception Hx. unfold Event_fail. unfold bind at 1.
    rewrite (the_event_Some _ _ _ Hme). unfold triggered.
    rewrite bool_decide_eq_false_2 by (rewrite Hv; tauto).
    unfold bind at 1. rewrite Hx. apply raise_with_message. }
  split; [done |]. split; intros; by rewrite H.
Qed.

(** An event is printed by the [_desc] of its class. *)
Lemma py_repr_event fuel seen str (s : state) r e :
  s !! r = Some (OEvent e) ->
  py_repr (S fuel) seen str (VRef r) s =
    match variant_of e with
    | IsTimeout _ =>
        match _value e with
        | Some VNone => Printed
        | Some w =>
            match percent_operand w with
            | inl w' => py_repr fuel seen true w' s
            | inr e => e
            end
        | None => Printed
        end
    | IsCondition _ events _ =>
        if decide (r ∈ seen) then Printed
        else print_all (fun r' => py_repr fuel (r :: seen) false (VRef r') s) events
    | _ => Printed
    end.
Proof.
  intros H. cbv delta [py_repr]. cbv beta iota. fold py_repr. by rewrite H.
Qed.

(** A pending event that is not a condition can be printed. *)
Lemma percent_pending (s : state) self me :
  s !! self = Some (OEvent me) ->
  _value me = PENDING ->
  is_Condition me = false ->
  percent (VRef self) s = Printed.
Proof.
  intros Hme Hv Hc. unfold percent, percent_operand, recursion_limit.
  rewrite (py_repr_event _ _ _ _ _ _ Hme). unfold is_Condition in Hc.
  destruct (variant_of me); try done. by rewrite Hv.
Qed.

(** The property [value] raises while the event is pending:
    [AttributeError], unless building its message from the event raises,
    which it does not for an event that is not a condition.  After
    [succeed(v)] it returns [v], and after [fail(x)] it returns the
    exception [x] (it does not raise it). *)
Theorem value_after_trigger self s me E :
  s !! self = Some (OEvent me) ->
  _value me = PENDING ->
  s !! env me = Some (OEnv E) ->
  Event_value self s =
    (Raised (length s),
     s ++ [OExc (raised_with "AttributeError" [VStr "Value is not yet available"]
                             (VRef self) s)]) /\
  (is_Condition me = false ->
   Event_value self s =
     (Raised (length s),
      s ++ [OExc (Exc "AttributeError" [VStr "Value is not yet available"] None)])) /\
  (forall v, exists s',
     Event_succeed self v s = (Ok self, s') /\ Event_value self s' = (Ok v, s')) /\
  (forall x X, s !! x = Some (OExc X) -> exists s',
     Event_fail self (VRef x) s = (Ok self, s') /\ Event_value self s' = (Ok (VRef x), s')).
Proof.
  intros Hme Hv HE.
  assert (env me <> self) as Hne by (intros Heq; rewrite Heq in HE; congruence).
  assert (Event_value self s =
            (Raised (length s),
             s ++ [OExc (raised_with "AttributeError" [VStr "Value is not yet available"]
                                     (VRef self) s)])) as Hraise.
  { unfold Event_value. unfold bind at 1. rewrite (the_event_Some _ _ _ Hme), Hv.
    apply raise_with_message. }
  split; [done |]. split; [| split].
  - intros Hc. rewrite Hraise. unfold raised_with.
    by rewrite (percent_pending _ _ _ Hme Hv Hc).
  - intros v. unfold Event_succeed, bind.
    rewrite (the_event_Some _ _ _ Hme). unfold triggered.
    rewrite bool_decide_eq_false_2 by (rewrite Hv; tauto).
    rewrite (update_Some _ _ _ _ Hme).
    rewrite (schedule_Some _ _ _ _ E) by by apply lookup_insert_other.
    eexists. split; [done |].
    unfold Event_value, bind.
    by erewrite the_event_Some
      by (apply lookup_insert_other; [done |]; by eapply lookup_insert_same).
  - intros x X Hx. unfold Event_fail, bind.
    rewrite (the_event_Some _ _ _ Hme). unfold triggered.
    rewrite bool_decide_eq_false_2 by (rewrite Hv; tauto).
    unfold is_exception. rewrite Hx. simpl.
    rewrite (update_Some _ _ _ _ Hme).
    rewrite (schedule_Some _ _ _ _ E) by by apply lookup_insert_other.
    eexists. split; [done |].
    unfold Event_value, bind.
    by erewrite the_event_Some
      by (apply lookup_insert_other; [done |]; by eapply lookup_insert_same).
Qed.

(** [trigger] with an event that has no [ok] yet (it was never triggered)
    raises [AttributeError] before it assigns anything: the target is not
    changed, [PENDING] is not copied, nothing is scheduled. *)
Theorem trigger_needs_a_triggered_event self event s e :
  s !! event = Some (OEvent e) ->
  ok e = None ->
  Event_trigger self event s =
    (Raised (length s), s ++ [OExc (Exc "AttributeError" [VStr "ok"] None)]).
Proof.
  intros He Hok. unfold Event_trigger, bind.
  rewrite (the_event_Some _ _ _ He). unfold attr_ok. by rewrite Hok.
Qed.

(** [_interrupt] does nothing when the process has terminated in the
    meantime.  For a live process it takes the first registration of the
    process's [_resume] off the callbacks of its target and resumes the
    process with the interruption itself (not with the event it was called
    with). *)
Theorem interrupt_delivery fuel self event s i process p :
  s !! self = Some (OEvent i) ->
  variant_of i = IsInterruption (Some process) ->
  s !! process = Some (OEvent p) ->
  if decide (_value p <> PENDING) then
    Interruption__interrupt fuel self event s = (Ok tt, s)
  else
    forall g target t cbs,
      variant_of p = IsProcess g (Some target) ->
      s !! target = Some (OEvent t) ->
      callbacks t = Some cbs ->
      cb_resume process ∈ cbs ->
      Interruption__interrupt fuel self event s =
        Process__resume fuel process self
          (<[target := OEvent (set_callbacks (Some (list_remove (cb_resume process) cbs)) t)]> s).
Proof.
  intros Hi Hv Hp. destruct (decide (_value p <> PENDING)) as [Hd | Hd].
  - unfold Interruption__interrupt, bind. rewrite (the_event_Some _ _ _ Hi), Hv.
    rewrite (the_event_Some _ _ _ Hp). unfold triggered.
    by rewrite bool_decide_eq_true_2.
  - intros g target t cbs Hvp Ht Hcbs Hin.
    unfold Interruption__interrupt, bind. rewrite (the_event_Some _ _ _ Hi), Hv.
    rewrite (the_event_Some _ _ _ Hp). unfold triggered.
    rewrite bool_decide_eq_false_2 by done.
    unfold Process_target, bind. rewrite (the_event_Some _ _ _ Hp), Hvp.
    unfold ret at 1. cbv beta iota.
    rewrite (the_event_Some _ _ _ Ht), Hcbs. rewrite decide_True by done.
    rewrite (update_Some _ _ _ _ Ht). unfold on_callbacks. by rewrite Hcbs.
Qed.

(** A [Timeout] is born triggered, so the [succeed] and [fail] that it
    inherits from [Event] always raise on it and change nothing.  They
    raise [RuntimeError] when the timeout can be printed for the message,
    as it can when its value is [None], a number or a string; the value is
    printed with [%], so that for a tuple of several items, or of none,
    [TypeError] is raised instead. *)
Theorem Timeout_is_already_triggered env0 delay v s E :
  s !! env0 = Some (OEnv E) ->
  (0 <= delay)%Z ->
  exists s' X,
    Timeout__init__ env0 delay v s = (Ok (length s), s') /\
    (forall v',
       Event_succeed (length s) v' s' = (Raised (length s'), s' ++ [OExc X]) /\
       Event_fail (length s) v' s' = (Raised (length s'), s' ++ [OExc X])) /\
    match v with
    | VNone | VBool _ | VInt _ | VStr _ =>
        X = Exc "RuntimeError" [VStr "has already been triggered"] None
    | VTuple [] =>
        X = Exc "TypeError" [VStr "not enough arguments for format string"] None
    | VTuple (_ :: _ :: _) =>
        X = Exc "TypeError" [VStr "not all arguments converted during string formatting"]
                None
    | _ =>
        X = raised_with "RuntimeError" [VStr "has already been triggered"]
                        (VRef (length s)) s'
    end.
Proof.
  intros HE Hd. unfold Timeout__init__.
  rewrite (proj2 (Z.ltb_ge _ _)) by done.
  unfold bind, new.
  rewrite (schedule_Some _ _ _ _ E) by by apply lookup_old.
  assert (env0 <> length s) as Hne by by eapply bound_fresh.
  set (t := Event env0 (Some []) (Some v) (Some true) false (IsTimeout delay)).
  set (s' := <[env0 := _]> (s ++ [OEvent t])).
  assert (s' !! length s = Some (OEvent t)) as Ht
    by (apply lookup_insert_other; [done | apply lookup_new]).
  exists s', (raised_with "RuntimeError" [VStr "has already been triggered"]
                          (VRef (length s)) s').
  split; [done |]. split.
  - intros v'. split.
    + unfold Event_succeed. unfold bind at 1. rewrite (the_event_Some _ _ _ Ht).
      unfold triggered. rewrite bool_decide_eq_true_2 by done.
      apply raise_with_message.
    + unfold Event_fail. unfold bind at 1. rewrite (the_event_Some _ _ _ Ht).
      unfold triggered. rewrite bool_decide_eq_true_2 by done.
      apply raise_with_message.
  - unfold raised_with, percent, percent_operand, recursion_limit.
    rewrite (py_repr_event _ _ _ _ _ _ Ht). cbn [variant_of _value t].
    destruct v as [| b | z | str | r | d | [| w1 [| w2 l]]]; reflexivity.
Qed.

(** *** What the kernel does to an environment *)

Section Environments.

(** [Q] relates an environment before and after; it has to hold for what
    [schedule] does. *)
Variable Q : Environment -> Environment -> Prop.
Hypothesis Q_refl : forall E, Q E E.
Hypothesis Q_trans : forall E1 E2 E3, Q E1 E2 -> Q E2 E3 -> Q E1 E3.
Hypothesis Q_schedule : forall E t p e,
  Q E (Env (_now E) (_active_proc E) (_queue E ++ [(t, p, _eid E, e)]) (S (_eid E))).

#[local] Set Default Proof Using "Type Q_refl Q_trans Q_schedule".

Definition env_rel (s s' : state) : Prop :=
  forall r E, s !! r = Some (OEnv E) -> exists E', s' !! r = Some (OEnv E') /\ Q E E'.

Definition keeps {A} (m : M A) : Prop := forall s, env_rel s (m s).2.

Lemma env_rel_refl s : env_rel s s.
Proof. intros r E H. eauto. Qed.

Lemma env_rel_trans s1 s2 s3 : env_rel s1 s2 -> env_rel s2 s3 -> env_rel s1 s3.
Proof.
  intros H1 H2 r E H. destruct (H1 _ _ H) as (E' & H' & HQ).
  destruct (H2 _ _ H') as (E'' & H'' & HQ'). eauto.
Qed.

Lemma env_rel_alloc s o : env_rel s (s ++ [o]).
Proof. intros r E H. exists E. split; [by apply lookup_old | done]. Qed.

Lemma env_rel_insert_event s r e e' :
  s !! r = Some (OEvent e) -> env_rel s (<[r := OEvent e']> s).
Proof.
  intros H r0 E H0. exists E. split; [| done].
  apply lookup_insert_other; [| done]. intros ->. congruence.
Qed.

Lemma env_rel_insert_env s r E E' :
  s !! r = Some (OEnv E) -> Q E E' -> env_rel s (<[r := OEnv E']> s).
Proof.
  intros H HQ r0 E0 H0. destruct (decide (r = r0)) as [-> | Hne].
  - exists E'. split; [by eapply lookup_insert_same |]. by simplify_eq.
  - exists E0. split; [by apply lookup_insert_other | done].
Qed.

Lemma keeps_ret {A} (a : A) : keeps (ret a).
Proof. intros s. apply env_rel_refl. Qed.

Lemma keeps_bind {A B} (m : M A) (k : A -> M B) :
  keeps m -> (forall a, keeps (k a)) -> keeps (bind m k).
Proof.
  intros Hm Hk s. unfold bind. specialize (Hm s).
  destruct (m s) as [[a | x |] s']; simpl in *; [| done ..].
  eapply env_rel_trans; [done | apply Hk].
Qed.

Lemma keeps_try_except {A} (m : M A) (h : ref -> M A) :
  keeps m -> (forall x, keeps (h x)) -> keeps (try_except m h).
Proof.
  intros Hm Hh s. unfold try_except. specialize (Hm s).
  destruct (m s) as [[a | x |] s']; simpl in *; [done | | done].
  eapply env_rel_trans; [done | apply Hh].
Qed.

Lemma keeps_out_of_fuel {A} : keeps (@out_of_fuel A).
Proof. intros s. apply env_rel_refl. Qed.

Lemma keeps_raise {A} ty a : keeps (@raise A ty a).
Proof. intros s. apply env_rel_alloc. Qed.

Lemma keeps_new f : keeps (new f).
Proof. intros s. apply env_rel_alloc. Qed.

Lemma keeps_the_event r : keeps (the_event r).
Proof.
  intros s. unfold the_event.
  destruct (s !! r) as [[] |]; try apply keeps_raise. apply env_rel_refl.
Qed.

Lemma keeps_the_env r : keeps (the_env r).
Proof.
  intros s. unfold the_env.
  destruct (s !! r) as [[] |]; try apply keeps_raise. apply env_rel_refl.
Qed.

Lemma keeps_attr_ok e : keeps (attr_ok e).
Proof. unfold attr_ok. destruct (ok e); [apply keeps_ret | apply keeps_raise]. Qed.

Lemma keeps_percent_s v : keeps (percent_s v).
Proof.
  intros s. unfold percent_s. destruct (percent v s); [apply env_rel_refl | apply keeps_raise].
Qed.

Lemma keeps_is_exception v : keeps (is_exception v).
Proof.
  intros s. unfold is_exception.
  destruct v; try apply env_rel_refl. destruct (s !! r) as [[] |]; apply env_rel_refl.
Qed.

Lemma keeps_update r f : keeps (update r f).
Proof.
  intros s. unfold update.
  destruct (s !! r) as [[e | |] |] eqn:H; try apply keeps_raise.
  by eapply env_rel_insert_event.
Qed.

Lemma keeps_update_env r f : (forall E, Q E (f E)) -> keeps (update_env r f).
Proof.
  intros Hf s. unfold update_env.
  destruct (s !! r) as [[| | E] |] eqn:H; try apply keeps_raise.
  by eapply env_rel_insert_env.
Qed.

Lemma keeps_for_each {A} (l : list A) (body : A -> M unit) :
  (forall x, keeps (body x)) -> keeps (for_each l body).
Proof.
  intros Hb. induction l as [| x l IH]; simpl; [apply keeps_ret |].
  apply keeps_bind; auto.
Qed.

Lemma keeps_schedule environment event priority delay :
  keeps (schedule environment event priority delay).
Proof. unfold schedule. apply keeps_update_env. intros E. apply Q_schedule. Qed.

Create HintDb keeps discriminated.

#[local] Hint Resolve keeps_ret keeps_out_of_fuel keeps_raise keeps_new keeps_the_event
  keeps_the_env keeps_attr_ok keeps_percent_s keeps_is_exception keeps_update
  keeps_schedule : keeps.

Ltac keeps_step :=
  match goal with
  | |- keeps (bind _ _) => apply keeps_bind; [| intros ?]
  | |- keeps (try_except _ _) => apply keeps_try_except; [| intros ?]
  | |- keeps (for_each _ _) => apply keeps_for_each; intros ?
  | |- keeps (match ?x with _ => _ end) => destruct x
  | |- keeps (if ?b then _ else _) => destruct b
  | |- keeps _ => solve [auto with keeps]
  end.
Ltac keeps_tac := repeat keeps_step.

Lemma keeps_Event_value self : keeps (Event_value self).
Proof. unfold Event_value. keeps_tac. Qed.

Lemma keeps_Event_trigger self event : keeps (Event_trigger self event).
Proof. unfold Event_trigger. keeps_tac. Qed.

Lemma keeps_Event_succeed self v : keeps (Event_succeed self v).
Proof. unfold Event_succeed. keeps_tac. Qed.

Lemma keeps_Event_fail self x : keeps (Event_fail self x).
Proof. unfold Event_fail. keeps_tac. Qed.

Lemma keeps_Timeout__init__ env0 delay v : keeps (Timeout__init__ env0 delay v).
Proof. unfold Timeout__init__. keeps_tac. Qed.

Lemma keeps_Initialize__init__ env0 process : keeps (Initialize__init__ env0 process).
Proof. unfold Initialize__init__. keeps_tac. Qed.

#[local] Hint Resolve keeps_Event_value keeps_Event_trigger keeps_Event_succeed
  keeps_Event_fail keeps_Timeout__init__ keeps_Initialize__init__ : keeps.

Lemma keeps_Interruption__init__ process cause : keeps (Interruption__init__ process cause).
Proof. unfold Interruption__init__. keeps_tac. Qed.

Lemma keeps_Process__init__ env0 generator : keeps (Process__init__ env0 generator).
Proof. unfold Process__init__, Event__init__. keeps_tac. Qed.

#[local] Hint Resolve keeps_Interruption__init__ keeps_Process__init__ : keeps.

Lemma keeps_Process_interrupt self cause : keeps (Process_interrupt self cause).
Proof. unfold Process_interrupt. keeps_tac. Qed.

Lemma keeps_Process_is_alive self : keeps (Process_is_alive self).
Proof. unfold Process_is_alive. keeps_tac. Qed.

Lemma keeps_Process_target self : keeps (Process_target self).
Proof. unfold Process_target. keeps_tac. Qed.

Lemma keeps_Condition__check self event : keeps (Condition__check self event).
Proof. unfold Condition__check. keeps_tac. Qed.

#[local] Hint Resolve keeps_Process_interrupt keeps_Process_is_alive keeps_Process_target
  keeps_Condition__check : keeps.

Lemma keeps_Condition__init__ env0 evaluate events :
  keeps (Condition__init__ env0 evaluate events).
Proof. unfold Condition__init__. keeps_tac. Qed.

#[local] Hint Resolve keeps_Condition__init__ : keeps.

Lemma keeps_call o : keeps (call o).
Proof. destruct o; simpl; unfold Event__init__; keeps_tac. Qed.

Lemma keeps_raise_value {A} x : keeps (@raise_value A x).
Proof. unfold raise_value. keeps_tac. intros s. apply env_rel_refl. Qed.

#[local] Hint Resolve keeps_call keeps_raise_value : keeps.

Lemma keeps_run_segment c : keeps (run_segment c).
Proof.
  induction c as [v g | a | x | o k IH]; simpl; [keeps_tac .. |].
  intros s. pose proof (keeps_call o s) as Hc.
  destruct (call o s) as [r s']. eapply env_rel_trans; [done | apply IH].
Qed.

Lemma keeps_advance self c : keeps (advance self c).
Proof.
  intros s. unfold advance. pose proof (keeps_run_segment c s) as Hc.
  destruct (run_segment c s) as [[[v g] | x |] s']; simpl in *; [| | done].
  - eapply env_rel_trans; [exact Hc |]. clear Hc. revert s'.
    change (keeps (update self (set_generator (Some g)) ;;; ret v)). keeps_tac.
  - eapply env_rel_trans; [done |].
    pose proof (keeps_update self (set_generator None) s') as Hu.
    unfold bind. destruct (update self (set_generator None) s') as [[] ?]; done.
Qed.

#[local] Hint Resolve keeps_run_segment keeps_advance : keeps.

Lemma keeps_generator_send self v : keeps (generator_send self v).
Proof. unfold generator_send. keeps_tac. Qed.

Lemma keeps_generator_throw self v : keeps (generator_throw self v).
Proof. unfold generator_throw. keeps_tac; intros s; apply env_rel_refl. Qed.

#[local] Hint Resolve keeps_generator_send keeps_generator_throw : keeps.

(** Up to here the active process is not written. *)
Lemma keeps_deliver self event : keeps (deliver self event).
Proof. unfold deliver. keeps_tac. Qed.

(** The driver writes the active process; with a [Q] that allows it, the
    callbacks keep [Q] too. *)
Hypothesis Q_active : forall E p, Q E (set_active_proc p E).

#[local] Set Default Proof Using "Type Q_refl Q_trans Q_schedule Q_active".

#[local] Hint Resolve keeps_deliver : keeps.

Lemma keeps_terminate self x : keeps (terminate self x).
Proof.
  intros s. unfold terminate.
  destruct (s !! x) as [[| e |] |]; try apply env_rel_refl.
  destruct (decide _); revert s.
  - change (keeps (update self (set_outcome true (Some (hd VNone (args e)))) ;;;
                   let! me := the_event self in schedule (env me) self NORMAL 0)).
    keeps_tac.
  - change (keeps (update self (set_ok false) ;;;
                   match construct (exc_type e) (args e) with
                   | Built a =>
                       let! v := new (fun _ => OExc (Exc (exc_type e) a (Some x))) in
                       update self (set_value (Some (VRef v))) ;;;
                       let! me := the_event self in schedule (env me) self NORMAL 0
                   | Refused ty a => raise ty a
                   end)).
    keeps_tac.
Qed.

#[local] Hint Resolve keeps_terminate : keeps.

Lemma keeps_invalid_yield {A} self v : keeps (@invalid_yield A self v).
Proof. unfold invalid_yield. keeps_tac. Qed.

#[local] Hint Resolve keeps_invalid_yield : keeps.

Lemma keeps_resume_loop fuel self event : keeps (resume_loop fuel self event).
Proof.
  revert event. induction fuel as [| fuel IH]; intros event; simpl; [keeps_tac |].
  apply keeps_bind; [keeps_tac |]. intros [v |]; [| keeps_tac].
  destruct v; try solve [keeps_tac].
  intros s. destruct (s !! r) as [[e | |] |]; try apply keeps_invalid_yield.
  destruct (callbacks e); [| apply IH].
  revert s. change (keeps (update r (on_callbacks (fun cbs => cbs ++ [cb_resume self])) ;;;
                           ret (Some r))).
  keeps_tac.
Qed.

#[local] Hint Resolve keeps_resume_loop : keeps.

Lemma keeps_Process__resume fuel self event : keeps (Process__resume fuel self event).
Proof.
  unfold Process__resume. keeps_tac; apply keeps_update_env; intros E; apply Q_active.
Qed.

#[local] Hint Resolve keeps_Process__resume : keeps.

Lemma keeps_Interruption__interrupt fuel self event :
  keeps (Interruption__interrupt fuel self event).
Proof. unfold Interruption__interrupt. keeps_tac. Qed.

Lemma keeps_Condition__get_values fuel self : keeps (Condition__get_values fuel self).
Proof.
  revert self. induction fuel as [| fuel IH]; intros self; simpl; [keeps_tac |].
  apply keeps_bind; [keeps_tac |]. intros me.
  destruct (variant_of me) as [| | | | | evaluate events count]; try solve [keeps_tac].
  generalize (@nil (ref * option value)).
  induction events as [| event events IHe]; intros values; [keeps_tac |].
  apply keeps_bind; [keeps_tac |]. intros e.
  destruct (is_Condition e); [apply keeps_bind; auto |].
  destruct (processed e); auto.
Qed.

#[local] Hint Resolve keeps_Interruption__interrupt keeps_Condition__get_values : keeps.

Lemma keeps_Condition__collect_values fuel self event :
  keeps (Condition__collect_values fuel self event).
Proof. unfold Condition__collect_values. keeps_tac. Qed.

#[local] Hint Resolve keeps_Condition__collect_values : keeps.

Lemma keeps_invoke fuel cb event : keeps (invoke fuel cb event).
Proof. destruct cb; simpl; auto with keeps. Qed.

End Environments.

Lemma grows_refl E : grows E E.
Proof. by repeat split. Qed.

Lemma grows_trans E1 E2 E3 : grows E1 E2 -> grows E2 E3 -> grows E1 E3.
Proof.
  intros (H1 & H2 & H3) (K1 & K2 & K3).
  repeat split; [congruence | by etrans | lia].
Qed.

Lemma grows_schedule E t p e :
  grows E (Env (_now E) (_active_proc E) (_queue E ++ [(t, p, _eid E, e)]) (S (_eid E))).
Proof. repeat split; simpl; [by apply prefix_app_r | lia]. Qed.

Lemma grows_active E p : grows E (set_active_proc p E).
Proof. by repeat split. Qed.

Lemma calm_refl E : calm E E.
Proof. split; [apply grows_refl | done]. Qed.

Lemma calm_trans E1 E2 E3 : calm E1 E2 -> calm E2 E3 -> calm E1 E3.
Proof. intros [H1 H2] [K1 K2]. split; [by eapply grows_trans | congruence]. Qed.

Lemma calm_schedule E t p e :
  calm E (Env (_now E) (_active_proc E) (_queue E ++ [(t, p, _eid E, e)]) (S (_eid E))).
Proof. split; [apply grows_schedule | done]. Qed.

(** No method of [events.py], called from outside or as a callback, moves
    the clock, removes or reorders a queue entry, or lowers the insertion
    counter of any environment. *)
Theorem events_only_append_to_the_queue s r E :
  s !! r = Some (OEnv E) ->
  (forall o, exists E', (call o s).2 !! r = Some (OEnv E') /\ grows E E') /\
  (forall fuel cb event,
     exists E', (invoke fuel cb event s).2 !! r = Some (OEnv E') /\ grows E E').
Proof.
  intros H. split.
  - intros o. by apply (keeps_call grows grows_refl grows_trans grows_schedule o s).
  - intros fuel cb event.
    by apply (keeps_invoke grows grows_refl grows_trans grows_schedule grows_active
                fuel cb event s).
Qed.

(** While [_resume] runs the generator, whatever calls the body makes, the
    process stays the active process and the clock stands. *)
Theorem generator_runs_as_active_process self event s me E :
  s !! self = Some (OEvent me) ->
  s !! env me = Some (OEnv E) ->
  exists E',
    (deliver self (VRef event) (<[env me := OEnv (set_active_proc (Some self) E)]> s)).2
      !! env me = Some (OEnv E') /\
    _active_proc E' = Some self /\ _now E' = _now E.
Proof.
  intros Hme HE.
  destruct (keeps_deliver calm calm_refl calm_trans calm_schedule self (VRef event)
              (<[env me := OEnv (set_active_proc (Some self) E)]> s) (env me)
              (set_active_proc (Some self) E))
    as (E' & HE' & [(Hnow & _) Hact]); [by eapply lookup_insert_same |].
  exists E'. split; [done |]. split; [by rewrite Hact | by rewrite Hnow].
Qed.

(** A generator that has yielded is suspended: its process holds the state
    it is suspended in. *)
Lemma advance_Ok self c (s : state) v s1 me g t :
  s !! self = Some (OEvent me) ->
  variant_of me = IsProcess g t ->
  advance self c s = (Ok v, s1) ->
  exists me1 g1 t1, s1 !! self = Some (OEvent me1) /\ variant_of me1 = IsProcess (Some g1) t1.
Proof using Type construct.
  intros Hme Hv H. unfold advance in H.
  pose proof (sound_run_segment c s) as [Hext _].
  destruct (run_segment c s) as [[[v' g'] | x |] s'] eqn:Hrun; simpl in Hext.
  - apply bind_Ok in H as (? & s2 & H2 & H).
    apply update_Ok in H2 as (me' & Hme' & ->).
    unfold ret in H. injection H as _ <-.
    destruct (extends_event _ _ _ _ Hext Hme) as (me'' & Hme'' & Hle).
    rewrite Hme' in Hme''. injection Hme'' as <-.
    destruct Hle as (_ & _ & _ & _ & Hcl). rewrite Hv in Hcl.
    destruct (variant_of me') as [| | | | g2 t2 |] eqn:Hv'; simpl in Hcl; try done.
    exists (set_generator (Some g') me'), g', t2.
    split; [by eapply lookup_insert_same |].
    unfold set_generator. by rewrite Hv'.
  - unfold bind in H. by destruct (update self (set_generator None) s') as [[] ?].
  - discriminate.
Qed.

Lemma deliver_Ok self event (s : state) v s1 :
  deliver self event s = (Ok v, s1) ->
  exists me1 g1 t1, s1 !! self = Some (OEvent me1) /\ variant_of me1 = IsProcess (Some g1) t1.
Proof using Type construct.
  intros H. unfold deliver in H. destruct event as [| | | | r | |]; try discriminate.
  apply bind_Ok in H as (e & ? & H0 & H). apply the_event_Ok in H0 as [-> He].
  apply bind_Ok in H as (o & s0 & H0 & H).
  assert (s0 = s) as ->.
  { unfold attr_ok in H0. destruct (ok e); [| discriminate]. unfold ret in H0. congruence. }
  destruct o.
  - unfold generator_send in H.
    apply bind_Ok in H as (me & ? & H1 & H). apply the_event_Ok in H1 as [-> Hme].
    destruct (variant_of me) as [| | | | [g |] t |] eqn:Hv; try discriminate.
    by eapply advance_Ok.
  - apply bind_Ok in H as (? & s2 & H2 & H). clear H2.
    apply bind_Ok in H as (e2 & ? & H2 & H). apply the_event_Ok in H2 as [-> _].
    unfold generator_throw in H.
    apply bind_Ok in H as (me & ? & H1 & H). apply the_event_Ok in H1 as [-> Hme].
    destruct (variant_of me) as [| | | | gen t |] eqn:Hv; try discriminate.
    apply bind_Ok in H as (b & s3 & Hb & H).
    assert (s3 = s2) as ->.
    { destruct (_value e2) as [w |]; [| unfold ret in Hb; congruence].
      unfold is_exception in Hb.
      destruct w; try congruence. destruct (s2 !! r0) as [[] |]; congruence. }
    destruct (_value e2) as [[| | | | thrown | |] |], b; try discriminate.
    destruct gen as [g |]; [| discriminate].
    by eapply advance_Ok.
Qed.

(** When the generator yields something that is not an event, [_resume]
    raises out of its loop: the two assignments after the loop do not
    happen, so the store is as the generator left it and the process is
    still the active process.  What is raised is [RuntimeError] when the
    message can be built, that is when the yielded value can be printed and
    [_describe_frame] finds the source file of the generator; else it is
    what these raise, as [TypeError] for [yield a, b]. *)
Theorem invalid_yield_raises fuel self event s me E v s1 :
  s !! self = Some (OEvent me) ->
  s !! env me = Some (OEnv E) ->
  deliver self (VRef event) (<[env me := OEnv (set_active_proc (Some self) E)]> s)
    = (Ok v, s1) ->
  is_event s1 v = false ->
  exists me1 g t E1,
    s1 !! self = Some (OEvent me1) /\
    variant_of me1 = IsProcess (Some g) t /\
    Process__resume (S fuel) self event s =
      (Raised (length s1),
       s1 ++ [OExc match percent v s1, _describe_frame g with
                   | Fails ty a, _ => Exc ty a None
                   | Printed, Fails ty a => Exc ty a None
                   | Printed, Printed => Exc "RuntimeError" [VStr "Invalid yield value"] None
                   end]) /\
    s1 !! env me = Some (OEnv E1) /\ _active_proc E1 = Some self.
Proof.
  intros Hme HE Hd Hv.
  destruct (deliver_Ok _ _ _ _ _ Hd) as (me1 & g & t & Hme1 & Hv1).
  destruct (keeps_deliver calm calm_refl calm_trans calm_schedule self (VRef event)
              (<[env me := OEnv (set_active_proc (Some self) E)]> s) (env me)
              (set_active_proc (Some self) E))
    as (E1 & HE1 & [_ Hact]); [by eapply lookup_insert_same |].
  rewrite Hd in HE1. simpl in HE1, Hact.
  exists me1, g, t, E1. do 2 (split; [done |]). split; [| done].
  assert (forall A, @invalid_yield A self v s1 =
            (Raised (length s1),
             s1 ++ [OExc match percent v s1, _describe_frame g with
                         | Fails ty a, _ => Exc ty a None
                         | Printed, Fails ty a => Exc ty a None
                         | Printed, Printed =>
                             Exc "RuntimeError" [VStr "Invalid yield value"] None
                         end])) as Hinv.
  { intros A. unfold invalid_yield. unfold bind at 1, percent_s.
    destruct (percent v s1); [| done].
    unfold bind. rewrite (the_event_Some _ _ _ Hme1), Hv1.
    by destruct (_describe_frame g). }
  unfold Process__resume. unfold bind at 1. rewrite (the_event_Some _ _ _ Hme).
  unfold bind at 1. rewrite (update_env_Some _ _ _ _ HE).
  unfold bind at 1.
  assert (resume_loop (S fuel) self (VRef event)
            (<[env me := OEnv (set_active_proc (Some self) E)]> s) =
          @invalid_yield (option ref) self v s1) as ->; [| by rewrite Hinv].
  cbn [resume_loop]. unfold bind at 1, try_except, bind at 1.
  rewrite Hd. unfold ret at 1. cbv beta iota.
  unfold is_event in Hv.
  destruct v as [| | | | r | |]; try done.
  destruct (s1 !! r) as [[| |] |]; done.
Qed.

(** C10 (the code does not always do this): when the generator lets an
    error [x] other than [StopIteration] escape, [_resume] sets [ok = False]
    and then calls the class of [x] on the [args] of [x].  When that call
    returns, the step ends normally with the process failed and scheduled;
    its value is the new exception object, not [x], of the class of [x] and
    with [x] as [__cause__].  When the class does not take the [args] of its
    own instance, the call raises, and this error leaves [_resume]: the
    process has [ok] but not the value, is not scheduled, [_target] is not
    assigned and the process is still the active process. *)
Theorem failed_process_gets_fresh_copy fuel self event s me E x s1 X :
  s !! self = Some (OEvent me) ->
  s !! env me = Some (OEnv E) ->
  deliver self (VRef event) (<[env me := OEnv (set_active_proc (Some self) E)]> s)
    = (Raised x, s1) ->
  s1 !! x = Some (OExc X) ->
  exc_type X <> "StopIteration"%string ->
  exists me1 E1,
    s1 !! self = Some (OEvent me1) /\
    s1 !! env me = Some (OEnv E1) /\
    _active_proc E1 = Some self /\
    match construct (exc_type X) (args X) with
    | Built a =>
        exists s' me',
          Process__resume (S fuel) self event s = (Ok tt, s') /\
          s' !! self = Some (OEvent me') /\
          ok me' = Some false /\
          _value me' = Some (VRef (length s1)) /\
          s1 !! length s1 = None /\
          length s1 <> x /\
          s' !! length s1 = Some (OExc (Exc (exc_type X) a (Some x))) /\
          s' !! x = Some (OExc X) /\
          s' !! env me =
            Some (OEnv (Env (_now E1) None
                            (_queue E1 ++ [((_now E1 + 0)%Z, NORMAL, _eid E1, self)])
                            (S (_eid E1))))
    | Refused ty a =>
        Process__resume (S fuel) self event s =
          (Raised (length s1),
           <[self := OEvent (set_ok false me1)]> s1 ++ [OExc (Exc ty a None)])
    end.
Proof.
  intros Hme HE Hd Hx Hty.
  destruct (keeps_deliver calm calm_refl calm_trans calm_schedule self (VRef event)
              (<[env me := OEnv (set_active_proc (Some self) E)]> s) (env me)
              (set_active_proc (Some self) E))
    as (E1 & HE1 & [_ Hact]); [by eapply lookup_insert_same |].
  rewrite Hd in HE1. simpl in HE1, Hact.
  set (s0 := <[env me := _]> s) in Hd.
  assert (env me <> self) as Hne by (intros Heq; rewrite Heq in HE; congruence).
  assert (s0 !! self = Some (OEvent me)) as Hme0 by by apply lookup_insert_other.
  pose proof (sound_deliver self (VRef event) s0) as [Hext _].
  rewrite Hd in Hext. simpl in Hext.
  destruct (extends_event _ _ _ _ Hext Hme0) as (me1 & Hme1 & Hle).
  assert (env me1 = env me) as Henv by apply Hle.
  pose proof (lookup_lt_Some _ _ _ Hx) as Hxlt.
  pose proof (lookup_lt_Some _ _ _ Hme1) as Hselflt.
  pose proof (lookup_lt_Some _ _ _ HE1) as Henvlt.
  exists me1, E1. do 3 (split; [done |]).
  assert (forall r s2,
            terminate self x s1 = (r, s2) ->
            resume_loop (S fuel) self (VRef event) s0 =
              (match r with Ok _ => Ok None | Raised y => Raised y | OutOfFuel => OutOfFuel end,
               s2)) as Hloop.
  { intros r s2 Hterm. cbn [resume_loop]. unfold bind at 1, try_except, bind at 1.
    change (_ s0) with (deliver self (VRef event) s0) at 1.
    rewrite Hd. unfold bind. rewrite Hterm. by destruct r. }
  destruct (construct (exc_type X) (args X)) as [a | ty a] eqn:Hc.
  - set (copy := OExc (Exc (exc_type X) a (Some x))).
    set (me2 := set_outcome false (Some (VRef (length s1))) me1).
    set (E2 := Env (_now E1) (_active_proc E1)
                   (_queue E1 ++ [((_now E1 + 0)%Z, NORMAL, _eid E1, self)]) (S (_eid E1))).
    set (s2 := <[env me := OEnv E2]> (<[self := OEvent me2]> (s1 ++ [copy]))).
    assert (terminate self x s1 = (Ok tt, s2)) as Hterm.
    { rewrite (terminate_rebuilt _ _ _ _ _ _ Hx Hty Hc Hme1).
      unfold bind, new. fold copy.
      rewrite (update_Some _ _ me1) by by apply lookup_old. fold me2.
      rewrite (the_event_Some _ me2) by by eapply lookup_insert_same, lookup_old.
      assert (env me2 = env me) as -> by done.
      by rewrite (schedule_Some _ _ _ _ E1)
        by (apply lookup_insert_other; [done | by apply lookup_old]). }
    apply Hloop in Hterm.
    assert (s2 !! self = Some (OEvent me2)) as Hme2.
    { apply lookup_insert_other; [done |]. by eapply lookup_insert_same, lookup_old. }
    assert (s2 !! env me = Some (OEnv E2)) as HE2.
    { eapply lookup_insert_same, lookup_insert_other; [done |]. by apply lookup_old. }
    set (me3 := set_target None me2).
    exists (<[env me := OEnv (set_active_proc None E2)]> (<[self := OEvent me3]> s2)), me3.
    split; [| split; [| split; [| split; [| split; [| split; [| split; [| split]]]]]]].
    + unfold Process__resume, bind. rewrite (the_event_Some _ _ _ Hme).
      rewrite (update_env_Some _ _ _ _ HE). fold s0. rewrite Hterm.
      rewrite (update_Some _ _ _ _ Hme2). fold me3.
      rewrite (the_event_Some _ me3) by by eapply lookup_insert_same.
      assert (env me3 = env me) as ->.
      { unfold me3, set_target. by destruct (variant_of me2). }
      by rewrite (update_env_Some _ _ E2) by by apply lookup_insert_other.
    + apply lookup_insert_other; [done |]. by eapply lookup_insert_same.
    + unfold me3, set_target. by destruct (variant_of me2).
    + unfold me3, set_target. by destruct (variant_of me2).
    + by apply lookup_ge_None_2.
    + lia.
    + do 4 (apply lookup_insert_other; [lia |]). apply lookup_new.
    + assert (env me <> x) by (intros Heq; rewrite Heq in HE1; congruence).
      assert (self <> x) by (intros Heq; rewrite Heq in Hme1; congruence).
      do 4 (apply lookup_insert_other; [done |]). by apply lookup_old.
    + by eapply lookup_insert_same, lookup_insert_other.
  - pose proof (Hloop _ _ (terminate_refused _ _ _ _ _ _ _ Hx Hty Hc Hme1)) as Hraise.
    unfold Process__resume. unfold bind at 1. rewrite (the_event_Some _ _ _ Hme).
    unfold bind at 1. rewrite (update_env_Some _ _ _ _ HE). fold s0.
    unfold bind at 1. by rewrite Hraise.
Qed.

(** When the generator returns, the process succeeds with the returned
    value ([None] for a bare return) and is scheduled at [now] with priority
    [NORMAL]; no new exception object is made. *)
Theorem returned_value_becomes_process_value fuel self event s me E x s1 X :
  s !! self = Some (OEvent me) ->
  s !! env me = Some (OEnv E) ->
  deliver self (VRef event) (<[env me := OEnv (set_active_proc (Some self) E)]> s)
    = (Raised x, s1) ->
  s1 !! x = Some (OExc X) ->
  exc_type X = "StopIteration"%string ->
  exists s' me' E1,
    Process__resume (S fuel) self event s = (Ok tt, s') /\
    length s' = length s1 /\
    s' !! self = Some (OEvent me') /\
    ok me' = Some true /\
    _value me' = Some (hd VNone (args X)) /\
    s1 !! env me = Some (OEnv E1) /\
    s' !! env me =
      Some (OEnv (Env (_now E1) None
                      (_queue E1 ++ [((_now E1 + 0)%Z, NORMAL, _eid E1, self)])
                      (S (_eid E1)))).
Proof.
  intros Hme HE Hd Hx Hty.
  set (s0 := <[env me := _]> s) in Hd.
  assert (env me <> self) as Hne by (intros Heq; rewrite Heq in HE; congruence).
  assert (s0 !! self = Some (OEvent me)) as Hme0 by by apply lookup_insert_other.
  assert (s0 !! env me = Some (OEnv (set_active_proc (Some self) E))) as HE0
    by by eapply lookup_insert_same.
  pose proof (sound_deliver self (VRef event) s0) as [Hext _].
  rewrite Hd in Hext. simpl in Hext.
  destruct (extends_event _ _ _ _ Hext Hme0) as (me1 & Hme1 & Hle).
  destruct (extends_env _ _ _ _ Hext HE0) as (E1 & HE1).
  assert (env me1 = env me) as Henv by apply Hle.
  set (me2 := set_outcome true (Some (hd VNone (args X))) me1).
  set (E2 := Env (_now E1) (_active_proc E1)
                 (_queue E1 ++ [((_now E1 + 0)%Z, NORMAL, _eid E1, self)]) (S (_eid E1))).
  set (s2 := <[env me := OEnv E2]> (<[self := OEvent me2]> s1)).
  assert (terminate self x s1 = (Ok tt, s2)) as Hterm.
  { unfold terminate. rewrite Hx. rewrite decide_True by done.
    unfold bind. rewrite (update_Some _ _ _ _ Hme1). fold me2.
    rewrite (the_event_Some _ me2) by by eapply lookup_insert_same.
    assert (env me2 = env me) as -> by done.
    by rewrite (schedule_Some _ _ _ _ E1) by by apply lookup_insert_other. }
  assert (resume_loop (S fuel) self (VRef event) s0 = (Ok None, s2)) as Hloop.
  { simpl. unfold bind at 1, try_except, bind at 1.
    change (_ s0) with (deliver self (VRef event) s0) at 1.
    rewrite Hd. unfold bind. by rewrite Hterm. }
  assert (s2 !! self = Some (OEvent me2)) as Hme2.
  { apply lookup_insert_other; [done |]. by eapply lookup_insert_same. }
  assert (s2 !! env me = Some (OEnv E2)) as HE2.
  { eapply lookup_insert_same. by apply lookup_insert_other. }
  eexists _, (set_target None me2), E1.
  split; [by eapply (resume_exit _ _ _ _ _ _ _ _ me2 E2) |].
  split; [unfold s2; by rewrite !length_insert |].
  split; [apply lookup_insert_other; [done |]; by eapply lookup_insert_same |].
  destruct (set_target_fields None me2) as (Hv & _ & _).
  split; [unfold set_target; by destruct (variant_of me2) |].
  split; [by rewrite Hv |]. split; [done |].
  by eapply lookup_insert_same, lookup_insert_other.
Qed.

(** The [Interruption] that [interrupt(cause)] schedules carries an
    [Interrupt] whose [cause] is the argument; on an exception without
    arguments [cause] raises [IndexError]. *)
Theorem interrupt_cause_round_trip self cause s p E :
  s !! self = Some (OEvent p) ->
  _value p = PENDING ->
  s !! env p = Some (OEnv E) ->
  _active_proc E <> Some self ->
  (exists s' i,
     Process_interrupt self cause s = (Ok tt, s') /\
     s' !! S (length s) = Some (OEvent i) /\
     _value i = Some (VRef (length s)) /\
     Interrupt_cause (length s) s' = (Ok cause, s')) /\
  (forall x X, s !! x = Some (OExc X) -> args X = [] ->
     Interrupt_cause x s =
       (Raised (length s),
        s ++ [OExc (Exc "IndexError" [VStr "tuple index out of range"] None)])).
Proof.
  intros Hp Hv HE Hact. split.
  - unfold Process_interrupt, Interruption__init__, bind, new.
    rewrite (the_event_Some _ _ _ Hp).
    set (x := OExc (Exc "Interrupt" [cause] None)).
    set (i := OEvent _).
    assert (length (s ++ [x]) = S (length s)) as Hlen by (rewrite length_app; simpl; lia).
    pose proof (lookup_lt_Some _ _ _ HE) as Hlt.
    rewrite (the_event_Some _ p) by by do 2 apply lookup_old.
    unfold triggered. rewrite bool_decide_eq_false_2 by (rewrite Hv; tauto).
    rewrite (the_env_Some _ E) by by do 2 apply lookup_old.
    rewrite decide_False by done.
    erewrite update_Some by apply lookup_new.
    erewrite schedule_Some
      by (apply lookup_insert_other; [lia | by do 2 apply lookup_old]).
    unfold ret. do 2 eexists. split; [done |].
    split; [| split].
    + apply lookup_insert_other; [lia |]. rewrite <- Hlen.
      eapply lookup_insert_same, lookup_new.
    + done.
    + match goal with
      | |- Interrupt_cause _ ?s' = _ => assert (s' !! length s = Some x) as Hl
      end.
      { do 2 (apply lookup_insert_other; [lia |]). apply lookup_old, lookup_new. }
      unfold Interrupt_cause. by rewrite Hl.
  - intros x X Hx Ha. unfold Interrupt_cause. by rewrite Hx, Ha.
Qed.

(** No call and no callback ever takes something back from an event: it
    keeps its environment and its class (a condition its predicate and its
    list of sub-events), stays defused once defused, processed once
    processed, and keeps an [ok] once it has one.  No exception object is
    ever changed. *)
Theorem kernel_never_goes_back s :
  (forall r e, s !! r = Some (OEvent e) ->
     (forall o, exists e', (call o s).2 !! r = Some (OEvent e') /\ event_le e e') /\
     (forall fuel cb event,
        exists e', (invoke fuel cb event s).2 !! r = Some (OEvent e') /\ event_le e e')) /\
  (forall r x, s !! r = Some (OExc x) ->
     (forall o, (call o s).2 !! r = Some (OExc x)) /\
     (forall fuel cb event, (invoke fuel cb event s).2 !! r = Some (OExc x))).
Proof.
  split.
  - intros r e H. split.
    + intros o. eapply extends_event; [apply sound_call | done].
    + intros fuel cb event. eapply extends_event; [apply sound_invoke | done].
  - intros r x H. split.
    + intros o. eapply extends_exc; [apply sound_call | done].
    + intros fuel cb event. eapply extends_exc; [apply sound_invoke | done].
Qed.


(** The run of [_check] with a successful sub-event on a pending
    condition. *)
Lemma check_run self event s me evaluate events count E e :
  s !! self = Some (OEvent me) ->
  variant_of me = IsCondition evaluate events count ->
  _value me = PENDING ->
  s !! env me = Some (OEnv E) ->
  s !! event = Some (OEvent e) ->
  ok e = Some true ->
  Condition__check self event s =
    (Ok tt,
     if evaluate events (count + 1) then
       <[env me := OEnv (Env (_now E) (_active_proc E)
                             (_queue E ++ [((_now E + 0)%Z, NORMAL, _eid E, self)])
                             (S (_eid E)))]>
         (<[self := OEvent (set_outcome true (Some VNone) (set_count (count + 1) me))]> s)
     else <[self := OEvent (set_count (count + 1) me)]> s).
Proof.
  intros Hme Hv Hpend HE He Hok.
  unfold Condition__check, bind. rewrite (the_event_Some _ _ _ Hme).
  unfold triggered. rewrite bool_decide_eq_false_2 by (rewrite Hpend; tauto).
  rewrite Hv. rewrite (update_Some _ _ _ _ Hme).
  set (me1 := set_count (count + 1) me).
  assert (<[self := OEvent me1]> s !! self = Some (OEvent me1)) as Hme1
    by by eapply lookup_insert_same.
  assert (<[self := OEvent me1]> s !! event =
          Some (OEvent (if decide (self = event) then me1 else e))) as He1.
  { destruct (decide (self = event)) as [-> | Hne]; [done |].
    by apply lookup_insert_other. }
  rewrite (the_event_Some _ _ _ He1).
  assert (ok (if decide (self = event) then me1 else e) = Some true) as Hok1.
  { destruct (decide (self = event)) as [-> | Hne]; [| done].
    rewrite Hme in He. simplify_eq. unfold me1, set_count. by rewrite Hv. }
  unfold attr_ok. rewrite Hok1. unfold ret at 1. cbv beta iota.
  change (negb true) with false. cbv iota.
  destruct (evaluate events (count + 1)); [| done].
  unfold Event_succeed, bind. rewrite (the_event_Some _ _ _ Hme1).
  assert (_value me1 = PENDING) as Hp1 by (unfold me1, set_count; by rewrite Hv).
  unfold triggered. rewrite bool_decide_eq_false_2 by (rewrite Hp1; tauto).
  rewrite (update_Some _ _ _ _ Hme1).
  assert (env me1 = env me) as -> by (unfold me1, set_count; by rewrite Hv).
  assert (env me <> self) as Hne by (intros Heq; rewrite Heq in HE; congruence).
  rewrite (schedule_Some _ _ _ _ E)
    by (do 2 (apply lookup_insert_other; [done |]); done).
  by rewrite list_insert_insert_eq.
Qed.

(** A triggered condition ignores [_check]. *)
Lemma check_triggered self event (s : state) me :
  s !! self = Some (OEvent me) -> _value me <> PENDING ->
  Condition__check self event s = (Ok tt, s).
Proof.
  intros Hme Hv. unfold Condition__check, bind. rewrite (the_event_Some _ _ _ Hme).
  unfold triggered. by rewrite bool_decide_eq_true_2.
Qed.

(** [_check] with a successful sub-event on a pending condition counts it;
    the condition then succeeds with value [None] and is scheduled if the
    predicate holds for the new count, and only then.  [AllOf] fires on the
    check that brings the count to the length of the list, [AnyOf] on the
    first check; the sub-event itself is left alone. *)
Theorem Condition_check_counts self event s me evaluate events count E e :
  s !! self = Some (OEvent me) ->
  variant_of me = IsCondition evaluate events count ->
  _value me = PENDING ->
  s !! env me = Some (OEnv E) ->
  s !! event = Some (OEvent e) ->
  ok e = Some true ->
  Condition__check self event s =
    (Ok tt,
     if evaluate events (count + 1) then
       <[env me := OEnv (Env (_now E) (_active_proc E)
                             (_queue E ++ [((_now E + 0)%Z, NORMAL, _eid E, self)])
                             (S (_eid E)))]>
         (<[self := OEvent (set_outcome true (Some VNone) (set_count (count + 1) me))]> s)
     else <[self := OEvent (set_count (count + 1) me)]> s) /\
  (all_events events (count + 1) = true <-> length events = count + 1) /\
  any_events events (count + 1) = true.
Proof.
  intros Hme Hv Hpend HE He Hok. split; [| split].
  - by eapply check_run.
  - unfold all_events. by rewrite bool_decide_eq_true.
  - unfold any_events. rewrite bool_decide_eq_true_2 by lia. done.
Qed.

(** *** The constructor of [Condition] *)

(** The first loop: it raises at the first sub-event of another
    environment, and passes when there is none. *)
Lemma environment_loop_raises env0 events (s : state) :
  Forall (fun r => exists e, s !! r = Some (OEvent e)) events ->
  Exists (fun r => exists e, s !! r = Some (OEvent e) /\ env e <> env0) events ->
  for_each events (fun event =>
    let! e := the_event event in
    if decide (env0 <> env e) then
      raise "ValueError" [VStr "It is not allowed to mix events from different environments"]
    else ret tt) s =
  (Raised (length s),
   s ++ [OExc (Exc "ValueError"
                   [VStr "It is not allowed to mix events from different environments"]
                   None)]).
Proof.
  intros Hall Hex. induction Hall as [| r events [e He] Hall IH]; [by inversion Hex |].
  simpl. unfold bind at 1. unfold bind at 1. rewrite (the_event_Some _ _ _ He).
  destruct (decide (env0 <> env e)) as [Hne | Heq]; [done |].
  unfold ret at 1. apply IH.
  inversion Hex as [? ? (e' & He' & Hne') | ? ? Hex']; subst; [| done].
  rewrite He in He'. simplify_eq. destruct Heq. congruence.
Qed.

Lemma environment_loop_passes env0 events (s : state) :
  Forall (fun r => exists e, s !! r = Some (OEvent e) /\ env e = env0) events ->
  for_each events (fun event =>
    let! e := the_event event in
    if decide (env0 <> env e) then
      raise "ValueError" [VStr "It is not allowed to mix events from different environments"]
    else ret tt) s = (Ok tt, s).
Proof.
  induction 1 as [| r events (e & He & Henv) Hall IH]; [done |].
  simpl. unfold bind at 1. unfold bind at 1. rewrite (the_event_Some _ _ _ He).
  rewrite decide_False by (intros Hne; by apply Hne). done.
Qed.

(** A condition over events that are not all of its environment is refused
    with [ValueError] before any sub-event is touched: no callback is
    registered, nothing is scheduled. *)
Theorem Condition_rejects_mixed_environments env0 evaluate events s :
  Forall (fun r => exists e, s !! r = Some (OEvent e)) events ->
  Exists (fun r => exists e, s !! r = Some (OEvent e) /\ env e <> env0) events ->
  Condition__init__ env0 evaluate events s =
    (Raised (S (length s)),
     s ++ [OEvent (Event env0 (Some []) PENDING None false (IsCondition evaluate events 0));
           OExc (Exc "ValueError"
                     [VStr "It is not allowed to mix events from different environments"]
                     None)]).
Proof.
  intros Hall Hex. unfold Condition__init__. unfold bind at 1, new.
  unfold bind at 1. rewrite environment_loop_raises.
  - rewrite length_app, <- app_assoc. simpl. do 2 f_equal. lia.
  - eapply Forall_impl; [done |]. intros r [e He]. exists e. by apply lookup_old.
  - eapply Exists_impl; [done |]. intros r (e & He & Hne). exists e.
    split; [by apply lookup_old | done].
Qed.

Lemma on_callbacks_twice l1 l2 e :
  on_callbacks (fun cbs => cbs ++ l2) (on_callbacks (fun cbs => cbs ++ l1) e) =
  on_callbacks (fun cbs => cbs ++ (l1 ++ l2)) e.
Proof.
  unfold on_callbacks. destruct (callbacks e) as [cbs |] eqn:H; simpl; [| by rewrite H].
  unfold set_callbacks. simpl. by rewrite app_assoc.
Qed.

Lemma on_callbacks_nothing e : on_callbacks (fun cbs => cbs ++ []) e = e.
Proof.
  unfold on_callbacks. destruct e as [? [cbs |] ? ? ? ?]; simpl; [| done].
  unfold set_callbacks. simpl. by rewrite app_nil_r.
Qed.

Lemma on_callbacks_processed f e : callbacks e = None -> on_callbacks f e = e.
Proof. intros H. unfold on_callbacks. by rewrite H. Qed.

Lemma on_callbacks_value f e : _value (on_callbacks f e) = _value e.
Proof. unfold on_callbacks. by destruct (callbacks e). Qed.

(** The second loop while nothing is checked: each occurrence of an
    unprocessed sub-event appends [_check] to it; a processed sub-event is
    passed over when the condition is triggered by then. *)
Lemma registration_loop c events :
  forall s : state,
    Forall (fun r => exists e, s !! r = Some (OEvent e) /\
              (callbacks e = None ->
               exists me, s !! c = Some (OEvent me) /\ _value me <> PENDING)) events ->
    exists s',
      for_each events (fun event =>
        let! e := the_event event in
        match callbacks e with
        | None => Condition__check c event
        | Some _ => update event (on_callbacks (fun cbs => cbs ++ [cb_check c]))
        end) s = (Ok tt, s') /\
      length s' = length s /\
      forall r,
        s' !! r =
        match s !! r with
        | Some (OEvent e) =>
            Some (OEvent (on_callbacks
              (fun cbs => cbs ++ replicate (count_occ Nat.eq_dec events r) (cb_check c)) e))
        | o => o
        end.
Proof.
  induction events as [| r0 events IH]; intros s Hall.
  - exists s. split; [done |]. split; [done |]. intros r.
    destruct (s !! r) as [[e | |] |]; try done. simpl. by rewrite on_callbacks_nothing.
  - apply Forall_cons_1 in Hall as [(e0 & He0 & Hcb0) Hall].
    simpl for_each. unfold bind at 1. unfold bind at 1.
    rewrite (the_event_Some _ _ _ He0).
    destruct (callbacks e0) as [cbs0 |] eqn:Hcbs0.
    + rewrite (update_Some _ _ _ _ He0).
      set (e0' := on_callbacks (fun cbs => cbs ++ [cb_check c]) e0).
      assert (callbacks e0' <> None) as Hcbs0'
        by (unfold e0', on_callbacks; by rewrite Hcbs0).
      destruct (IH (<[r0 := OEvent e0']> s)) as (s' & Hrun & Hlen & Hs').
      { eapply Forall_impl; [done |]. intros r (e & He & Hcb).
        destruct (decide (r0 = r)) as [-> | Hne].
        - exists e0'. split; [by eapply lookup_insert_same | done].
        - exists e. split; [by apply lookup_insert_other |].
          intros Hnone. destruct (Hcb Hnone) as (me & Hme & Hv).
          destruct (decide (r0 = c)) as [-> | Hnec].
          + exists e0'. split; [by eapply lookup_insert_same |].
            unfold e0'. rewrite on_callbacks_value. congruence.
          + exists me. split; [by apply lookup_insert_other | done]. }
      exists s'. split; [done |]. split; [by rewrite Hlen, length_insert |].
      intros r. rewrite Hs'. destruct (decide (r0 = r)) as [-> | Hne].
      * rewrite (lookup_insert_same _ _ _ _ He0), He0.
        unfold e0'. rewrite on_callbacks_twice. simpl.
        destruct (Nat.eq_dec r r); [| done]. done.
      * rewrite list_lookup_insert_ne by done. simpl.
        destruct (Nat.eq_dec r0 r); [done |]. done.
    + destruct (Hcb0 eq_refl) as (me & Hme & Hv).
      rewrite (check_triggered _ _ _ _ Hme Hv).
      destruct (IH s Hall) as (s' & Hrun & Hlen & Hs').
      exists s'. split; [done |]. split; [done |].
      intros r. rewrite Hs'. destruct (s !! r) as [[e | |] |] eqn:Hr; try done.
      simpl. destruct (Nat.eq_dec r0 r) as [-> | Hne]; [| done].
      rewrite He0 in Hr. simplify_eq. by rewrite !on_callbacks_processed.
Qed.

(** A condition over sub-events of its environment, none of them processed,
    comes back pending with count 0 and [_collect_values] as its only
    callback; every sub-event has got one [_check] per occurrence in the
    list, appended after its callbacks; nothing else changes, nothing is
    scheduled. *)
Theorem Condition_registers_checks env0 evaluate events s :
  Forall (fun r => exists e, s !! r = Some (OEvent e) /\ env e = env0 /\
                             callbacks e <> None) events ->
  exists s',
    Condition__init__ env0 evaluate events s = (Ok (length s), s') /\
    length s' = S (length s) /\
    s' !! length s =
      Some (OEvent (Event env0 (Some [cb_collect_values (length s)]) PENDING None false
                          (IsCondition evaluate events 0))) /\
    forall r o, s !! r = Some o ->
      s' !! r =
      match o with
      | OEvent e =>
          Some (OEvent (on_callbacks
            (fun cbs => cbs ++ replicate (count_occ Nat.eq_dec events r)
                                         (cb_check (length s))) e))
      | _ => Some o
      end.
Proof.
  intros Hall. unfold Condition__init__. unfold bind at 1, new.
  set (c := OEvent _). set (s1 := s ++ [c]).
  unfold bind at 1. rewrite environment_loop_passes.
  2: { eapply Forall_impl; [done |]. intros r (e & He & Henv & _).
       exists e. split; [by apply lookup_old | done]. }
  destruct (registration_loop (length s) events s1) as (s2 & Hrun & Hlen & Hs2).
  { eapply Forall_impl; [done |]. intros r (e & He & _ & Hcb).
    exists e. split; [by apply lookup_old | done]. }
  cbv beta in Hrun. unfold bind at 1. rewrite Hrun.
  assert (count_occ Nat.eq_dec events (length s) = 0) as Hfresh.
  { apply count_occ_not_In. intros Hin%list_elem_of_In.
    rewrite Forall_forall in Hall. destruct (Hall _ Hin) as (e & He & _).
    apply lookup_lt_Some in He. lia. }
  assert (s2 !! length s = Some c) as Hc.
  { rewrite Hs2. unfold s1. rewrite lookup_new. unfold c. by rewrite Hfresh. }
  subst c. unfold bind at 1. rewrite (the_event_Some _ _ _ Hc). cbn [callbacks].
  unfold bind. rewrite (update_Some _ _ _ _ Hc). unfold ret.
  eexists. split; [done |].
  split; [rewrite length_insert, Hlen; unfold s1; rewrite length_app; simpl; lia |].
  split; [by eapply lookup_insert_same |].
  intros r o Ho. pose proof (lookup_lt_Some _ _ _ Ho) as Hlt.
  rewrite list_lookup_insert_ne by lia. rewrite Hs2. unfold s1.
  rewrite (lookup_old _ _ _ _ Ho). by destruct o.
Qed.

Lemma set_count_same e evaluate events n :
  variant_of e = IsCondition evaluate events n -> set_count n e = e.
Proof. destruct e. simpl. intros ->. done. Qed.

Lemma set_count_twice e evaluate events n m m' :
  variant_of e = IsCondition evaluate events n ->
  set_count m (set_count m' e) = set_count m e.
Proof. destruct e. simpl. intros ->. done. Qed.

Lemma set_count_variant e evaluate events n m :
  variant_of e = IsCondition evaluate events n ->
  variant_of (set_count m e) = IsCondition evaluate events m.
Proof. destruct e. simpl. intros ->. done. Qed.

Lemma set_count_fields e m :
  env (set_count m e) = env e /\ _value (set_count m e) = _value e /\
  callbacks (set_count m e) = callbacks e.
Proof. unfold set_count. by destruct (variant_of e). Qed.

(** The second loop for a pending condition, when no processed sub-event
    has failed: the processed ones are counted until the condition is met,
    the others get [_check]. *)
Lemma check_loop c evaluate events0 (P : ref -> bool) events :
  forall (s : state) me n E,
    s !! c = Some (OEvent me) ->
    variant_of me = IsCondition evaluate events0 n ->
    _value me = PENDING ->
    s !! env me = Some (OEnv E) ->
    Forall (fun r => r <> c /\
              exists e, s !! r = Some (OEvent e) /\ P r = processed e /\
                        (callbacks e = None -> ok e = Some true)) events ->
    exists s',
      for_each events (fun event =>
        let! e := the_event event in
        match callbacks e with
        | None => Condition__check c event
        | Some _ => update event (on_callbacks (fun cbs => cbs ++ [cb_check c]))
        end) s = (Ok tt, s') /\
      length s' = length s /\
      s' !! c =
        Some (OEvent
          match first_met evaluate events0 n (length (List.filter P events)) with
          | Some m => set_outcome true (Some VNone) (set_count m me)
          | None => set_count (n + length (List.filter P events)) me
          end) /\
      s' !! env me =
        Some (OEnv
          match first_met evaluate events0 n (length (List.filter P events)) with
          | Some _ => Env (_now E) (_active_proc E)
                          (_queue E ++ [((_now E + 0)%Z, NORMAL, _eid E, c)])
                          (S (_eid E))
          | None => E
          end) /\
      forall r, r <> c -> r <> env me ->
        s' !! r =
        match s !! r with
        | Some (OEvent e) =>
            Some (OEvent (on_callbacks
              (fun cbs => cbs ++ replicate (count_occ Nat.eq_dec events r) (cb_check c)) e))
        | o => o
        end.
Proof.
  induction events as [| r0 events IH]; intros s me n E Hme Hv Hpend HE Hall.
  - exists s. split; [done |]. split; [done |]. simpl.
    rewrite Nat.add_0_r, (set_count_same _ _ _ _ Hv).
    split; [done |]. split; [done |]. intros r _ _.
    destruct (s !! r) as [[e | |] |]; try done. by rewrite on_callbacks_nothing.
  - apply Forall_cons_1 in Hall as [(Hne0 & e0 & He0 & HP0 & Hok0) Hall].
    assert (env me <> c) as Hnec by (intros Heq; rewrite Heq in HE; congruence).
    assert (env me <> r0) as Hne0' by (intros Heq; rewrite Heq in HE; congruence).
    simpl for_each. unfold bind at 1. unfold bind at 1.
    rewrite (the_event_Some _ _ _ He0).
    destruct (callbacks e0) as [cbs0 |] eqn:Hcbs0.
    + assert (P r0 = false) as HP0'
        by (rewrite HP0; unfold processed; by rewrite Hcbs0).
      simpl List.filter. rewrite HP0'.
      rewrite (update_Some _ _ _ _ He0).
      set (e0' := on_callbacks (fun cbs => cbs ++ [cb_check c]) e0).
      assert (callbacks e0' = Some (cbs0 ++ [cb_check c])) as Hcbs0'
        by (unfold e0', on_callbacks; by rewrite Hcbs0).
      destruct (IH (<[r0 := OEvent e0']> s) me n E) as (s' & Hrun & Hlen & Hc & Henv & Hs');
        [by apply lookup_insert_other | done | done | by apply lookup_insert_other | |].
      { eapply Forall_impl; [done |]. intros r (Hne & e & He & HP & Hok).
        split; [done |]. destruct (decide (r0 = r)) as [-> | Hner].
        - exists e0'. split; [by eapply lookup_insert_same |].
          split; [| by rewrite Hcbs0'].
          rewrite HP0'. unfold processed. by rewrite Hcbs0'.
        - exists e. split; [by apply lookup_insert_other | done]. }
      exists s'. split; [done |]. split; [by rewrite Hlen, length_insert |].
      split; [done |]. split; [done |].
      intros r Hrc Hre. rewrite (Hs' r Hrc Hre).
      destruct (decide (r0 = r)) as [-> | Hne].
      * rewrite (lookup_insert_same _ _ _ _ He0), He0.
        unfold e0'. rewrite on_callbacks_twice. simpl.
        destruct (Nat.eq_dec r r); [| done]. done.
      * rewrite list_lookup_insert_ne by done. simpl.
        destruct (Nat.eq_dec r0 r); [done |]. done.
    + assert (P r0 = true) as HP0'
        by (rewrite HP0; unfold processed; by rewrite Hcbs0).
      simpl List.filter. rewrite HP0'. simpl length. simpl first_met.
      rewrite (check_run _ _ _ _ _ _ _ _ _ Hme Hv Hpend HE He0 (Hok0 eq_refl)).
      destruct (evaluate events0 (n + 1)) eqn:Hev.
      * set (fired := set_outcome true (Some VNone) (set_count (n + 1) me)).
        set (E' := Env _ _ _ _).
        set (s1 := <[env me := OEnv E']> (<[c := OEvent fired]> s)).
        assert (s1 !! c = Some (OEvent fired)) as Hc1.
        { apply lookup_insert_other; [done |]. by eapply lookup_insert_same. }
        assert (s1 !! env me = Some (OEnv E')) as HE1.
        { eapply lookup_insert_same. by apply lookup_insert_other. }
        assert (forall r, r <> c -> r <> env me -> s1 !! r = s !! r) as Hs1.
        { intros r Hrc Hre. unfold s1. by rewrite !list_lookup_insert_ne. }
        destruct (registration_loop c events s1) as (s' & Hrun & Hlen & Hs').
        { eapply Forall_impl; [done |]. intros r (Hne & e & He & _).
          exists e. split.
          - rewrite Hs1; [done | done |]. intros Heq. rewrite <- Heq in HE. congruence.
          - intros _. by exists fired. }
        exists s'. cbv beta in Hrun. split; [done |].
        split; [by rewrite Hlen; unfold s1; rewrite !length_insert |].
        split; [| split].
        -- rewrite Hs', Hc1. rewrite (proj1 (count_occ_not_In Nat.eq_dec events c)).
           ++ simpl. by rewrite on_callbacks_nothing.
           ++ intros Hin%list_elem_of_In. rewrite Forall_forall in Hall.
              by destruct (Hall _ Hin).
        -- by rewrite Hs', HE1.
        -- intros r Hrc Hre. rewrite Hs', (Hs1 r Hrc Hre).
           destruct (s !! r) as [[e | |] |] eqn:Hr; try done.
           simpl. destruct (Nat.eq_dec r0 r) as [-> | Hne]; [| done].
           rewrite He0 in Hr. simplify_eq. by rewrite !on_callbacks_processed.
      * set (me1 := set_count (n + 1) me).
        destruct (set_count_fields me (n + 1)) as (Henv1 & Hval1 & _).
        destruct (IH (<[c := OEvent me1]> s) me1 (n + 1) E)
          as (s' & Hrun & Hlen & Hc & Henv & Hs').
        { by eapply lookup_insert_same. }
        { by eapply set_count_variant. }
        { unfold me1. by rewrite Hval1. }
        { unfold me1. rewrite Henv1. by apply lookup_insert_other. }
        { eapply Forall_impl; [done |]. intros r (Hne & e & He & HP & Hok).
          split; [done |]. exists e. split; [by apply lookup_insert_other | done]. }
        exists s'. split; [done |]. split; [by rewrite Hlen, length_insert |].
        unfold me1 in Hc, Henv, Hs'. rewrite Henv1 in Henv, Hs'.
        split; [| split].
        -- rewrite Hc. do 2 f_equal.
           destruct (first_met _ _ _ _); rewrite (set_count_twice _ _ _ _ _ _ Hv);
             [done |]. f_equal. lia.
        -- done.
        -- intros r Hrc Hre. rewrite (Hs' r Hrc Hre).
           rewrite list_lookup_insert_ne by done.
           destruct (s !! r) as [[e | |] |] eqn:Hr; try done.
           simpl. destruct (Nat.eq_dec r0 r) as [-> | Hne]; [| done].
           rewrite He0 in Hr. simplify_eq. by rewrite !on_callbacks_processed.
Qed.

(** The constructor over sub-events of its environment none of which has
    failed. *)
Lemma Condition_init_run env0 evaluate events (s : state) E :
  s !! env0 = Some (OEnv E) ->
  Forall (fun r => exists e, s !! r = Some (OEvent e) /\ env e = env0 /\
                             (callbacks e = None -> ok e = Some true)) events ->
  exists s',
    Condition__init__ env0 evaluate events s = (Ok (length s), s') /\
    length s' = S (length s) /\
    s' !! length s =
      Some (OEvent
        match first_met evaluate events 0
                        (length (List.filter (is_processed s) events)) with
        | Some m => Event env0 (Some [cb_collect_values (length s)]) (Some VNone)
                          (Some true) false (IsCondition evaluate events m)
        | None => Event env0 (Some [cb_collect_values (length s)]) PENDING None false
                        (IsCondition evaluate events
                           (length (List.filter (is_processed s) events)))
        end) /\
    s' !! env0 =
      Some (OEnv
        match first_met evaluate events 0
                        (length (List.filter (is_processed s) events)) with
        | Some _ => Env (_now E) (_active_proc E)
                        (_queue E ++ [((_now E + 0)%Z, NORMAL, _eid E, length s)])
                        (S (_eid E))
        | None => E
        end) /\
    forall r o, s !! r = Some o -> r <> env0 ->
      s' !! r =
      match o with
      | OEvent e =>
          Some (OEvent (on_callbacks
            (fun cbs => cbs ++ replicate (count_occ Nat.eq_dec events r)
                                         (cb_check (length s))) e))
      | _ => Some o
      end.
Proof.
  intros HE Hall. unfold Condition__init__. unfold bind at 1, new.
  set (c0 := Event _ _ _ _ _ _). set (s1 := s ++ [OEvent c0]).
  unfold bind at 1. rewrite environment_loop_passes.
  2: { eapply Forall_impl; [done |]. intros r (e & He & Henv & _).
       exists e. split; [by apply lookup_old | done]. }
  destruct (check_loop (length s) evaluate events (is_processed s) events s1 c0 0 E)
    as (s2 & Hrun & Hlen & Hc & Henv & Hs2).
  { apply lookup_new. }
  { done. }
  { done. }
  { by apply lookup_old. }
  { eapply Forall_impl; [done |]. intros r (e & He & _ & Hok).
    split; [by eapply bound_fresh |]. exists e.
    split; [by apply lookup_old |]. split; [| done].
    unfold is_processed. by rewrite He. }
  cbv beta in Hrun. unfold bind at 1. rewrite Hrun.
  unfold bind at 1. rewrite (the_event_Some _ _ _ Hc).
  change (env c0) with env0 in *.
  pose proof (bound_fresh _ _ _ HE) as Hfresh.
  set (c2 := match first_met _ _ _ _ with Some _ => _ | None => _ end) in Hc |- *.
  assert (callbacks c2 = Some []) as Hcbs by (unfold c2; by destruct (first_met _ _ _ _)).
  rewrite Hcbs. unfold bind. rewrite (update_Some _ _ _ _ Hc). unfold ret.
  eexists. split; [done |].
  split; [rewrite length_insert, Hlen; unfold s1; rewrite length_app; simpl; lia |].
  split; [| split].
  - rewrite (lookup_insert_same _ _ _ _ Hc). do 2 f_equal.
    unfold on_callbacks. rewrite Hcbs. unfold c2. by destruct (first_met _ _ _ _).
  - by rewrite list_lookup_insert_ne.
  - intros r o Ho Hre. pose proof (bound_fresh _ _ _ Ho) as Hr.
    rewrite list_lookup_insert_ne by done. rewrite Hs2 by done.
    unfold s1. rewrite (lookup_old _ _ _ _ Ho). by destruct o.
Qed.

Lemma first_met_all events n k :
  n + k <= length events ->
  first_met all_events events n k =
    if decide (0 < k /\ n + k = length events) then Some (length events) else None.
Proof.
  revert n. induction k as [| k IH]; intros n Hle; cbn [first_met].
  - rewrite decide_False by lia. done.
  - unfold all_events at 1. destruct (decide (length events = n + 1)) as [Heq | Hne].
    + rewrite bool_decide_eq_true_2 by done. rewrite decide_True by lia. by rewrite Heq.
    + rewrite bool_decide_eq_false_2 by done. rewrite IH by lia.
      destruct (decide (0 < k /\ n + 1 + k = length events));
        [rewrite decide_True by lia | rewrite decide_False by lia]; done.
Qed.

Lemma first_met_any events n k :
  first_met any_events events n (S k) = Some (n + 1).
Proof. simpl. unfold any_events. rewrite bool_decide_eq_true_2 by lia. done. Qed.

Lemma filter_all (P : ref -> bool) l :
  Forall (fun r => P r = true) l -> List.filter P l = l.
Proof. induction 1 as [| r l Hr _ IH]; simpl; [done |]. by rewrite Hr, IH. Qed.

Lemma filter_fewer (P : ref -> bool) l :
  Exists (fun r => P r = false) l -> length (List.filter P l) < length l.
Proof.
  induction 1 as [r l Hr | r l _ IH]; simpl.
  - rewrite Hr. pose proof (List.filter_length_le P l). lia.
  - destruct (P r); simpl; lia.
Qed.

Lemma filter_some (P : ref -> bool) l :
  Exists (fun r => P r = true) l -> exists k, length (List.filter P l) = S k.
Proof.
  induction 1 as [r l Hr | r l _ [k IH]]; simpl.
  - rewrite Hr. simpl. eauto.
  - destruct (P r); simpl; eauto.
Qed.

(** [AllOf] over a non-empty list of events that have all been processed
    with success is triggered by its own constructor: it comes back
    successful with the count at the length of the list, scheduled once at
    the current time; its value is still [None], to be filled in by
    [_collect_values], its only callback.  Nothing else changes. *)
Theorem AllOf_of_processed_events_fires env0 events s E :
  s !! env0 = Some (OEnv E) ->
  events <> [] ->
  Forall (fun r => exists e, s !! r = Some (OEvent e) /\ env e = env0 /\
                             callbacks e = None /\ ok e = Some true) events ->
  exists s',
    AllOf__init__ env0 events s = (Ok (length s), s') /\
    length s' = S (length s) /\
    s' !! length s =
      Some (OEvent (Event env0 (Some [cb_collect_values (length s)]) (Some VNone)
                          (Some true) false
                          (IsCondition all_events events (length events)))) /\
    s' !! env0 =
      Some (OEnv (Env (_now E) (_active_proc E)
                      (_queue E ++ [((_now E + 0)%Z, NORMAL, _eid E, length s)])
                      (S (_eid E)))) /\
    forall r, r < length s -> r <> env0 -> s' !! r = s !! r.
Proof.
  intros HE Hnil Hall. unfold AllOf__init__.
  destruct (Condition_init_run env0 all_events events s E HE)
    as (s' & Hrun & Hlen & Hc & Henv & Hs').
  { eapply Forall_impl; [done |]. intros r (e & He & Hen & _ & Hok). eauto. }
  rewrite filter_all in Hc, Henv.
  2, 3: eapply Forall_impl; [done |]; intros r (e & He & _ & Hcb & _);
        unfold is_processed, processed; rewrite He, Hcb; done.
  rewrite first_met_all in Hc, Henv by lia.
  assert (0 < length events) by (destruct events; [done | simpl; lia]).
  rewrite decide_True in Hc, Henv by lia.
  exists s'. do 4 (split; [done |]).
  intros r Hr Hre. destruct (lookup_lt_is_Some_2 s r Hr) as [o Ho].
  rewrite (Hs' _ _ Ho Hre), Ho. destruct o as [e | E0 | x]; [| done | done].
  do 2 f_equal. destruct (decide (r ∈ events)) as [Hin | Hout].
  - rewrite Forall_forall in Hall. destruct (Hall _ Hin) as (e' & He' & _ & Hcb & _).
    rewrite Ho in He'. simplify_eq. by apply on_callbacks_processed.
  - rewrite (proj1 (count_occ_not_In Nat.eq_dec events r)).
    + apply on_callbacks_nothing.
    + by rewrite <- list_elem_of_In.
Qed.

(** [AllOf] with a sub-event that is not processed yet stays pending, also
    when others are processed with success: these are counted, nothing is
    scheduled, and each sub-event that is not processed gets one [_check]
    per occurrence. *)
Theorem AllOf_waits_for_unprocessed_events env0 events s E :
  s !! env0 = Some (OEnv E) ->
  Forall (fun r => exists e, s !! r = Some (OEvent e) /\ env e = env0 /\
                             (callbacks e = None -> ok e = Some true)) events ->
  Exists (fun r => is_processed s r = false) events ->
  exists s',
    AllOf__init__ env0 events s = (Ok (length s), s') /\
    length s' = S (length s) /\
    s' !! length s =
      Some (OEvent (Event env0 (Some [cb_collect_values (length s)]) PENDING None false
                          (IsCondition all_events events
                             (length (List.filter (is_processed s) events))))) /\
    length (List.filter (is_processed s) events) < length events /\
    s' !! env0 = Some (OEnv E) /\
    forall r o, s !! r = Some o -> r <> env0 ->
      s' !! r =
      match o with
      | OEvent e =>
          Some (OEvent (on_callbacks
            (fun cbs => cbs ++ replicate (count_occ Nat.eq_dec events r)
                                         (cb_check (length s))) e))
      | _ => Some o
      end.
Proof.
  intros HE Hall Hex. unfold AllOf__init__.
  destruct (Condition_init_run env0 all_events events s E HE Hall)
    as (s' & Hrun & Hlen & Hc & Henv & Hs').
  pose proof (filter_fewer _ _ Hex) as Hlt.
  rewrite first_met_all in Hc, Henv by lia.
  rewrite decide_False in Hc, Henv by lia.
  exists s'. done.
Qed.

(** [AnyOf] over a list with a processed event, no processed one having
    failed, is triggered by its own constructor: it comes back successful
    with count 1 and is scheduled once at the current time.  The sub-events
    that are not processed still get [_check], which will find the
    condition triggered and do nothing. *)
Theorem AnyOf_of_a_processed_event_fires env0 events s E :
  s !! env0 = Some (OEnv E) ->
  Forall (fun r => exists e, s !! r = Some (OEvent e) /\ env e = env0 /\
                             (callbacks e = None -> ok e = Some true)) events ->
  Exists (fun r => is_processed s r = true) events ->
  exists s',
    AnyOf__init__ env0 events s = (Ok (length s), s') /\
    length s' = S (length s) /\
    s' !! length s =
      Some (OEvent (Event env0 (Some [cb_collect_values (length s)]) (Some VNone)
                          (Some true) false (IsCondition any_events events 1))) /\
    s' !! env0 =
      Some (OEnv (Env (_now E) (_active_proc E)
                      (_queue E ++ [((_now E + 0)%Z, NORMAL, _eid E, length s)])
                      (S (_eid E)))) /\
    forall r o, s !! r = Some o -> r <> env0 ->
      s' !! r =
      match o with
      | OEvent e =>
          Some (OEvent (on_callbacks
            (fun cbs => cbs ++ replicate (count_occ Nat.eq_dec events r)
                                         (cb_check (length s))) e))
      | _ => Some o
      end.
Proof.
  intros HE Hall Hex. unfold AnyOf__init__.
  destruct (Condition_init_run env0 any_events events s E HE Hall)
    as (s' & Hrun & Hlen & Hc & Henv & Hs').
  destruct (filter_some _ _ Hex) as [k Hk].
  rewrite Hk, first_met_any in Hc, Henv.
  exists s'. done.
Qed.

(** *** Events that are processed already *)

(** When the generator yields an event that is processed already, [_resume]
    registers no callback and does not return to the event loop: it goes
    round its loop, which is the same as being resumed by that event at
    once, in the store as the generator left it. *)
Theorem processed_yield_resumes_at_once fuel self event s me E r s1 e :
  s !! self = Some (OEvent me) ->
  s !! env me = Some (OEnv E) ->
  deliver self (VRef event) (<[env me := OEnv (set_active_proc (Some self) E)]> s)
    = (Ok (VRef r), s1) ->
  s1 !! r = Some (OEvent e) ->
  callbacks e = None ->
  Process__resume (S fuel) self event s = Process__resume fuel self r s1.
Proof.
  intros Hme HE Hd Hr Hcb.
  set (s0 := <[env me := _]> s) in Hd.
  assert (env me <> self) as Hne by (intros Heq; rewrite Heq in HE; congruence).
  assert (s0 !! self = Some (OEvent me)) as Hme0 by by apply lookup_insert_other.
  assert (s0 !! env me = Some (OEnv (set_active_proc (Some self) E))) as HE0
    by by eapply lookup_insert_same.
  pose proof (sound_deliver self (VRef event) s0) as [Hext _].
  rewrite Hd in Hext. simpl in Hext.
  destruct (extends_event _ _ _ _ Hext Hme0) as (me1 & Hme1 & Hle).
  assert (env me1 = env me) as Henv by apply Hle.
  destruct (keeps_deliver calm calm_refl calm_trans calm_schedule self (VRef event)
              s0 (env me) (set_active_proc (Some self) E) HE0)
    as (E1 & HE1 & [_ Hact]).
  rewrite Hd in HE1. simpl in HE1, Hact.
  assert (set_active_proc (Some self) E1 = E1) as HE1'
    by (destruct E1; simpl in *; by subst).
  unfold Process__resume.
  unfold bind at 1. rewrite (the_event_Some _ _ _ Hme).
  unfold bind at 1. rewrite (update_env_Some _ _ _ _ HE). fold s0.
  symmetry.
  unfold bind at 1. rewrite (the_event_Some _ _ _ Hme1).
  unfold bind at 1. rewrite Henv, (update_env_Some _ _ _ _ HE1), HE1'.
  rewrite (list_insert_id _ _ _ HE1).
  symmetry.
  unfold bind at 1. unfold bind at 3.
  assert (resume_loop (S fuel) self (VRef event) s0 = resume_loop fuel self (VRef r) s1)
    as ->; [| done].
  cbn [resume_loop]. unfold bind at 1, try_except, bind at 1.
  rewrite Hd. unfold ret at 1. cbv beta iota. by rewrite Hr, Hcb.
Qed.

(** *** [a & b] and [a | b] *)

(** The constructor run behind [&] and [|] for two events of one
    environment that are not processed. *)
Lemma pair_run evaluate a b (s : state) ea eb E :
  s !! a = Some (OEvent ea) ->
  s !! b = Some (OEvent eb) ->
  env eb = env ea ->
  s !! env ea = Some (OEnv E) ->
  callbacks ea <> None ->
  callbacks eb <> None ->
  exists s1,
    Condition__init__ (env ea) evaluate [a; b] s = (Ok (length s), s1) /\
    s1 !! length s =
      Some (OEvent (Event (env ea) (Some [cb_collect_values (length s)]) PENDING None
                          false (IsCondition evaluate [a; b] 0))) /\
    s1 !! env ea = Some (OEnv E) /\
    forall x, x = a \/ x = b ->
      exists e, s1 !! x = Some (OEvent e) /\ ok e = ok (if decide (x = a) then ea else eb).
Proof.
  intros Ha Hb Henv HE Hca Hcb.
  destruct (Condition_init_run (env ea) evaluate [a; b] s E HE)
    as (s1 & Hrun & _ & Hc & HE1 & Hs1).
  { repeat apply Forall_cons_2; [| | done].
    - exists ea. split; [done |]. split; [done |]. by intros Hn.
    - exists eb. split; [done |]. split; [done |]. by intros Hn. }
  assert (List.filter (is_processed s) [a; b] = []) as Hnone.
  { simpl. unfold is_processed, processed. rewrite Ha, Hb.
    by rewrite !bool_decide_eq_false_2. }
  rewrite Hnone in Hc, HE1. simpl in Hc, HE1.
  exists s1. do 3 (split; [done |]).
  assert (forall x e, s !! x = Some (OEvent e) ->
            exists e', s1 !! x = Some (OEvent e') /\ ok e' = ok e) as Hok.
  { intros x e Hx. eexists. split.
    - apply (Hs1 _ _ Hx). intros Heq. rewrite Heq, HE in Hx. done.
    - unfold on_callbacks. by destruct (callbacks e). }
  intros x [-> | ->].
  - rewrite decide_True by done. by apply Hok.
  - destruct (decide (b = a)) as [-> | Hne]; by apply Hok.
Qed.

(** [a & b] for two events of one environment that are not processed: the
    condition comes back pending; the check of the one that is processed
    first, with success, leaves it pending with count 1 and schedules
    nothing; the check of the other lets it succeed and schedules it. *)
Theorem and_fires_after_both a b s ea eb E x y :
  s !! a = Some (OEvent ea) ->
  s !! b = Some (OEvent eb) ->
  env eb = env ea ->
  s !! env ea = Some (OEnv E) ->
  callbacks ea <> None ->
  callbacks eb <> None ->
  ok ea = Some true ->
  ok eb = Some true ->
  (x = a /\ y = b) \/ (x = b /\ y = a) ->
  exists s1 s2 s3,
    Event__and__ a b s = (Ok (length s), s1) /\
    Condition__check (length s) x s1 = (Ok tt, s2) /\
    s2 !! length s =
      Some (OEvent (Event (env ea) (Some [cb_collect_values (length s)]) PENDING None
                          false (IsCondition all_events [a; b] 1))) /\
    s2 !! env ea = Some (OEnv E) /\
    Condition__check (length s) y s2 = (Ok tt, s3) /\
    s3 !! length s =
      Some (OEvent (Event (env ea) (Some [cb_collect_values (length s)]) (Some VNone)
                          (Some true) false (IsCondition all_events [a; b] 2))) /\
    s3 !! env ea =
      Some (OEnv (Env (_now E) (_active_proc E)
                      (_queue E ++ [((_now E + 0)%Z, NORMAL, _eid E, length s)])
                      (S (_eid E)))).
Proof.
  intros Ha Hb Henv HE Hca Hcb Hoa Hob Hxy.
  destruct (pair_run all_events a b s ea eb E Ha Hb Henv HE Hca Hcb)
    as (s1 & Hrun & Hc & HE1 & Hsub).
  assert (forall z, z = a \/ z = b ->
            z <> length s /\ exists e, s1 !! z = Some (OEvent e) /\ ok e = Some true)
    as Hsub'.
  { intros z Hz. split; [destruct Hz as [-> | ->]; by eapply bound_fresh |].
    destruct (Hsub z Hz) as (e & He & Hok). exists e. split; [done |].
    rewrite Hok. by destruct (decide (z = a)). }
  destruct (Hsub' x) as (Hnx & ex & Hex & Hox); [tauto |].
  destruct (Hsub' y) as (Hny & ey & Hey & Hoy); [tauto |].
  pose proof (bound_fresh _ _ _ HE) as Hne.
  exists s1. eexists. eexists.
  split; [unfold Event__and__, bind; by rewrite (the_event_Some _ _ _ Ha) |].
  split; [by eapply check_run |].
  change (all_events [a; b] (0 + 1)) with false. cbv iota.
  split; [by eapply lookup_insert_same |].
  split; [by apply lookup_insert_other |].
  split.
  { eapply check_run.
    - by eapply lookup_insert_same.
    - done.
    - done.
    - by apply lookup_insert_other.
    - by apply lookup_insert_other.
    - done. }
  change (all_events [a; b] (1 + 1)) with true. cbv iota.
  split.
  - apply lookup_insert_other; [done |]. rewrite list_insert_insert_eq.
    by eapply lookup_insert_same.
  - eapply lookup_insert_same. by do 2 (apply lookup_insert_other; [done |]).
Qed.

(** [a | b] for two events of one environment that are not processed: the
    condition comes back pending; the check of either of them, processed
    with success, lets it succeed and schedules it; the check of the other
    one then changes nothing. *)
Theorem or_fires_on_first a b s ea eb E x y :
  s !! a = Some (OEvent ea) ->
  s !! b = Some (OEvent eb) ->
  env eb = env ea ->
  s !! env ea = Some (OEnv E) ->
  callbacks ea <> None ->
  callbacks eb <> None ->
  ok ea = Some true ->
  ok eb = Some true ->
  (x = a /\ y = b) \/ (x = b /\ y = a) ->
  exists s1 s2,
    Event__or__ a b s = (Ok (length s), s1) /\
    s1 !! length s =
      Some (OEvent (Event (env ea) (Some [cb_collect_values (length s)]) PENDING None
                          false (IsCondition any_events [a; b] 0))) /\
    Condition__check (length s) x s1 = (Ok tt, s2) /\
    s2 !! length s =
      Some (OEvent (Event (env ea) (Some [cb_collect_values (length s)]) (Some VNone)
                          (Some true) false (IsCondition any_events [a; b] 1))) /\
    s2 !! env ea =
      Some (OEnv (Env (_now E) (_active_proc E)
                      (_queue E ++ [((_now E + 0)%Z, NORMAL, _eid E, length s)])
                      (S (_eid E)))) /\
    Condition__check (length s) y s2 = (Ok tt, s2).
Proof.
  intros Ha Hb Henv HE Hca Hcb Hoa Hob Hxy.
  destruct (pair_run any_events a b s ea eb E Ha Hb Henv HE Hca Hcb)
    as (s1 & Hrun & Hc & HE1 & Hsub).
  destruct (Hsub x) as (ex & Hex & Hox); [tauto |].
  assert (ok ex = Some true) as Hox'
    by (rewrite Hox; by destruct (decide (x = a))).
  pose proof (bound_fresh _ _ _ HE) as Hne.
  exists s1. eexists.
  split; [unfold Event__or__, bind; by rewrite (the_event_Some _ _ _ Ha) |].
  split; [done |].
  split; [by eapply check_run |].
  change (any_events [a; b] (0 + 1)) with true. cbv iota.
  set (E' := Env _ _ _ _).
  set (fired := set_outcome _ _ _).
  assert (<[env ea := OEnv E']> (<[length s := OEvent fired]> s1) !! length s =
          Some (OEvent fired)) as Hc2.
  { apply lookup_insert_other; [done |]. by eapply lookup_insert_same. }
  split; [done |].
  split; [eapply lookup_insert_same; by apply lookup_insert_other |].
  by eapply check_triggered.
Qed.

End Kernel.

(** * Concrete runs *)

(** Three small generators, named by their state: [0] returns 42 at once,
    [1] raises [RuntimeError("boom")], [2] waits for [Timeout(env, 1)] and
    then goes on as [0].  None of them catches what is thrown into it. *)
Definition demo_send (g : nat) (v : option value) : @segment nat :=
  match g with
  | 0 => SReturn [VInt 42]
  | 1 => SCall (op_exception "RuntimeError" [VStr "boom"])
               (fun r => match r with Ok x => SRaise x | _ => SReturn [] end)
  | 2 => SCall (op_Timeout 0 1 VNone)
               (fun r => match r with Ok t => SYield t 0 | _ => SReturn [] end)
  | _ => SReturn []
  end.

Definition demo_throw (g : nat) (x : ref) : @segment nat := SRaise (VRef x).

(** Exception classes whose constructors take any arguments and keep
    them. *)
Definition plain_classes (ty : string) (a : list value) : constructed := Built a.

(** The same, but for [JSONDecodeError], whose constructor wants a message,
    a document and a position, and keeps the message only. *)
Definition json_classes (ty : string) (a : list value) : constructed :=
  if decide (ty = "JSONDecodeError"%string) then
    match a with
    | [msg; doc; pos] => Built [msg]
    | _ => Refused "TypeError" [VStr "__init__() missing required positional arguments"]
    end
  else Built a.

(** The source file of every generator is there to be read. *)
Definition demo_frame (g : nat) : printed := Printed.

(** No source file is: the generators were compiled from a string. *)
Definition no_frame (g : nat) : printed :=
  Fails "FileNotFoundError" [VInt 2; VStr "No such file or directory"].

(** A store that holds a fresh environment only. *)
Definition idle : list (@obj nat) := [OEnv (Env 0 None [] 0)].

(** An environment, a process about to start in state [g], a failed event
    whose value is the exception next to it, and a successful event. *)
Definition started (g : nat) : list (@obj nat) :=
  [OEnv (Env 5 None [] 3);
   OEvent (Event 0 (Some []) PENDING None false (IsProcess (Some g) (Some 4)));
   OEvent (Event 0 None (Some (VRef 3)) (Some false) false IsEvent);
   OExc (Exc "KeyError" [VStr "k"] None);
   OEvent (Event 0 None (Some VNone) (Some true) false IsInitialize)].

(** An environment, two processed events, one pending event, a condition
    over the first two that is nested in a succeeded condition over it, the
    pending event and the first event again. *)
Definition nested : list (@obj nat) :=
  [OEnv (Env 9 None [] 7);
   OEvent (Event 0 None (Some (VInt 10)) (Some true) false IsEvent);
   OEvent (Event 0 None (Some (VInt 20)) (Some true) false IsEvent);
   OEvent (Event 0 (Some [cb_check 5]) PENDING None false IsEvent);
   OEvent (Event 0 None (Some VNone) (Some true) false (IsCondition all_events [2; 1] 2));
   OEvent (Event 0 (Some [cb_collect_values 5]) (Some VNone) (Some true) false
                 (IsCondition any_events [4; 3; 1] 1))].

(** Scenario 3 of section 8, in small: a process that waits for
    [Timeout(1)] and returns 42 is over after three steps, at [now = 1]. *)
Example run_to_completion :
  exists s p,
    bind (Process__init__ 0 (a_generator 2))
         (fun _ => steps demo_send demo_throw plain_classes demo_frame 5 3 0) idle = (Ok tt, s) /\
    s !! 0 = Some (OEnv (Env 1 None [] 3)) /\
    s !! 1 = Some (OEvent p) /\
    _value p = Some (VInt 42) /\ ok p = Some true /\ callbacks p = None /\
    variant_of p = IsProcess None None.
Proof.
  eexists _, _. split; [vm_compute; reflexivity |]. by repeat split.
Qed.

(** Scenario 6: the error of a process that nobody waits for comes out of
    the step that processes the process. *)
Example unhandled_failure :
  exists s,
    bind (Process__init__ 0 (a_generator 1))
         (fun _ => steps demo_send demo_throw plain_classes demo_frame
               5 2 0) idle = (Raised 4, s) /\
    s !! 4 = Some (OExc (Exc "RuntimeError" [VStr "boom"] (Some 3))).
Proof.
  eexists. split; [vm_compute; reflexivity |]. reflexivity.
Qed.

Lemma Timeout_delay_contract_witness :
  idle !! 0 = Some (OEnv (Env 0 None [] 0)) /\
  Timeout__init__ 0 (-1) VNone idle =
    (Raised 1, idle ++ [OExc (Exc "ValueError" [VStr "Negative delay"; VInt (-1)] None)]) /\
  exists e,
    Timeout__init__ 0 3 (VInt 7) idle =
      (Ok 1, [OEnv (Env 0 None [(3%Z, NORMAL, 0, 1)] 1); OEvent e]) /\
    triggered e = true /\ ok e = Some true /\ _value e = Some (VInt 7) /\
    callbacks e = Some [] /\ env e = 0.
Proof.
  split; [reflexivity |]. split.
  - exact (Timeout_delay_contract 0 (-1) VNone idle _ eq_refl).
  - exact (Timeout_delay_contract 0 3 (VInt 7) idle _ eq_refl).
Defined.

(** An environment whose active process is the process next to it. *)
Definition running : list (@obj nat) :=
  [OEnv (Env 5 (Some 1) [] 3);
   OEvent (Event 0 (Some []) PENDING None false (IsProcess (Some 2) (Some 4)))].

Lemma interrupt_not_allowed_witness :
  (exists s',
     Process_interrupt 1 VNone (started 0) = (Ok tt, s') /\
     s' !! 0 = Some (OEnv (Env 5 None [(5%Z, URGENT, 3, 6)] 4))) /\
  (exists x s',
     Process_interrupt 1 VNone running = (Raised x, s') /\
     s' !! 0 = Some (OEnv (Env 5 (Some 1) [] 3))).
Proof.
  split.
  - destruct (interrupt_not_allowed 1 VNone (started 0) _ _ eq_refl eq_refl)
      as (s' & _ & H).
    exists s'. destruct (decide _) as [[Hv | Ha] | _] in H.
    + by destruct Hv.
    + discriminate Ha.
    + destruct H as (H & _ & _ & HE). split; [exact H | exact HE].
  - destruct (interrupt_not_allowed 1 VNone running _ _ eq_refl eq_refl)
      as (s' & _ & H).
    destruct (decide _) as [_ | Hn] in H.
    + destruct H as (x & X & H & _ & _ & HE). exists x, s'. split; [exact H | exact HE].
    + destruct Hn. by right.
Defined.

(** An environment, a processed failed event with its exception, and a
    pending [AllOf] over it. *)
Definition failing : list (@obj nat) :=
  [OEnv (Env 2 None [] 1);
   OEvent (Event 0 None (Some (VRef 2)) (Some false) false IsEvent);
   OExc (Exc "KeyError" [VStr "k"] None);
   OEvent (Event 0 (Some []) PENDING None false (IsCondition all_events [1] 0))].

Lemma Condition_check_forwards_failure_witness :
  (exists s',
     Condition__check 3 1 failing = (Ok tt, s') /\
     s' !! 1 = Some (OEvent (Event 0 None (Some (VRef 2)) (Some false) true IsEvent)) /\
     s' !! 3 = Some (OEvent (Event 0 (Some []) (Some (VRef 2)) (Some false) false
                                   (IsCondition all_events [1] 1))) /\
     s' !! 0 = Some (OEnv (Env 2 None [(2%Z, NORMAL, 1, 3)] 2))) /\
  Condition__check 5 3 nested = (Ok tt, nested).
Proof.
  split.
  - pose proof (Condition_check_forwards_failure 3 1 failing _ _ _ _ _
                  eq_refl eq_refl eq_refl) as H.
    destruct (decide _) as [Hv | _] in H; [by destruct Hv |].
    destruct (H _ _ _ eq_refl eq_refl eq_refl eq_refl) as (s' & H1 & H2 & H3 & H4 & _).
    exists s'. repeat split; [exact H1 | exact H2 | exact H3 | exact H4].
  - pose proof (Condition_check_forwards_failure 5 3 nested _ _ _ _ _
                  eq_refl eq_refl eq_refl) as H.
    destruct (decide _) as [_ | Hn] in H; [exact H |].
    destruct Hn. discriminate.
Defined.

Lemma resume_defuses_failed_event_witness :
  started 0 !! 2 = Some (OEvent (Event 0 None (Some (VRef 3)) (Some false) false IsEvent)) /\
  exists e',
    (Process__resume demo_send demo_throw plain_classes demo_frame
          1 1 2 (started 0)).2 !! 2 = Some (OEvent e') /\
    defused e' = true.
Proof.
  split; [reflexivity |].
  exact (proj2 (resume_defuses_failed_event demo_send demo_throw plain_classes demo_frame
        0 1 2 (started 0) _ _ _
                  eq_refl eq_refl eq_refl eq_refl)).
Defined.

(** A generator that fails to decode a document: it raises the
    [JSONDecodeError] that [json.loads] has built from a message, the
    document and a position, and that holds the message only. *)
Definition decoder_send (g : nat) (v : option value) : @segment nat :=
  SCall (op_exception "JSONDecodeError" [VStr "Expecting value"])
        (fun r => match r with Ok x => SRaise x | _ => SReturn [] end).

Lemma failed_process_gets_fresh_copy_witness :
  (exists s' me',
     Process__resume demo_send demo_throw json_classes demo_frame 1 1 4 (started 1)
       = (Ok tt, s') /\
     s' !! 1 = Some (OEvent me') /\
     ok me' = Some false /\
     _value me' = Some (VRef 6) /\
     s' !! 6 = Some (OExc (Exc "RuntimeError" [VStr "boom"] (Some 5))) /\
     s' !! 5 = Some (OExc (Exc "RuntimeError" [VStr "boom"] None))) /\
  (exists s',
     Process__resume decoder_send demo_throw json_classes demo_frame 1 1 4 (started 0)
       = (Raised 6, s') /\
     s' !! 1 = Some (OEvent (Event 0 (Some []) PENDING (Some false) false
                                   (IsProcess None (Some 4)))) /\
     s' !! 0 = Some (OEnv (Env 5 (Some 1) [] 3)) /\
     s' !! 6 = Some (OExc (Exc "TypeError"
                               [VStr "__init__() missing required positional arguments"]
                               None))).
Proof.
  split.
  - pose (s1 := (deliver demo_send demo_throw 1 (VRef 4)
                   (<[0 := OEnv (Env 5 (Some 1) [] 3)]> (started 1))).2).
    destruct (failed_process_gets_fresh_copy demo_send demo_throw json_classes demo_frame
                0 1 4 (started 1) _ _ 5 s1
                (Exc "RuntimeError" [VStr "boom"] None) eq_refl eq_refl
                ltac:(vm_compute; reflexivity) ltac:(vm_compute; reflexivity)
                ltac:(discriminate))
      as (me1 & E1 & _ & _ & _ & H).
    change (json_classes _ _) with (Built [VStr "boom"]) in H.
    destruct H as (s' & me' & H1 & H2 & H3 & H4 & _ & _ & H7 & H8 & _).
    exists s', me'.
    repeat split; [exact H1 | exact H2 | exact H3 | exact H4 | exact H7 | exact H8].
  - pose (s1 := (deliver decoder_send demo_throw 1 (VRef 4)
                   (<[0 := OEnv (Env 5 (Some 1) [] 3)]> (started 0))).2).
    destruct (failed_process_gets_fresh_copy decoder_send demo_throw json_classes demo_frame
                0 1 4 (started 0) _ _ 5 s1
                (Exc "JSONDecodeError" [VStr "Expecting value"] None) eq_refl eq_refl
                ltac:(vm_compute; reflexivity) ltac:(vm_compute; reflexivity)
                ltac:(discriminate))
      as (me1 & E1 & H1 & _ & _ & H).
    change (json_classes _ _)
      with (Refused "TypeError" [VStr "__init__() missing required positional arguments"])
      in H.
    vm_compute in H1. injection H1 as <-.
    eexists. split; [exact H |]. repeat split; vm_compute; reflexivity.
Defined.





Lemma collect_values_contract_witness :
  Condition__collect_values 6 5 5 nested =
    (Ok tt,
     <[5 := OEvent (Event 0 (Some [cb_collect_values 5])
                          (Some (VDict [(2, Some (VInt 20)); (1, Some (VInt 10))]))
                          (Some true) false (IsCondition any_events [4; 3; 1] 1))]> nested).
Proof.
  assert (ordered nested) as Hord.
  { intros r events H.
    destruct r as [| [| [| [| [| [| r]]]]]]; vm_compute in H; simplify_eq.
    - repeat constructor; eexists; reflexivity.
    - repeat constructor; eexists; reflexivity. }
  exact (proj1 (collect_values_contract 5 5 nested _ _ _ _ Hord eq_refl eq_refl eq_refl
                  (le_n 5))).
Defined.

(** * Further runs *)

(** An environment, two events that have succeeded and wait in the queue to
    be processed, a second environment with a pending event of its own, and
    a pending [AllOf] over the first two events. *)
Definition queued : list (@obj nat) :=
  [OEnv (Env 2 None [(2%Z, NORMAL, 0, 1); (2%Z, NORMAL, 1, 2)] 2);
   OEvent (Event 0 (Some []) (Some (VInt 10)) (Some true) false IsEvent);
   OEvent (Event 0 (Some [cb_resume 9]) (Some (VInt 20)) (Some true) false IsEvent);
   OEnv (Env 0 None [] 0);
   OEvent (Event 3 (Some []) PENDING None false IsEvent);
   OEvent (Event 0 (Some [cb_collect_values 5]) PENDING None false
                 (IsCondition all_events [1; 2] 0))].

(** An environment, a process that waits for the event next to it, and an
    [Interruption] of the process with its [Interrupt] exception. *)
Definition interrupted : list (@obj nat) :=
  [OEnv (Env 5 None [] 3);
   OEvent (Event 0 (Some []) PENDING None false (IsProcess (Some 0) (Some 2)));
   OEvent (Event 0 (Some [cb_resume 1]) PENDING None false IsEvent);
   OExc (Exc "Interrupt" [VStr "stop"] None);
   OEvent (Event 0 None (Some (VRef 3)) (Some false) true (IsInterruption (Some 1)))].

(** More generators: [0] yields the number 1, which is no event; [1] yields
    the event at reference 4 and then returns 42; [3] yields two events at
    once, as [yield a, b] does. *)
Definition odd_send (g : nat) (v : option value) : @segment nat :=
  match g with
  | 0 => SYield (VInt 1) 2
  | 1 => SYield (VRef 4) 2
  | 3 => SYield (VTuple [VRef 2; VRef 4]) 2
  | _ => SReturn [VInt 42]
  end.



Lemma fail_rejects_non_exception_witness :
  Event_fail 3 (VInt 1) nested =
    (Raised 6, nested ++ [OExc (Exc "ValueError" [VStr "is not an exception."] None)]) /\
  Event_fail 3 (VTuple [VInt 1; VInt 2]) nested =
    (Raised 6,
     nested ++ [OExc (Exc "TypeError"
                          [VStr "not all arguments converted during string formatting"]
                          None)]).
Proof.
  destruct (fail_rejects_non_exception 3 nested _ eq_refl eq_refl) as (_ & H1 & H2).
  split; [exact (H1 1%Z) | exact (H2 (VInt 1) (VInt 2) [])].
Defined.

Lemma value_after_trigger_witness :
  Event_value 3 nested =
    (Raised 6,
     nested ++ [OExc (Exc "AttributeError" [VStr "Value is not yet available"] None)]) /\
  exists s',
    Event_succeed 3 (VInt 7) nested = (Ok 3, s') /\ Event_value 3 s' = (Ok (VInt 7), s').
Proof.
  destruct (value_after_trigger 3 nested _ _ eq_refl eq_refl eq_refl)
    as (_ & H1 & H2 & _).
  split; [exact (H1 eq_refl) | exact (H2 (VInt 7))].
Defined.

Lemma trigger_needs_a_triggered_event_witness :
  Event_trigger 1 3 nested =
    (Raised 6, nested ++ [OExc (Exc "AttributeError" [VStr "ok"] None)]).
Proof.
  exact (trigger_needs_a_triggered_event 1 3 nested _ eq_refl eq_refl).
Defined.

Lemma interrupt_delivery_witness :
  Interruption__interrupt demo_send demo_throw plain_classes demo_frame 1 4 4 interrupted =
    Process__resume demo_send demo_throw plain_classes demo_frame 1 1 4
      (<[2 := OEvent (Event 0 (Some []) PENDING None false IsEvent)]> interrupted).
Proof.
  pose proof (interrupt_delivery demo_send demo_throw plain_classes demo_frame
        1 4 4 interrupted _ _ _
                eq_refl eq_refl eq_refl) as H.
  destruct (decide _) as [Hv | _] in H; [by destruct Hv |].
  exact (H _ _ _ _ eq_refl eq_refl eq_refl ltac:(by left)).
Defined.

Lemma Timeout_is_already_triggered_witness :
  (exists s',
     Timeout__init__ 0 3 VNone idle = (Ok 1, s') /\
     Event_succeed 1 (VInt 1) s' =
       (Raised (length s'),
        s' ++ [OExc (Exc "RuntimeError" [VStr "has already been triggered"] None)])) /\
  (exists s',
     Timeout__init__ 0 3 (VTuple [VInt 1; VInt 2]) idle = (Ok 1, s') /\
     Event_succeed 1 (VInt 1) s' =
       (Raised (length s'),
        s' ++ [OExc (Exc "TypeError"
                         [VStr "not all arguments converted during string formatting"]
                         None)])).
Proof.
  split.
  - destruct (Timeout_is_already_triggered 0 3 VNone idle _ eq_refl ltac:(lia))
      as (s' & X & H1 & H2 & HX).
    simpl in HX. subst X.
    exists s'. split; [exact H1 | exact (proj1 (H2 (VInt 1)))].
  - destruct (Timeout_is_already_triggered 0 3 (VTuple [VInt 1; VInt 2]) idle _ eq_refl
                ltac:(lia))
      as (s' & X & H1 & H2 & HX).
    simpl in HX. subst X.
    exists s'. split; [exact H1 | exact (proj1 (H2 (VInt 1)))].
Defined.

Lemma events_only_append_to_the_queue_witness :
  exists E',
    (call (op_Timeout 0 1 VNone) queued).2 !! 0 = Some (OEnv E') /\
    grows (Env 2 None [(2%Z, NORMAL, 0, 1); (2%Z, NORMAL, 1, 2)] 2) E'.
Proof.
  exact (proj1 (events_only_append_to_the_queue demo_send demo_throw plain_classes demo_frame
        queued 0 _ eq_refl)
               (op_Timeout 0 1 VNone)).
Defined.

Lemma generator_runs_as_active_process_witness :
  exists E',
    (deliver demo_send demo_throw 1 (VRef 4)
       (<[0 := OEnv (Env 5 (Some 1) [] 3)]> (started 2))).2 !! 0 = Some (OEnv E') /\
    _active_proc E' = Some 1 /\ _now E' = 5%Z.
Proof.
  exact (generator_runs_as_active_process demo_send demo_throw 1 4 (started 2) _ _
           eq_refl eq_refl).
Defined.

Lemma invalid_yield_raises_witness :
  (exists s1,
     Process__resume odd_send demo_throw plain_classes demo_frame 1 1 4 (started 0) =
       (Raised (length s1),
        s1 ++ [OExc (Exc "RuntimeError" [VStr "Invalid yield value"] None)]) /\
     s1 !! 0 = Some (OEnv (Env 5 (Some 1) [] 3))) /\
  (exists s1,
     Process__resume odd_send demo_throw plain_classes no_frame 1 1 4 (started 0) =
       (Raised (length s1),
        s1 ++ [OExc (Exc "FileNotFoundError" [VInt 2; VStr "No such file or directory"]
                         None)])) /\
  (exists s1,
     Process__resume odd_send demo_throw plain_classes demo_frame 1 1 4 (started 3) =
       (Raised (length s1),
        s1 ++ [OExc (Exc "TypeError"
                         [VStr "not all arguments converted during string formatting"]
                         None)])).
Proof.
  split; [| split].
  - pose (s1 := (deliver odd_send demo_throw 1 (VRef 4)
                   (<[0 := OEnv (Env 5 (Some 1) [] 3)]> (started 0))).2).
    destruct (invalid_yield_raises odd_send demo_throw plain_classes demo_frame
                0 1 4 (started 0) _ _ (VInt 1) s1
                eq_refl eq_refl ltac:(vm_compute; reflexivity)
                ltac:(vm_compute; reflexivity))
      as (me1 & g & t & E1 & _ & _ & H & _).
    exists s1. split; [exact H | vm_compute; reflexivity].
  - pose (s1 := (deliver odd_send demo_throw 1 (VRef 4)
                   (<[0 := OEnv (Env 5 (Some 1) [] 3)]> (started 0))).2).
    destruct (invalid_yield_raises odd_send demo_throw plain_classes no_frame
                0 1 4 (started 0) _ _ (VInt 1) s1
                eq_refl eq_refl ltac:(vm_compute; reflexivity)
                ltac:(vm_compute; reflexivity))
      as (me1 & g & t & E1 & _ & _ & H & _).
    exists s1. exact H.
  - pose (s1 := (deliver odd_send demo_throw 1 (VRef 4)
                   (<[0 := OEnv (Env 5 (Some 1) [] 3)]> (started 3))).2).
    destruct (invalid_yield_raises odd_send demo_throw plain_classes demo_frame
                0 1 4 (started 3) _ _ (VTuple [VRef 2; VRef 4]) s1
                eq_refl eq_refl ltac:(vm_compute; reflexivity)
                ltac:(vm_compute; reflexivity))
      as (me1 & g & t & E1 & _ & _ & H & _).
    exists s1. exact H.
Defined.

Lemma returned_value_becomes_process_value_witness :
  exists s' me',
    Process__resume demo_send demo_throw plain_classes demo_frame 1 1 4 (started 0) = (Ok tt, s') /\
    s' !! 1 = Some (OEvent me') /\
    ok me' = Some true /\
    _value me' = Some (VInt 42) /\
    s' !! 0 = Some (OEnv (Env 5 None [(5%Z, NORMAL, 3, 1)] 4)).
Proof.
  pose (s1 := (deliver demo_send demo_throw 1 (VRef 4)
                  (<[0 := OEnv (Env 5 (Some 1) [] 3)]> (started 0))).2).
  destruct (returned_value_becomes_process_value demo_send demo_throw plain_classes demo_frame
        0 1 4 (started 0)
              _ _ 5 s1 (Exc "StopIteration" [VInt 42] None) eq_refl eq_refl
              ltac:(vm_compute; reflexivity) ltac:(vm_compute; reflexivity) eq_refl)
    as (s' & me' & E1 & H1 & _ & H2 & H3 & H4 & H5 & H6).
  exists s', me'.
  assert (E1 = Env 5 (Some 1) [] 3) as -> by (vm_compute in H5; congruence).
  repeat split; [exact H1 | exact H2 | exact H3 | exact H4 | exact H6].
Defined.

Lemma interrupt_cause_round_trip_witness :
  exists s' i,
    Process_interrupt 1 (VStr "stop") (started 0) = (Ok tt, s') /\
    s' !! 6 = Some (OEvent i) /\
    _value i = Some (VRef 5) /\
    Interrupt_cause 5 s' = (Ok (VStr "stop"), s').
Proof.
  exact (proj1 (interrupt_cause_round_trip 1 (VStr "stop") (started 0) _ _
                  eq_refl eq_refl eq_refl ltac:(discriminate))).
Defined.

Lemma kernel_never_goes_back_witness :
  exists e',
    (invoke demo_send demo_throw plain_classes demo_frame
          1 (cb_trigger 3) 1 nested).2 !! 3 = Some (OEvent e') /\
    event_le (Event 0 (Some [cb_check 5]) PENDING None false IsEvent) e'.
Proof.
  exact (proj2 (proj1 (kernel_never_goes_back demo_send demo_throw plain_classes demo_frame
        nested) 3 _ eq_refl)
               1 (cb_trigger 3) 1).
Defined.


Lemma Condition_check_counts_witness :
  Condition__check 5 1 queued =
    (Ok tt,
     <[5 := OEvent (Event 0 (Some [cb_collect_values 5]) PENDING None false
                          (IsCondition all_events [1; 2] 1))]> queued).
Proof.
  exact (proj1 (Condition_check_counts 5 1 queued _ _ _ _ _ _
                  eq_refl eq_refl eq_refl eq_refl eq_refl eq_refl)).
Defined.

Lemma Condition_rejects_mixed_environments_witness :
  Condition__init__ 0 any_events [1; 4] queued =
    (Raised 7,
     queued ++ [OEvent (Event 0 (Some []) PENDING None false (IsCondition any_events [1; 4] 0));
                OExc (Exc "ValueError"
                          [VStr "It is not allowed to mix events from different environments"]
                          None)]).
Proof.
  apply (Condition_rejects_mixed_environments 0 any_events [1; 4] queued).
  - repeat apply Forall_cons_2; try apply Forall_nil_2; eexists; reflexivity.
  - right. left. eexists. split; [reflexivity | discriminate].
Defined.

Lemma Condition_registers_checks_witness :
  exists s',
    Condition__init__ 0 all_events [2; 1; 2] queued = (Ok 6, s') /\
    s' !! 2 = Some (OEvent (Event 0 (Some [cb_resume 9; cb_check 6; cb_check 6])
                                  (Some (VInt 20)) (Some true) false IsEvent)) /\
    s' !! 4 = Some (OEvent (Event 3 (Some []) PENDING None false IsEvent)).
Proof.
  destruct (Condition_registers_checks 0 all_events [2; 1; 2] queued)
    as (s' & H1 & _ & _ & H2).
  - repeat apply Forall_cons_2; try apply Forall_nil_2;
      (eexists; split; [reflexivity |]; split; [reflexivity | discriminate]).
  - exists s'. split; [exact H1 |]. split.
    + exact (H2 2 _ eq_refl).
    + exact (H2 4 _ eq_refl).
Defined.

Lemma AllOf_of_processed_events_fires_witness :
  exists s',
    AllOf__init__ 0 [1; 2] nested = (Ok 6, s') /\
    s' !! 6 = Some (OEvent (Event 0 (Some [cb_collect_values 6]) (Some VNone) (Some true)
                                  false (IsCondition all_events [1; 2] 2))) /\
    s' !! 0 = Some (OEnv (Env 9 None [(9%Z, NORMAL, 7, 6)] 8)).
Proof.
  destruct (AllOf_of_processed_events_fires 0 [1; 2] nested _ eq_refl ltac:(discriminate))
    as (s' & H1 & _ & H2 & H3 & _).
  - repeat apply Forall_cons_2; try apply Forall_nil_2;
      eexists; repeat split; reflexivity.
  - exists s'. split; [exact H1 |]. split; [exact H2 | exact H3].
Defined.

Lemma AllOf_waits_for_unprocessed_events_witness :
  exists s',
    AllOf__init__ 0 [1; 3] nested = (Ok 6, s') /\
    s' !! 6 = Some (OEvent (Event 0 (Some [cb_collect_values 6]) PENDING None false
                                  (IsCondition all_events [1; 3] 1))) /\
    s' !! 0 = Some (OEnv (Env 9 None [] 7)) /\
    s' !! 3 = Some (OEvent (Event 0 (Some [cb_check 5; cb_check 6]) PENDING None false
                                  IsEvent)).
Proof.
  destruct (AllOf_waits_for_unprocessed_events 0 [1; 3] nested _ eq_refl)
    as (s' & H1 & _ & H2 & _ & H3 & H4).
  - repeat apply Forall_cons_2; try apply Forall_nil_2;
      (eexists; split; [reflexivity |]; split; [reflexivity | simpl; congruence]).
  - right. left. reflexivity.
  - exists s'. split; [exact H1 |]. split; [exact H2 |]. split; [exact H3 |].
    exact (H4 3 _ eq_refl ltac:(discriminate)).
Defined.

Lemma AnyOf_of_a_processed_event_fires_witness :
  exists s',
    AnyOf__init__ 0 [3; 1] nested = (Ok 6, s') /\
    s' !! 6 = Some (OEvent (Event 0 (Some [cb_collect_values 6]) (Some VNone) (Some true)
                                  false (IsCondition any_events [3; 1] 1))) /\
    s' !! 0 = Some (OEnv (Env 9 None [(9%Z, NORMAL, 7, 6)] 8)) /\
    s' !! 3 = Some (OEvent (Event 0 (Some [cb_check 5; cb_check 6]) PENDING None false
                                  IsEvent)).
Proof.
  destruct (AnyOf_of_a_processed_event_fires 0 [3; 1] nested _ eq_refl)
    as (s' & H1 & _ & H2 & H3 & H4).
  - repeat apply Forall_cons_2; try apply Forall_nil_2;
      (eexists; split; [reflexivity |]; split; [reflexivity | simpl; congruence]).
  - right. left. reflexivity.
  - exists s'. split; [exact H1 |]. split; [exact H2 |]. split; [exact H3 |].
    exact (H4 3 _ eq_refl ltac:(discriminate)).
Defined.

Lemma processed_yield_resumes_at_once_witness :
  Process__resume odd_send demo_throw plain_classes demo_frame 2 1 4 (started 1) =
    Process__resume odd_send demo_throw plain_classes demo_frame 1 1 4
      (<[0 := OEnv (Env 5 (Some 1) [] 3)]>
         (<[1 := OEvent (Event 0 (Some []) PENDING None false
                               (IsProcess (Some 2) (Some 4)))]> (started 1))).
Proof.
  exact (processed_yield_resumes_at_once odd_send demo_throw plain_classes demo_frame
        1 1 4 (started 1) _ _ 4 _ _
           eq_refl eq_refl ltac:(vm_compute; reflexivity) eq_refl eq_refl).
Defined.

Lemma and_fires_after_both_witness :
  exists s1 s2 s3,
    Event__and__ 1 2 queued = (Ok 6, s1) /\
    Condition__check 6 2 s1 = (Ok tt, s2) /\
    s2 !! 0 = Some (OEnv (Env 2 None [(2%Z, NORMAL, 0, 1); (2%Z, NORMAL, 1, 2)] 2)) /\
    Condition__check 6 1 s2 = (Ok tt, s3) /\
    s3 !! 0 = Some (OEnv (Env 2 None [(2%Z, NORMAL, 0, 1); (2%Z, NORMAL, 1, 2);
                                       (2%Z, NORMAL, 2, 6)] 3)).
Proof.
  destruct (and_fires_after_both 1 2 queued _ _ _ 2 1 eq_refl eq_refl eq_refl eq_refl
              ltac:(discriminate) ltac:(discriminate) eq_refl eq_refl
              ltac:(right; split; reflexivity))
    as (s1 & s2 & s3 & H1 & H2 & _ & H3 & H4 & _ & H5).
  exists s1, s2, s3. repeat split; [exact H1 | exact H2 | exact H3 | exact H4 | exact H5].
Defined.

Lemma or_fires_on_first_witness :
  exists s1 s2,
    Event__or__ 1 2 queued = (Ok 6, s1) /\
    Condition__check 6 1 s1 = (Ok tt, s2) /\
    s2 !! 6 = Some (OEvent (Event 0 (Some [cb_collect_values 6]) (Some VNone) (Some true)
                                  false (IsCondition any_events [1; 2] 1))) /\
    Condition__check 6 2 s2 = (Ok tt, s2).
Proof.
  destruct (or_fires_on_first 1 2 queued _ _ _ 1 2 eq_refl eq_refl eq_refl eq_refl
              ltac:(discriminate) ltac:(discriminate) eq_refl eq_refl
              ltac:(left; split; reflexivity))
    as (s1 & s2 & H1 & _ & H2 & H3 & _ & H4).
  exists s1, s2. repeat split; [exact H1 | exact H2 | exact H3 | exact H4].
Defined.
